(** * aws-jwt-verify: JWK/JWKS validation, the penalty box, the JWKS cache
      and the ALB verifier

    A shallow embedding of [src/jwk.ts] and of the ALB verifier
    ([AlbJwtVerifier], [validateAlbJwtFields]).

    - JSON values are an inductive type; a JSON object is the list of its own
      properties, read with [obj_get] (the value of [o[field]], [None] for
      [undefined]).
    - A function that throws returns a [result]: [Ok v] or [Throw e].
    - [Map]s are stdpp [gmap]s keyed by the JWKS URI.
    - The [async] methods of [SimpleJwksCache] are split at their [await]s;
      an event loop ([exec]) runs the pieces in any interleaving. *)

From Stdlib Require Import ZArith Lia.
From stdpp Require Import base option list strings gmap fin_maps.

Open Scope string_scope.
Open Scope Z_scope.

Set Warnings "-register-all".

(** ** JSON *)

(** A parsed JSON value.  A number is kept as the decimal literal
    [mantissa * 10 ^ exponent]; it is falsy exactly when its mantissa is 0. *)
Inductive Json :=
| JNull
| JBool (b : bool)
| JNumber (mantissa exponent : Z)
| JString (s : string)
| JArray (items : list Json)
| JObject (fields : list (string * Json)).

Definition JsonObject := list (string * Json).

(** [o[field]]: the first binding of [field]; [None] is [undefined]. *)
Fixpoint obj_get (o : JsonObject) (field : string) : option Json :=
  match o with
  | [] => None
  | (k, v) :: rest => if String.eqb k field then Some v else obj_get rest field
  end.

(** [field in o] *)
Definition obj_has (o : JsonObject) (field : string) : bool :=
  match obj_get o field with Some _ => true | None => false end.

(** [typeof v === "string"], for [v] the result of a property read *)
Definition typeof_string (v : option Json) : bool :=
  match v with Some (JString _) => true | _ => false end.

(** [!v] for a JSON value: null, false, 0 and the empty string are falsy. *)
Definition falsy (j : Json) : bool :=
  match j with
  | JNull => true
  | JBool b => negb b
  | JNumber m _ => Z.eqb m 0
  | JString s => String.eqb s EmptyString
  | JArray _ => false
  | JObject _ => false
  end.

(** Modelled from the spec: [isJsonObject] of [safe-json-parse.ts], which is
    not among the sources; it holds of JSON objects only (not of arrays, not
    of null). *)
Definition isJsonObject (j : Json) : bool :=
  match j with JObject _ => true | _ => false end.

(** The own properties of a value known to be an object. *)
Definition properties (j : Json) : JsonObject :=
  match j with JObject fields => fields | _ => [] end.

(** The decomposed JWT handed to the cache and to the verifiers. *)
Record DecomposedJwt := mkJwt {
  header : JsonObject;
  payload : JsonObject;
}.

(** [typeof decomposedJwt.header.kid === "string"], with the string *)
Definition headerKid (jwt : DecomposedJwt) : option string :=
  match obj_get (header jwt) "kid" with
  | Some (JString kid) => Some kid
  | _ => None
  end.

(** ** Errors *)

(** The error classes of [error.ts] that the modelled code throws.
    [OtherError] stands for anything raised by a collaborator (the fetcher,
    a custom parser). *)
Inductive ErrorKind :=
| JwkValidationError
| JwksNotAvailableInCacheError
| JwksValidationError
| KidNotFoundInJwksError
| WaitPeriodNotYetEndedJwkError
| JwtWithoutValidKidError
| JwkInvalidUseError
| JwkInvalidKtyError
| ParameterValidationError
| FailedAssertionError
| JwtInvalidClaimError
| JwtExpiredError
| JwtNotBeforeError
| JwtInvalidIssuerError
| JwtInvalidAudienceError
| JwtInvalidSignatureError
| OtherError.

#[global] Instance ErrorKind_eq_dec : EqDecision ErrorKind.
Proof. solve_decision. Defined.

(** An error object: its class, its message and, for the errors that can
    carry one, the [rawJwt] attached by [withRawJwt]. *)
Record Error := mkError {
  kind : ErrorKind;
  message : string;
  rawJwt : option DecomposedJwt;
}.

Inductive result (A : Type) :=
| Ok (a : A)
| Throw (e : Error).
Arguments Ok {A} a.
Arguments Throw {A} e.

Definition bind {A B} (r : result A) (k : A -> result B) : result B :=
  match r with
  | Ok a => k a
  | Throw e => Throw e
  end.

Notation "x <- r ;; k" := (bind r (fun x => k))
  (at level 100, r at next level, right associativity).
Notation "r ;;; k" := (bind r (fun _ => k))
  (at level 100, right associativity).

Definition is_ok {A} (r : result A) : bool :=
  match r with Ok _ => true | Throw _ => false end.

Definition throw {A} (k : ErrorKind) (msg : string) : result A :=
  Throw (mkError k msg None).

(** The double quote character, for the messages that quote a kid. *)
Definition dquote : string := String (Ascii.ascii_of_nat 34) EmptyString.

(** ** JWK and JWKS *)

Definition optionalJwkFieldNames : list string :=
  ["use"; "alg"; "kid"; "n"; "e"; "x"; "y"; "crv"].
Definition mandatoryJwkFieldNames : list string := ["kty"].

(** A [Jwk] is a JSON object that passed [assertIsJwk]; the type assertion of
    the source is the value [assertIsJwk] returns. *)
Definition Jwk := JsonObject.

Record Jwks := mkJwks { keys : list Jwk }.

(** The first loop of [assertIsJwk]. *)
Fixpoint checkMandatoryFields (jwk : JsonObject) (names : list string) : result unit :=
  match names with
  | [] => Ok tt
  | field :: rest =>
      if negb (typeof_string (obj_get jwk field))
      then throw JwkValidationError ("JWK " +:+ field +:+ " should be a string")
      else checkMandatoryFields jwk rest
  end.

(** The second loop of [assertIsJwk]. *)
Fixpoint checkOptionalFields (jwk : JsonObject) (names : list string) : result unit :=
  match names with
  | [] => Ok tt
  | field :: rest =>
      if obj_has jwk field && negb (typeof_string (obj_get jwk field))
      then throw JwkValidationError ("JWK " +:+ field +:+ " should be a string")
      else checkOptionalFields jwk rest
  end.

Definition assertIsJwk (jwk : Json) : result Jwk :=
  if falsy jwk then throw JwkValidationError "JWK empty"
  else if negb (isJsonObject jwk)
  then throw JwkValidationError "JWK should be an object"
  else
    let fields := properties jwk in
    checkMandatoryFields fields mandatoryJwkFieldNames ;;;
    checkOptionalFields fields optionalJwkFieldNames ;;;
    Ok fields.

(** The loop of [assertIsJwks]: every element of [keys] is checked in turn. *)
Fixpoint assertAllJwk (items : list Json) : result (list Jwk) :=
  match items with
  | [] => Ok []
  | jwk :: rest =>
      j <- assertIsJwk jwk ;;
      js <- assertAllJwk rest ;;
      Ok (j :: js)
  end.

Definition assertIsJwks (jwks : Json) : result Jwks :=
  if falsy jwks then throw JwksValidationError "JWKS empty"
  else if negb (isJsonObject jwks)
  then throw JwksValidationError "JWKS should be an object"
  else
    let fields := properties jwks in
    if negb (obj_has fields "keys")
    then throw JwksValidationError "JWKS does not include keys"
    else
      match obj_get fields "keys" with
      | Some (JArray items) =>
          js <- assertAllJwk items ;;
          Ok (mkJwks js)
      | _ => throw JwksValidationError "JWKS keys should be an array"
      end.

Definition isJwks (jwks : Json) : bool := is_ok (assertIsJwks jwks).
Definition isJwk (jwk : Json) : bool := is_ok (assertIsJwk jwk).

(** [jwk.kid != null && jwk.kid === kid], for a string [kid] *)
Definition kidMatches (kid : string) (jwk : Jwk) : bool :=
  match obj_get jwk "kid" with
  | Some JNull | None => false
  | Some (JString s) => String.eqb s kid
  | Some _ => false
  end.

(** [Array.prototype.find] *)
Fixpoint array_find {A} (f : A -> bool) (l : list A) : option A :=
  match l with
  | [] => None
  | x :: rest => if f x then Some x else array_find f rest
  end.

Definition findJwkInJwks (jwks : Jwks) (kid : string) : option Jwk :=
  array_find (kidMatches kid) (keys jwks).

(** Binary data, as the fetcher returns it. *)
Definition Bytes := list Byte.byte.

(** [parseJwks]: UTF-8 decode, JSON parse, then [assertIsJwks].  The decoder
    and [safeJsonParse] are not among the sources: [decode] stands for both,
    and returns the text of the error they raise when they fail. *)
Definition parseJwks (decode : Bytes -> string + Json) (jwksBin : Bytes) : result Jwks :=
  match decode jwksBin with
  | inl err => throw JwksValidationError ("JWKS could not be parsed as JSON: " +:+ err)
  | inr jwks => assertIsJwks jwks
  end.

(** ** The penalty box *)

(** The [PenaltyBox] interface.  [pb_wait] gives the outcome of the promise
    that [wait] returns, and the state it leaves. *)
Class PenaltyBox (PB : Type) := {
  pb_wait : string -> string -> PB -> result unit * PB;
  pb_registerFailedAttempt : string -> string -> PB -> PB;
  pb_registerSuccessfulAttempt : string -> string -> PB -> PB;
}.

Module SimplePenaltyBox.

(** A timeout scheduled by [registerFailedAttempt]: its handle, the time
    (in milliseconds) at which it is due and the URI its callback deletes.
    All callbacks are [() => this.waitingUris.delete(jwksUri)]. *)
Record Timer := mkTimer {
  timer_id : positive;
  timer_due : Z;
  timer_uri : string;
}.

(** The object ([waitSeconds], [waitingUris]) together with the part of the
    runtime its methods act on: the clock and the timeouts not yet fired or
    cleared.  Handles are positive numbers, hence truthy. *)
Record t := mk {
  waitSeconds : Z;
  waitingUris : gmap string positive;
  clock : Z;
  timers : list Timer;
  nextTimer : positive;
}.

(** [new SimplePenaltyBox(props)], created at time [now] *)
Definition new (props_waitSeconds : option Z) (now : Z) : t :=
  mk (default 10 props_waitSeconds) ∅ now [] 1%positive.

Definition set_waitingUris (m : gmap string positive) (b : t) : t :=
  mk (waitSeconds b) m (clock b) (timers b) (nextTimer b).

(** Modelled from the spec: [nodeWebCompat.setTimeoutUnref], which is not
    among the sources; the callback runs once, [ms] milliseconds after the
    call, unless the timeout is cleared first.  This is the timer of the
    runtime for a delay from 1 to 2^31 - 1 milliseconds; a delay outside of
    that range the runtime replaces by 1 millisecond, which is not
    modelled: see [timerDelayHonoured]. *)
Definition setTimeoutUnref (uri : string) (ms : Z) (b : t) : positive * t :=
  let i := nextTimer b in
  (i, mk (waitSeconds b) (waitingUris b) (clock b)
         (timers b ++ [mkTimer i (clock b + ms) uri]) (Pos.succ i)).

Definition clearTimeout (i : positive) (b : t) : t :=
  mk (waitSeconds b) (waitingUris b) (clock b)
     (filter (fun tm => timer_id tm ≠ i) (timers b)) (nextTimer b).

Definition wait (jwksUri : string) (b : t) : result unit :=
  if decide (is_Some (waitingUris b !! jwksUri))
  then throw WaitPeriodNotYetEndedJwkError
         "Not allowed to fetch JWKS yet, still waiting for back off period to end"
  else Ok tt.

Definition release (jwksUri : string) (b : t) : t :=
  match waitingUris b !! jwksUri with
  | Some i =>
      let b1 := clearTimeout i b in
      set_waitingUris (delete jwksUri (waitingUris b1)) b1
  | None => b
  end.

Definition registerFailedAttempt (jwksUri : string) (b : t) : t :=
  let '(i, b1) := setTimeoutUnref jwksUri (waitSeconds b * 1000) b in
  set_waitingUris (<[jwksUri := i]> (waitingUris b1)) b1.

Definition registerSuccessfulAttempt (jwksUri : string) (b : t) : t :=
  release jwksUri b.

Definition isDue (now : Z) (tm : Timer) : bool := timer_due tm <=? now.

(** The callbacks of the timeouts in [due] run, one after the other. *)
Definition runCallbacks (due : list Timer) (m : gmap string positive)
  : gmap string positive :=
  foldl (fun acc tm => delete (timer_uri tm) acc) m due.

(** [ms] milliseconds pass: the timeouts that are due by then fire and
    leave the queue. *)
Definition advance (ms : N) (b : t) : t :=
  let now := clock b + Z.of_N ms in
  mk (waitSeconds b)
     (runCallbacks (List.filter (isDue now) (timers b)) (waitingUris b))
     now
     (List.filter (fun tm => negb (isDue now tm)) (timers b))
     (nextTimer b).

End SimplePenaltyBox.

#[global] Instance SimplePenaltyBox_PenaltyBox : PenaltyBox SimplePenaltyBox.t := {
  pb_wait uri _ b := (SimplePenaltyBox.wait uri b, b);
  pb_registerFailedAttempt uri _ b := SimplePenaltyBox.registerFailedAttempt uri b;
  pb_registerSuccessfulAttempt uri _ b := SimplePenaltyBox.registerSuccessfulAttempt uri b;
}.

(** ** The JWKS cache *)

(** What the cache asks of its collaborators, in the order it asks. *)
Inductive Event :=
| EvFetch (uri : string)
| EvWait (uri kid : string)
| EvRegisterFailedAttempt (uri kid : string)
| EvRegisterSuccessfulAttempt (uri kid : string).

#[global] Instance Event_eq_dec : EqDecision Event.
Proof. solve_decision. Defined.

(** A pending [Promise<Jwks>] is named by its index in the promise table. *)
Abbreviation PromiseId := nat (only parsing).

(** The fields of a [SimpleJwksCache]. The fetcher is the environment: a call
    to it is an [EvFetch], its answer arrives with [ActSettle]. *)
Record SimpleJwksCache (PB : Type) := mkCache {
  penaltyBox : PB;
  jwksParser : Bytes -> result Jwks;
  jwksCache : gmap string Jwks;
  fetchingJwks : gmap string PromiseId;
}.
Arguments mkCache {PB}.
Arguments penaltyBox {PB}.
Arguments jwksParser {PB}.
Arguments jwksCache {PB}.
Arguments fetchingJwks {PB}.

(** A call of [getJwks], seen from its caller. *)
Inductive JwksCall :=
| Originator (p : PromiseId)   (* suspended at [await jwksPromise] *)
| Joined (p : PromiseId)       (* [return existingFetch] *)
| Returned (r : result Jwks).  (* ran to its end *)

Inductive Call :=
| CallGetJwks (uri : string)
| CallGetJwk (uri : string) (jwt : DecomposedJwt).

Inductive Status :=
| InGetJwks (c : JwksCall)
| AwaitWait (kid : string)                    (* at [await this.penaltyBox.wait(..)] *)
| AwaitGetJwks (kid : string) (c : JwksCall)  (* at [await this.getJwks(..)] *)
| Done (r : result Jwk).

Definition Task := (Call * Status)%type.

Definition call_uri (c : Call) : string :=
  match c with CallGetJwks uri => uri | CallGetJwk uri _ => uri end.

(** The cache, the promises made by [fetch(..).then(jwksParser)] (with the
    URI each was made for and its outcome once settled), the calls made so
    far and the trace of what was asked of the collaborators. *)
Record World (PB : Type) := mkWorld {
  cache : SimpleJwksCache PB;
  promises : list (string * option (result Jwks));
  tasks : list Task;
  trace : list Event;
}.
Arguments mkWorld {PB}.
Arguments cache {PB}.
Arguments promises {PB}.
Arguments tasks {PB}.
Arguments trace {PB}.

Inductive Action (PB : Type) :=
| ActAddJwks (uri : string) (jwks : Jwks)              (* [addJwks] *)
| ActGetJwks (uri : string)                            (* a caller invokes [getJwks] *)
| ActGetJwk (uri : string) (jwt : DecomposedJwt)       (* a caller invokes [getJwk] *)
| ActSettle (p : PromiseId) (fetched : result Bytes)   (* the fetch behind [p] ends *)
| ActResume (i : nat)                                  (* the continuation of task [i] runs *)
| ActPenaltyBox (pb : PB).                             (* the penalty box changes by itself *)
Arguments ActAddJwks {PB}.
Arguments ActGetJwks {PB}.
Arguments ActGetJwk {PB}.
Arguments ActSettle {PB}.
Arguments ActResume {PB}.
Arguments ActPenaltyBox {PB}.

Section Cache.
Context {PB : Type} `{!PenaltyBox PB}.

Definition set_penaltyBox (pb : PB) (c : SimpleJwksCache PB) : SimpleJwksCache PB :=
  mkCache pb (jwksParser c) (jwksCache c) (fetchingJwks c).
Definition set_jwksCache (m : gmap string Jwks) (c : SimpleJwksCache PB) : SimpleJwksCache PB :=
  mkCache (penaltyBox c) (jwksParser c) m (fetchingJwks c).
Definition set_fetchingJwks (m : gmap string PromiseId) (c : SimpleJwksCache PB)
  : SimpleJwksCache PB :=
  mkCache (penaltyBox c) (jwksParser c) (jwksCache c) m.

Definition set_cache (c : SimpleJwksCache PB) (w : World PB) : World PB :=
  mkWorld c (promises w) (tasks w) (trace w).
Definition set_promises (ps : list (string * option (result Jwks))) (w : World PB) : World PB :=
  mkWorld (cache w) ps (tasks w) (trace w).
Definition set_tasks (ts : list Task) (w : World PB) : World PB :=
  mkWorld (cache w) (promises w) ts (trace w).
Definition emit (e : Event) (w : World PB) : World PB :=
  mkWorld (cache w) (promises w) (tasks w) (trace w ++ [e]).

(** [new SimpleJwksCache({penaltyBox, jwksParser})] and nothing called yet *)
Definition newCache (pb : PB) (parser : Bytes -> result Jwks) : SimpleJwksCache PB :=
  mkCache pb parser ∅ ∅.
Definition newWorld (pb : PB) (parser : Bytes -> result Jwks) : World PB :=
  mkWorld (newCache pb parser) [] [] [].

Definition addJwks (jwksUri : string) (jwks : Jwks) (c : SimpleJwksCache PB)
  : SimpleJwksCache PB :=
  set_jwksCache (<[jwksUri := jwks]> (jwksCache c)) c.

Definition getCachedJwk (jwksUri : string) (decomposedJwt : DecomposedJwt)
    (c : SimpleJwksCache PB) : result Jwk :=
  match headerKid decomposedJwt with
  | None => throw JwtWithoutValidKidError "JWT header does not have valid kid claim"
  | Some kid =>
      match jwksCache c !! jwksUri with
      | None =>
          throw JwksNotAvailableInCacheError
            ("JWKS for uri " +:+ jwksUri +:+ " not yet available in cache")
      | Some jwks =>
          match findJwkInJwks jwks kid with
          | None =>
              throw KidNotFoundInJwksError
                ("JWK for kid " +:+ kid +:+ " not found in the JWKS")
          | Some jwk => Ok jwk
          end
      end
  end.

(** The outcome of promise [p], once settled. *)
Definition outcome (w : World PB) (p : PromiseId) : option (result Jwks) :=
  match promises w !! p with
  | Some (_, Some r) => Some r
  | _ => None
  end.

(** [getJwks], up to [await jwksPromise] *)
Definition getJwks_call (jwksUri : string) (w : World PB) : JwksCall * World PB :=
  match fetchingJwks (cache w) !! jwksUri with
  | Some existingFetch => (Joined existingFetch, w)
  | None =>
      let jwksPromise := length (promises w) in
      let w1 := set_promises (promises w ++ [(jwksUri, None)]) (emit (EvFetch jwksUri) w) in
      (Originator jwksPromise,
       set_cache (set_fetchingJwks (<[jwksUri := jwksPromise]> (fetchingJwks (cache w1)))
                    (cache w1)) w1)
  end.

(** [getJwks], from [await jwksPromise] on, [settled] being the outcome of
    the promise: the [finally] block, then the cache update unless the
    promise was rejected. *)
Definition getJwks_resume (jwksUri : string) (settled : result Jwks) (w : World PB)
  : JwksCall * World PB :=
  let w1 := set_cache (set_fetchingJwks (delete jwksUri (fetchingJwks (cache w))) (cache w)) w in
  match settled with
  | Throw e => (Returned (Throw e), w1)
  | Ok jwks =>
      (Returned (Ok jwks),
       set_cache (set_jwksCache (<[jwksUri := jwks]> (jwksCache (cache w1))) (cache w1)) w1)
  end.

(** [getJwk], up to [await this.penaltyBox.wait(..)] *)
Definition getJwk_call (jwksUri : string) (decomposedJwt : DecomposedJwt) (w : World PB)
  : Status * World PB :=
  match headerKid decomposedJwt with
  | None => (Done (throw JwtWithoutValidKidError "JWT header does not have valid kid claim"), w)
  | Some kid =>
      let cachedJwk :=
        match jwksCache (cache w) !! jwksUri with
        | Some cachedJwks => findJwkInJwks cachedJwks kid
        | None => None
        end in
      match cachedJwk with
      | Some jwk => (Done (Ok jwk), w)
      | None =>
          let '(waited, pb) := pb_wait jwksUri kid (penaltyBox (cache w)) in
          let w1 := set_cache (set_penaltyBox pb (cache w)) (emit (EvWait jwksUri kid) w) in
          match waited with
          | Throw e => (Done (Throw e), w1)
          | Ok _ => (AwaitWait kid, w1)
          end
      end
  end.

(** [getJwk], from [await this.getJwks(..)] on, [fetched] being what
    [getJwks] gave *)
Definition getJwk_finish (jwksUri kid : string) (fetched : result Jwks) (w : World PB)
  : Status * World PB :=
  match fetched with
  | Throw e => (Done (Throw e), w)
  | Ok jwks =>
      match findJwkInJwks jwks kid with
      | None =>
          (Done (throw KidNotFoundInJwksError
                   ("JWK for kid " +:+ dquote +:+ kid +:+ dquote +:+ " not found in the JWKS")),
           set_cache (set_penaltyBox
                        (pb_registerFailedAttempt jwksUri kid (penaltyBox (cache w)))
                        (cache w))
             (emit (EvRegisterFailedAttempt jwksUri kid) w))
      | Some jwk =>
          (Done (Ok jwk),
           set_cache (set_penaltyBox
                        (pb_registerSuccessfulAttempt jwksUri kid (penaltyBox (cache w)))
                        (cache w))
             (emit (EvRegisterSuccessfulAttempt jwksUri kid) w))
      end
  end.

(** What a caller of [getJwks] has in hand: the outcome of the promise it
    joined, or what the call returned. *)
Definition jwksCallResult (w : World PB) (c : JwksCall) : option (result Jwks) :=
  match c with
  | Originator _ => None
  | Joined p => outcome w p
  | Returned r => Some r
  end.

(** The continuation of a suspended task, when it can run. *)
Definition resume (t : Task) (w : World PB) : option (Status * World PB) :=
  match t with
  | (CallGetJwks uri, InGetJwks (Originator p)) =>
      r ← outcome w p;
      let '(c, w1) := getJwks_resume uri r w in Some (InGetJwks c, w1)
  | (CallGetJwk uri _, AwaitWait kid) =>
      let '(c, w1) := getJwks_call uri w in Some (AwaitGetJwks kid c, w1)
  | (CallGetJwk uri _, AwaitGetJwks kid (Originator p)) =>
      r ← outcome w p;
      let '(c, w1) := getJwks_resume uri r w in Some (AwaitGetJwks kid c, w1)
  | (CallGetJwk uri _, AwaitGetJwks kid c) =>
      r ← jwksCallResult w c;
      Some (getJwk_finish uri kid r w)
  | _ => None
  end.

Definition exec (a : Action PB) (w : World PB) : option (World PB) :=
  match a with
  | ActAddJwks uri jwks => Some (set_cache (addJwks uri jwks (cache w)) w)
  | ActGetJwks uri =>
      let '(c, w1) := getJwks_call uri w in
      Some (set_tasks (tasks w1 ++ [(CallGetJwks uri, InGetJwks c)]) w1)
  | ActGetJwk uri jwt =>
      let '(st, w1) := getJwk_call uri jwt w in
      Some (set_tasks (tasks w1 ++ [(CallGetJwk uri jwt, st)]) w1)
  | ActSettle p fetched =>
      match promises w !! p with
      | Some (uri, None) =>
          Some (set_promises
                  (<[p := (uri, Some (bind fetched (jwksParser (cache w))))]> (promises w)) w)
      | _ => None
      end
  | ActResume i =>
      t ← tasks w !! i;
      '(st, w1) ← resume t w;
      Some (set_tasks (<[i := (t.1, st)]> (tasks w1)) w1)
  | ActPenaltyBox pb => Some (set_cache (set_penaltyBox pb (cache w)) w)
  end.

(** A schedule runs while its actions are enabled. *)
Fixpoint run (acts : list (Action PB)) (w : World PB) : option (World PB) :=
  match acts with
  | [] => Some w
  | a :: rest => w1 ← exec a w; run rest w1
  end.

(** The same, skipping the actions that are not enabled. *)
Fixpoint runEnabled (acts : list (Action PB)) (w : World PB) : World PB :=
  match acts with
  | [] => w
  | a :: rest => runEnabled rest (default w (exec a w))
  end.

Definition reachable (w : World PB) : Prop :=
  ∃ pb parser acts, run acts (newWorld pb parser) = Some w.

(** One caller of [getJwk] on its own: the call, its continuations, and the
    fetch (if one was started) ending with [fetched]. *)
Definition getJwk_alone (jwksUri : string) (decomposedJwt : DecomposedJwt)
    (fetched : result Bytes) (w : World PB) : World PB :=
  let i := length (tasks w) in
  let p := length (promises w) in
  runEnabled [ActGetJwk jwksUri decomposedJwt; ActResume i; ActSettle p fetched;
              ActResume i; ActResume i] w.

(** The calls to the fetcher for [uri] recorded in a trace. *)
Definition fetchCount (uri : string) (tr : list Event) : nat :=
  length (List.filter (fun e => bool_decide (e = EvFetch uri)) tr).

(** The promises made for [uri] and not yet settled. *)
Definition outstanding (uri : string) (w : World PB) : list PromiseId :=
  List.filter
    (fun p => match promises w !! p with
              | Some (u, None) => bool_decide (u = uri)
              | _ => false
              end)
    (seq 0 (length (promises w))).

(** The promise a suspended task hangs on. *)
Definition awaited (st : Status) : option PromiseId :=
  match st with
  | InGetJwks (Originator p) | InGetJwks (Joined p) => Some p
  | AwaitGetJwks _ (Originator p) | AwaitGetJwks _ (Joined p) => Some p
  | _ => None
  end.

End Cache.

(** ** The ALB verifier *)

Module AlbJwtVerifier.

(** [string | string[] | null], or left out *)
Inductive Expected :=
| Undefined
| Null
| OneOf (allowed : list string).

(** The verify properties the ALB checks read. *)
Record VerifyProperties := mkProps {
  albArn : Expected;
  clientId : Expected;
  includeRawJwtInErrors : bool;
}.

(** Modelled from the spec: the class hierarchy of [error.ts], which is not
    among the sources; [JwtInvalidClaimError] is the base class of the
    expired, not-before, issuer and audience errors. *)
Definition isJwtInvalidClaimError (k : ErrorKind) : bool :=
  match k with
  | JwtInvalidClaimError | JwtExpiredError | JwtNotBeforeError
  | JwtInvalidIssuerError | JwtInvalidAudienceError => true
  | _ => false
  end.

(** [assert.ts] is not among the sources.  Its
    [assertStringArrayContainsString] throws an error of the class that its
    caller names; [validateAlbJwtFields] names none (the source has
    [todo create new error type] there), and the helper then throws its
    default, [FailedAssertionError]: an assertion error, which is not a
    [JwtInvalidClaimError]. *)
Definition defaultAssertionError : ErrorKind := FailedAssertionError.

(** Modelled from the spec: [assertStringArrayContainsString] of
    [assert.ts], not among the sources; [actual] must be there and not
    falsy, be a string, and be one of the [expected] ones. *)
Definition assertStringArrayContainsString (errorConstructor : ErrorKind)
    (name : string) (actual : option Json) (expected : list string) : result unit :=
  match actual with
  | None => throw errorConstructor ("Missing " +:+ name)
  | Some j =>
      if falsy j then throw errorConstructor ("Missing " +:+ name)
      else
        match j with
        | JString s =>
            if existsb (String.eqb s) expected then Ok tt
            else throw errorConstructor (name +:+ " not allowed: " +:+ s)
        | _ => throw errorConstructor (name +:+ " is not of type string")
        end
  end.

(** [validateAlbJwtFields]; the helper is called without an error class,
    so it throws its default one, [failedAssertion]. *)
Definition validateAlbJwtFields (failedAssertion : ErrorKind) (hdr : JsonObject)
    (options : VerifyProperties) : result unit :=
  match albArn options with
  | Null => Ok tt
  | Undefined =>
      throw ParameterValidationError "albArn must be provided or set to null explicitly"
  | OneOf arns =>
      assertStringArrayContainsString failedAssertion "ALB ARN" (obj_get hdr "signer") arns
  end ;;;
  match clientId options with
  | Null => Ok tt
  | Undefined =>
      throw ParameterValidationError "clientId must be provided or set to null explicitly"
  | OneOf ids =>
      assertStringArrayContainsString failedAssertion "Client ID" (obj_get hdr "client") ids
  end.

(** [err.withRawJwt(decomposedJwt)] *)
Definition withRawJwt (err : Error) (decomposedJwt : DecomposedJwt) : Error :=
  mkError (kind err) (message err)
          (Some (mkJwt (header decomposedJwt) (payload decomposedJwt))).

(** The [catch] block of [verify] and [verifySync]. *)
Definition rethrow (properties : VerifyProperties) (decomposedJwt : DecomposedJwt)
    (err : Error) : Error :=
  if includeRawJwtInErrors properties && isJwtInvalidClaimError (kind err)
  then withRawJwt err decomposedJwt
  else err.

(** What the base verifier relies on: the key the cache resolved ([getJwk]
    for [verify], [getCachedJwk] for [verifySync]), the signature primitive
    and the claim validator. *)
Record Collaborators := mkCollaborators {
  resolvedJwk : result Jwk;
  signatureValid : Jwk -> bool;
  claimsValid : Jwk -> result unit;
}.

(** Modelled from the spec: [verifyDecomposedJwt] and
    [verifyDecomposedJwtSync] of [JwtVerifierBase] ([jwt-verifier.ts], not
    among the sources), steps 4 to 7 of the verifier: obtain the JWK, verify
    the signature, run the claim validator, and attach the raw JWT to an
    invalid-claim error when asked to. *)
Definition verifyDecomposedJwt (base : Collaborators) (decomposedJwt : DecomposedJwt)
    (properties : VerifyProperties) : result unit :=
  jwk <- resolvedJwk base ;;
  (if signatureValid base jwk then Ok tt
   else throw JwtInvalidSignatureError "Invalid signature") ;;;
  match claimsValid base jwk with
  | Ok _ => Ok tt
  | Throw err => Throw (rethrow properties decomposedJwt err)
  end.

(** [verify], after [getVerifyParameters] *)
Definition verify (failedAssertion : ErrorKind) (base : Collaborators)
    (decomposedJwt : DecomposedJwt) (verifyProperties : VerifyProperties)
  : result JsonObject :=
  verifyDecomposedJwt base decomposedJwt verifyProperties ;;;
  match validateAlbJwtFields failedAssertion (header decomposedJwt) verifyProperties with
  | Throw err => Throw (rethrow verifyProperties decomposedJwt err)
  | Ok _ => Ok (payload decomposedJwt)
  end.

(** [verifySync] has the body of [verify], over
    [verifyDecomposedJwtSync]. *)
Definition verifySync (failedAssertion : ErrorKind) (base : Collaborators)
    (decomposedJwt : DecomposedJwt) (verifyProperties : VerifyProperties)
  : result JsonObject :=
  verifyDecomposedJwt base decomposedJwt verifyProperties ;;;
  match validateAlbJwtFields failedAssertion (header decomposedJwt) verifyProperties with
  | Throw err => Throw (rethrow verifyProperties decomposedJwt err)
  | Ok _ => Ok (payload decomposedJwt)
  end.

(** The signature step failed: a key was resolved and the primitive
    rejected the signature. *)
Definition signatureFails (base : Collaborators) : Prop :=
  ∃ jwk, resolvedJwk base = Ok jwk ∧ signatureValid base jwk = false.

End AlbJwtVerifier.

(** * Vocabulary of the properties, and example inputs *)

(** What the validator promises of a JWK, in the words of the data model:
    [kty] is a string, and so is each optional field that is present. *)
Definition wellTypedJwk (fields : JsonObject) : Prop :=
  typeof_string (obj_get fields "kty") = true ∧
  ∀ name, name ∈ optionalJwkFieldNames →
          obj_has fields name = true → typeof_string (obj_get fields name) = true.

(** [kty] is one of the three key families. *)
Definition ktyInFamilies (fields : JsonObject) : Prop :=
  ∃ kty, obj_get fields "kty" = Some (JString kty) ∧ kty ∈ ["RSA"; "EC"; "OKP"].

(** A key of a family the library has no verifier for. *)
Definition octJwk : Json := JObject [("kty", JString "oct"); ("k", JString "c2VjcmV0")].

(** An RSA signature key, [k1]. *)
Definition rsaJwk : JsonObject :=
  [("kty", JString "RSA"); ("kid", JString "k1"); ("use", JString "sig");
   ("n", JString "sXch"); ("e", JString "AQAB")].

(** A token without a kid, a token for key [k2], and a cache that holds the
    keys [k1] and [k2], twice [k2]. *)
Definition jwtWithoutKid : DecomposedJwt :=
  mkJwt [("alg", JString "RS256")] [("iss", JString "https://issuer.example")].
Definition jwtK2 : DecomposedJwt :=
  mkJwt [("alg", JString "RS256"); ("kid", JString "k2")]
        [("iss", JString "https://issuer.example")].
Definition k2First : Jwk := [("kty", JString "RSA"); ("kid", JString "k2"); ("n", JString "first")].
Definition k2Second : Jwk := [("kty", JString "RSA"); ("kid", JString "k2"); ("n", JString "second")].
Definition noParser : Bytes → result Jwks := fun _ => throw OtherError "no parser".
Definition emptyCache : SimpleJwksCache SimplePenaltyBox.t :=
  newCache (SimplePenaltyBox.new None 0) noParser.
Definition cacheK1K2 : SimpleJwksCache SimplePenaltyBox.t :=
  addJwks "https://idp/jwks" (mkJwks [rsaJwk; k2First; k2Second]) emptyCache.

(** The JWK the cache holds for a kid, as [getJwk] looks for it. *)
Definition cachedJwk {PB : Type} (uri kid : string) (c : SimpleJwksCache PB) : option Jwk :=
  match jwksCache c !! uri with
  | Some cachedJwks => findJwkInJwks cachedJwks kid
  | None => None
  end.

(** The task that a call made in [w] becomes. *)
Definition newTask {PB : Type} (w w' : World PB) : option Task :=
  tasks w' !! length (tasks w).

(** A key set served for the URI, and a parser that reads it whatever the
    bytes. *)
Definition servedJwks : Json :=
  JObject [("keys", JArray [JObject rsaJwk; JObject k2First])].
Definition servedParser : Bytes → result Jwks := parseJwks (fun _ => inr servedJwks).
Definition freshWorld : World SimplePenaltyBox.t :=
  newWorld (SimplePenaltyBox.new None 0) servedParser.

Open Scope nat_scope.

(** The promise a task made and whose [finally] block it has yet to run. *)
Definition originator (st : Status) : option nat :=
  match st with
  | InGetJwks (Originator p) | AwaitGetJwks _ (Originator p) => Some p
  | _ => None
  end.

(** A suspended originator, once its [getJwks] has returned [r]. *)
Definition returned (st : Status) (r : result Jwks) : Status :=
  match st with
  | InGetJwks _ => InGetJwks (Returned r)
  | AwaitGetJwks kid _ => AwaitGetJwks kid (Returned r)
  | _ => st
  end.

(** What [getJwk] answers once [getJwks] gave [fetched]. *)
Definition locate (kid : string) (fetched : result Jwks) : result Jwk :=
  match fetched with
  | Throw e => Throw e
  | Ok jwks =>
      match findJwkInJwks jwks kid with
      | None =>
          throw KidNotFoundInJwksError
            ("JWK for kid " +:+ dquote +:+ kid +:+ dquote +:+ " not found in the JWKS")
      | Some jwk => Ok jwk
      end
  end.

(** A status fits its call: [getJwks] tasks are in [getJwks]; a [getJwk]
    task carries the kid of its JWT, and a JWK it returned has that kid. *)
Definition taskOk (t : Task) : Prop :=
  match t with
  | (CallGetJwks _, InGetJwks _) => True
  | (CallGetJwk _ jwt, AwaitWait kid) => headerKid jwt = Some kid
  | (CallGetJwk _ jwt, AwaitGetJwks kid _) => headerKid jwt = Some kid
  | (CallGetJwk _ jwt, Done (Ok jwk)) =>
      ∃ kid, headerKid jwt = Some kid ∧ obj_get jwk "kid" = Some (JString kid)
  | (CallGetJwk _ jwt, Done (Throw _)) => True
  | _ => False
  end.

(** The event is a call to the fetcher. *)
Definition isFetch (e : Event) : bool :=
  match e with EvFetch _ => true | _ => false end.

(** The part of the world the single-flight argument is about. *)
Record Core := mkCore {
  c_promises : list (string * option (result Jwks));
  c_fetching : gmap string nat;
  c_tasks : list Task;
  c_trace : list Event;
}.

Definition core {PB : Type} (w : World PB) : Core :=
  mkCore (promises w) (fetchingJwks (cache w)) (tasks w) (trace w).

(** What one action can do to it. *)
Inductive coreStep : Core → Core → Prop :=
| cs_idle ps fj ts tr :
    coreStep (mkCore ps fj ts tr) (mkCore ps fj ts tr)
| cs_call ps fj ts tr call st evs :
    originator st = None →
    (∀ p, awaited st = Some p → fj !! call_uri call = Some p) →
    taskOk (call, st) →
    forallb (λ e, negb (isFetch e)) evs = true →
    coreStep (mkCore ps fj ts tr) (mkCore ps fj (ts ++ [(call, st)]) (tr ++ evs))
| cs_call_fetch ps fj ts tr uri :
    fj !! uri = None →
    coreStep (mkCore ps fj ts tr)
      (mkCore (ps ++ [(uri, None)]) (<[uri := length ps]> fj)
              (ts ++ [(CallGetJwks uri, InGetJwks (Originator (length ps)))])
              (tr ++ [EvFetch uri]))
| cs_settle ps fj ts tr p uri r :
    ps !! p = Some (uri, None) →
    coreStep (mkCore ps fj ts tr) (mkCore (<[p := (uri, Some r)]> ps) fj ts tr)
| cs_resume_join ps fj ts tr i call kid p :
    ts !! i = Some (call, AwaitWait kid) →
    fj !! call_uri call = Some p →
    coreStep (mkCore ps fj ts tr)
      (mkCore ps fj (<[i := (call, AwaitGetJwks kid (Joined p))]> ts) tr)
| cs_resume_fetch ps fj ts tr i call kid :
    ts !! i = Some (call, AwaitWait kid) →
    fj !! call_uri call = None →
    coreStep (mkCore ps fj ts tr)
      (mkCore (ps ++ [(call_uri call, None)]) (<[call_uri call := length ps]> fj)
              (<[i := (call, AwaitGetJwks kid (Originator (length ps)))]> ts)
              (tr ++ [EvFetch (call_uri call)]))
| cs_resume_originator ps fj ts tr i call st p uri r :
    ts !! i = Some (call, st) →
    originator st = Some p →
    ps !! p = Some (uri, Some r) →
    coreStep (mkCore ps fj ts tr)
      (mkCore ps (delete (call_uri call) fj) (<[i := (call, returned st r)]> ts) tr)
| cs_resume_finish ps fj ts tr i uri jwt kid c r evs :
    ts !! i = Some (CallGetJwk uri jwt, AwaitGetJwks kid c) →
    (c = Returned r ∨ ∃ p u, c = Joined p ∧ ps !! p = Some (u, Some r)) →
    forallb (λ e, negb (isFetch e)) evs = true →
    coreStep (mkCore ps fj ts tr)
      (mkCore ps fj (<[i := (CallGetJwk uri jwt, Done (locate kid r))]> ts) (tr ++ evs)).

(** What holds in every state the cache can reach: a promise not yet settled
    is the one [fetchingJwks] holds for its URI; [fetchingJwks] maps a URI to
    a promise made for it; a caller that has yet to run its [finally] block
    finds its own promise there, and is alone with that promise; every task
    fits its call. *)
Record Inv (k : Core) : Prop := mkInv {
  inv_pending : ∀ p uri,
    c_promises k !! p = Some (uri, None) → c_fetching k !! uri = Some p;
  inv_fetching : ∀ uri p,
    c_fetching k !! uri = Some p → ∃ st, c_promises k !! p = Some (uri, st);
  inv_originator : ∀ i call st p,
    c_tasks k !! i = Some (call, st) → originator st = Some p →
    c_fetching k !! call_uri call = Some p;
  inv_unique : ∀ i j ci si cj sj p,
    c_tasks k !! i = Some (ci, si) → c_tasks k !! j = Some (cj, sj) →
    originator si = Some p → originator sj = Some p → i = j;
  inv_tasks : ∀ i t, c_tasks k !! i = Some t → taskOk t;
}.

(** Action [a] ends a fetch for [uri]. *)
Definition completes {PB : Type} (uri : string) (a : Action PB) (w : World PB) : bool :=
  match a with
  | ActSettle p _ =>
      match promises w !! p with
      | Some (u, None) => bool_decide (u = uri)
      | _ => false
      end
  | _ => false
  end.

(** A schedule runs, as long as no action in it ends a fetch for [uri]. *)
Fixpoint runBeforeCompletion {PB : Type} `{!PenaltyBox PB} (uri : string)
    (acts : list (Action PB)) (w : World PB) : option (World PB) :=
  match acts with
  | [] => Some w
  | a :: rest =>
      if completes uri a w then None
      else w1 ← exec a w; runBeforeCompletion uri rest w1
  end.

(** What a task got from the promise it hung on, [r] being the outcome of
    that promise. *)
Definition delivered (t : Task) (r : result Jwks) : Prop :=
  match t with
  | (CallGetJwks _, InGetJwks (Returned r')) => r' = r
  | (CallGetJwk _ _, AwaitGetJwks _ (Returned r')) => r' = r
  | (CallGetJwk _ jwt, Done r') => ∃ kid, headerKid jwt = Some kid ∧ r' = locate kid r
  | _ => False
  end.

(** The caller of a task has the key set or the error [r] in hand: its
    [getJwks] returned [r], or returned a promise whose outcome is [r]; its
    [getJwk] answered with the kid looked up in [r]. *)
Definition received {PB : Type} `{!PenaltyBox PB} (w : World PB) (t : Task)
    (r : result Jwks) : Prop :=
  match t with
  | (CallGetJwks _, InGetJwks c) => jwksCallResult w c = Some r
  | (CallGetJwk _ jwt, Done r') => ∃ kid, headerKid jwt = Some kid ∧ r' = locate kid r
  | _ => False
  end.

(** Task [i] hangs on promise [p], or has been given its outcome. *)
Definition hangsOn (p : nat) (i : nat) (call : Call) (k : Core) : Prop :=
  ∃ st, c_tasks k !! i = Some (call, st) ∧
        (awaited st = Some p ∨
         ∃ u r, c_promises k !! p = Some (u, Some r) ∧ delivered (call, st) r).

(** Since a state with [t0] tasks, [c0] fetches of [uri] and none in flight,
    and as long as no fetch of [uri] has ended: the promise in flight for
    [uri], if any, is pending; every caller for [uri] that arrived since and
    hangs on a promise hangs on that one; and the fetcher was called once if
    there is one in flight, not at all otherwise. *)
Record Window (uri : string) (t0 c0 : nat) (k : Core) : Prop := mkWindow {
  win_pending : ∀ p, c_fetching k !! uri = Some p → c_promises k !! p = Some (uri, None);
  win_callers : ∀ i call st p,
    t0 ≤ i → c_tasks k !! i = Some (call, st) → call_uri call = uri →
    awaited st = Some p → c_fetching k !! uri = Some p;
  win_count :
    fetchCount uri (c_trace k) =
    c0 + match c_fetching k !! uri with Some _ => 1 | None => 0 end;
  win_length : t0 ≤ length (c_tasks k);
}.

(** No promise for [uri] is settled between [k] and [k']. *)
Definition noCompletion (uri : string) (k k' : Core) : Prop :=
  ∀ p, c_promises k !! p = Some (uri, None) → c_promises k' !! p = Some (uri, None).

Close Scope nat_scope.

(** A token and a key whose kid is the empty string. *)
Definition jwtEmptyKid : DecomposedJwt :=
  mkJwt [("alg", JString "RS256"); ("kid", JString EmptyString)] [].
Definition emptyKidJwk : Jwk := [("kty", JString "RSA"); ("kid", JString EmptyString)].
Definition cacheEmptyKid : SimpleJwksCache SimplePenaltyBox.t :=
  addJwks "https://idp/jwks" (mkJwks [emptyKidJwk]) emptyCache.

(** A cache whose penalty box is in its back-off period for the URI. *)
Definition backedOff : World SimplePenaltyBox.t :=
  newWorld (SimplePenaltyBox.registerFailedAttempt "https://idp/jwks"
              (SimplePenaltyBox.new None 0)) servedParser.

(** Two callers of [getJwks] for the same URI, none served yet. *)
Definition twoCallers : World SimplePenaltyBox.t :=
  runEnabled [ActGetJwks "https://idp/jwks"; ActGetJwks "https://idp/jwks"] freshWorld.

(** A caller of [getJwks], a caller of [getJwk] that got past the penalty
    box, and another caller of [getJwks]. *)
Definition threeCallers : World SimplePenaltyBox.t :=
  runEnabled [ActGetJwks "https://idp/jwks"; ActGetJwk "https://idp/jwks" jwtK2;
              ActResume 1; ActGetJwks "https://idp/jwks"] freshWorld.

Definition connectionReset : Error := mkError OtherError "read ECONNRESET" None.

(** Scenario S5: a token signed by another load balancer than the one the
    verifier expects, with a good signature. *)
Definition albToken : DecomposedJwt :=
  mkJwt [("alg", JString "ES256"); ("kid", JString "alb1");
         ("signer", JString "arn:aws:elasticloadbalancing:eu-west-1:123:loadbalancer/app/other");
         ("client", JString "client-xyz")]
        [("iss", JString "https://issuer.example")].
Definition albProps : AlbJwtVerifier.VerifyProperties :=
  AlbJwtVerifier.mkProps
    (AlbJwtVerifier.OneOf ["arn:aws:elasticloadbalancing:eu-west-1:123:loadbalancer/app/alb1"])
    (AlbJwtVerifier.OneOf ["client-xyz"]) true.
Definition goodSignature : AlbJwtVerifier.Collaborators :=
  AlbJwtVerifier.mkCollaborators (Ok [("kty", JString "EC"); ("kid", JString "alb1")])
    (fun _ => true) (fun _ => Ok tt).
Definition badSignature : AlbJwtVerifier.Collaborators :=
  AlbJwtVerifier.mkCollaborators (Ok [("kty", JString "EC"); ("kid", JString "alb1")])
    (fun _ => false) (fun _ => Ok tt).

(** * More of [jwk.ts] *)

(** [!!v] for the result of a property read: [undefined] is falsy. *)
Definition truthy (v : option Json) : bool :=
  match v with Some j => negb (falsy j) | None => false end.

(** [o[field] === s], for a string literal [s] *)
Definition propertyIs (o : JsonObject) (field s : string) : bool :=
  match obj_get o field with
  | Some (JString v) => String.eqb v s
  | _ => false
  end.

(** The two helpers of [assert.ts] that [jwk.ts] calls with an error class;
    [assert.ts] is not among the sources, so they are taken as they come.
    Arguments as in the source: name, actual, expected, error class. *)
Record Assertions := mkAssertions {
  assertStringEquals : string -> option Json -> string -> ErrorKind -> result unit;
  assertStringArrayContainsString :
    string -> option Json -> list string -> ErrorKind -> result unit;
}.

Definition assertIsEdDSASignatureJwk (a : Assertions) (jwk : Jwk) : result unit :=
  (if truthy (obj_get jwk "use")
   then assertStringEquals a "JWK use" (obj_get jwk "use") "sig" JwkInvalidUseError
   else Ok tt) ;;;
  (assertStringEquals a "JWK kty" (obj_get jwk "kty") "OKP" JwkInvalidKtyError ;;;
  ((if negb (truthy (obj_get jwk "crv"))
    then throw JwkValidationError "Missing Curve (crv)" else Ok tt) ;;;
   (if negb (truthy (obj_get jwk "x"))
    then throw JwkValidationError "Missing X Coordinate (x)" else Ok tt))).

Definition assertIsEsSignatureJwk (a : Assertions) (jwk : Jwk) : result unit :=
  (if truthy (obj_get jwk "use")
   then assertStringEquals a "JWK use" (obj_get jwk "use") "sig" JwkInvalidUseError
   else Ok tt) ;;;
  (assertStringEquals a "JWK kty" (obj_get jwk "kty") "EC" JwkInvalidKtyError ;;;
  ((if negb (truthy (obj_get jwk "crv"))
    then throw JwkValidationError "Missing Curve (crv)" else Ok tt) ;;;
  ((if negb (truthy (obj_get jwk "x"))
    then throw JwkValidationError "Missing X Coordinate (x)" else Ok tt) ;;;
   (if negb (truthy (obj_get jwk "y"))
    then throw JwkValidationError "Missing Y Coordinate (y)" else Ok tt)))).

Definition assertIsRsaSignatureJwk (a : Assertions) (jwk : Jwk) : result unit :=
  (if truthy (obj_get jwk "use")
   then assertStringEquals a "JWK use" (obj_get jwk "use") "sig" JwkInvalidUseError
   else Ok tt) ;;;
  (assertStringEquals a "JWK kty" (obj_get jwk "kty") "RSA" JwkInvalidKtyError ;;;
  ((if negb (truthy (obj_get jwk "n"))
    then throw JwkValidationError "Missing modulus (n)" else Ok tt) ;;;
   (if negb (truthy (obj_get jwk "e"))
    then throw JwkValidationError "Missing exponent (e)" else Ok tt))).

Definition assertIsSignatureJwk (a : Assertions) (jwk : Jwk) : result unit :=
  assertStringArrayContainsString a "JWK kty" (obj_get jwk "kty") ["EC"; "RSA"; "OKP"]
    JwkInvalidKtyError ;;;
  (if propertyIs jwk "kty" "EC" then assertIsEsSignatureJwk a jwk
   else if propertyIs jwk "kty" "RSA" then assertIsRsaSignatureJwk a jwk
   else if propertyIs jwk "kty" "OKP" then assertIsEdDSASignatureJwk a jwk
   else Ok tt).

(** [fetchJwks]: [fetch(jwksUri).then(parseJwks)], [fetched] being what the
    fetch gives. *)
Definition fetchJwks (decode : Bytes -> string + Json) (fetched : result Bytes)
  : result Jwks :=
  bind fetched (parseJwks decode).

(** [findJwkInJwks(jwks, kid)] for the [kid] of a header, whatever its JSON
    type, on a key set that [parseJwks] returned: the kids of such a set are
    strings, and a string is [===] to the same string only. *)
Definition findJwkByHeaderKid (jwks : Jwks) (kid : Json) : option Jwk :=
  match kid with
  | JString s => findJwkInJwks jwks s
  | _ => None
  end.

(** [fetchJwk]. [render] is the conversion to string of a template literal,
    used for a kid that is not a string. *)
Definition fetchJwk (decode : Bytes -> string + Json) (render : Json -> string)
    (fetched : result Bytes) (decomposedJwt : DecomposedJwt) : result Jwk :=
  match obj_get (header decomposedJwt) "kid" with
  | Some kid =>
      if falsy kid
      then throw JwtWithoutValidKidError "JWT header does not have valid kid claim"
      else
        jwks <- fetchJwks decode fetched ;;
        match findJwkByHeaderKid jwks kid with
        | None =>
            throw KidNotFoundInJwksError
              ("JWK for kid " +:+ dquote +:+
               match kid with JString s => s | _ => render kid end +:+
               dquote +:+ " not found in the JWKS")
        | Some jwk => Ok jwk
        end
  | None => throw JwtWithoutValidKidError "JWT header does not have valid kid claim"
  end.

(** One caller of [getJwks] on its own: the call, the fetch it started (if
    it did start one) ending with [fetched], and its continuation. *)
Definition getJwks_alone {PB : Type} `{!PenaltyBox PB} (jwksUri : string)
    (fetched : result Bytes) (w : World PB) : World PB :=
  runEnabled [ActGetJwks jwksUri; ActSettle (length (promises w)) fetched;
              ActResume (length (tasks w))] w.

(** What [jwk.ts] relies on when it calls the helpers of [assert.ts] with
    non-empty expected strings: the helper returns if [actual] is the
    expected string (one of the expected strings), and throws an error of
    the class it was given otherwise. *)
Definition assertionsSound (a : Assertions) : Prop :=
  (∀ name actual expected ctor,
      expected ≠ EmptyString →
      match assertStringEquals a name actual expected ctor with
      | Ok _ => actual = Some (JString expected)
      | Throw e => kind e = ctor ∧ actual ≠ Some (JString expected)
      end) ∧
  (∀ name actual expected ctor,
      Forall (λ s, s ≠ EmptyString) expected →
      match assertStringArrayContainsString a name actual expected ctor with
      | Ok _ => ∃ s, actual = Some (JString s) ∧ In s expected
      | Throw e => kind e = ctor ∧ ¬ ∃ s, actual = Some (JString s) ∧ In s expected
      end).

(** Modelled from the spec: [assertStringEquals] of [assert.ts], not among
    the sources; [actual] must be there and not falsy, be a string, and be
    the [expected] one. *)
Definition specAssertStringEquals (name : string) (actual : option Json)
    (expected : string) (errorConstructor : ErrorKind) : result unit :=
  match actual with
  | None => throw errorConstructor ("Missing " +:+ name)
  | Some j =>
      if falsy j then throw errorConstructor ("Missing " +:+ name)
      else
        match j with
        | JString s =>
            if String.eqb s expected then Ok tt
            else throw errorConstructor (name +:+ " not allowed: " +:+ s)
        | _ => throw errorConstructor (name +:+ " is not of type string")
        end
  end.

Definition specAssertions : Assertions :=
  mkAssertions specAssertStringEquals
    (fun name actual expected ctor =>
       AlbJwtVerifier.assertStringArrayContainsString ctor name actual expected).

(** [use] is left out (or empty), or is ["sig"]. *)
Definition useIsSig (jwk : Jwk) : Prop :=
  truthy (obj_get jwk "use") = false ∨ obj_get jwk "use" = Some (JString "sig").

(** The fields the three family checks ask for. *)
Definition signatureJwkShape (jwk : Jwk) : Prop :=
  useIsSig jwk ∧
  ((obj_get jwk "kty" = Some (JString "EC") ∧ truthy (obj_get jwk "crv") = true ∧
    truthy (obj_get jwk "x") = true ∧ truthy (obj_get jwk "y") = true) ∨
   (obj_get jwk "kty" = Some (JString "RSA") ∧ truthy (obj_get jwk "n") = true ∧
    truthy (obj_get jwk "e") = true) ∨
   (obj_get jwk "kty" = Some (JString "OKP") ∧ truthy (obj_get jwk "crv") = true ∧
    truthy (obj_get jwk "x") = true)).

(** An EC key on a curve the library has no verifier for, and an RSA key
    meant for encryption. *)
Definition secp256k1Jwk : Jwk :=
  [("kty", JString "EC"); ("crv", JString "secp256k1");
   ("x", JString "eA"); ("y", JString "eQ")].
Definition encryptionJwk : Jwk :=
  [("kty", JString "RSA"); ("use", JString "enc");
   ("n", JString "sXch"); ("e", JString "AQAB")].

(** The delays that the timer of the runtime honours: one of less than a
    millisecond or of more than 2^31 - 1 milliseconds is replaced by one
    millisecond.  [SimplePenaltyBox.setTimeoutUnref] is the timer for the
    delays in this range. *)
Definition timerDelayHonoured (ms : Z) : Prop := 1 ≤ ms ≤ 2147483647.

(** What happens to a penalty box: an attempt is registered, or time
    passes. *)
Inductive BoxOp :=
| OpFailedAttempt (uri : string)
| OpSuccessfulAttempt (uri : string)
| OpAdvance (ms : N).

Definition applyOp (b : SimplePenaltyBox.t) (op : BoxOp) : SimplePenaltyBox.t :=
  match op with
  | OpFailedAttempt uri => SimplePenaltyBox.registerFailedAttempt uri b
  | OpSuccessfulAttempt uri => SimplePenaltyBox.registerSuccessfulAttempt uri b
  | OpAdvance ms => SimplePenaltyBox.advance ms b
  end.

Definition runOps (ops : list BoxOp) (b : SimplePenaltyBox.t) : SimplePenaltyBox.t :=
  foldl applyOp b ops.

(** The states of a [SimplePenaltyBox] since it was made. *)
Definition boxReachable (b : SimplePenaltyBox.t) : Prop :=
  ∃ props now ops, b = runOps ops (SimplePenaltyBox.new props now).

(** What holds of them: the handles in the queue are distinct and older than
    the next one; the handle stored for a waiting URI is that of a timeout
    in the queue, for that URI; every timeout in the queue is due within
    [waitSeconds] from now. *)
Record BoxInv (b : SimplePenaltyBox.t) : Prop := mkBoxInv {
  box_handles : ∀ tm, In tm (SimplePenaltyBox.timers b) →
    (SimplePenaltyBox.timer_id tm < SimplePenaltyBox.nextTimer b)%positive;
  box_distinct : List.NoDup (map SimplePenaltyBox.timer_id (SimplePenaltyBox.timers b));
  box_stored : ∀ uri i, SimplePenaltyBox.waitingUris b !! uri = Some i →
    ∃ tm, In tm (SimplePenaltyBox.timers b) ∧
          SimplePenaltyBox.timer_id tm = i ∧ SimplePenaltyBox.timer_uri tm = uri ∧
          SimplePenaltyBox.timer_due tm ≤
            SimplePenaltyBox.clock b + SimplePenaltyBox.waitSeconds b * 1000;
  box_due : ∀ tm, In tm (SimplePenaltyBox.timers b) →
    SimplePenaltyBox.timer_due tm ≤
      SimplePenaltyBox.clock b + SimplePenaltyBox.waitSeconds b * 1000;
}.

(** An action brings only key sets with property [Good] into play: the set
    it adds, or the set that the parser makes of what was fetched. *)
Definition goodAction {PB : Type} (Good : Jwks → Prop) (parser : Bytes → result Jwks)
    (a : Action PB) : Prop :=
  match a with
  | ActAddJwks _ jwks => Good jwks
  | ActSettle _ fetched => ∀ jwks, bind fetched parser = Ok jwks → Good jwks
  | _ => True
  end.

(** The key set a status holds, if it holds one. *)
Definition heldJwks (st : Status) : option Jwks :=
  match st with
  | InGetJwks (Returned (Ok jwks)) | AwaitGetJwks _ (Returned (Ok jwks)) => Some jwks
  | _ => None
  end.

(** The key set a status holds has property [Good], and the JWK it returned
    is a key of a set with that property. *)
Definition goodStatus (Good : Jwks → Prop) (st : Status) : Prop :=
  (∀ jwks, heldJwks st = Some jwks → Good jwks) ∧
  (∀ jwk, st = Done (Ok jwk) → ∃ jwks, Good jwks ∧ In jwk (keys jwks)).

(** Every key set in the world has property [Good], and every JWK that a
    call returned is a key of such a set. *)
Record allGood {PB : Type} (Good : Jwks → Prop) (w : World PB) : Prop := mkAllGood {
  good_cached : ∀ uri jwks, jwksCache (cache w) !! uri = Some jwks → Good jwks;
  good_settled : ∀ p uri jwks, promises w !! p = Some (uri, Some (Ok jwks)) → Good jwks;
  good_tasks : ∀ i call st, tasks w !! i = Some (call, st) → goodStatus Good st;
}.

(** A schedule brings the key set [jwks] in: it adds it, or it ends a fetch
    with bytes that the parser reads as [jwks]. *)
Definition broughtIn {PB : Type} (parser : Bytes → result Jwks) (acts : list (Action PB))
    (jwks : Jwks) : Prop :=
  Exists (λ a, match a with
               | ActAddJwks _ added => added = jwks
               | ActSettle _ fetched => bind fetched parser = Ok jwks
               | _ => False
               end) acts.

(** Every entry of [fetchingJwks] has the caller that made the promise and
    has yet to run its [finally] block. *)
Definition owned (k : Core) : Prop :=
  ∀ uri p, c_fetching k !! uri = Some p →
    ∃ i call st, c_tasks k !! i = Some (call, st) ∧ originator st = Some p ∧
                 call_uri call = uri.

(** * Properties *)

(** ** The JWK/JWKS validator *)

Section Validator.

Lemma checkMandatoryFields_ok fields names :
  checkMandatoryFields fields names = Ok tt ↔
  ∀ name, name ∈ names → typeof_string (obj_get fields name) = true.
Proof.
  induction names as [|n names IH]; simpl.
  - split; [intros _ name Hin; inversion Hin | done].
  - destruct (typeof_string (obj_get fields n)) eqn:Hn; simpl.
    + rewrite IH. split.
      * intros H name Hin. apply elem_of_cons in Hin as [->|Hin]; auto.
      * intros H name Hin. apply H. by apply elem_of_cons; right.
    + split; [done|]. intros H. specialize (H n (proj2 (elem_of_cons _ _ _) (or_introl eq_refl))). congruence.
Qed.

Lemma checkOptionalFields_ok fields names :
  checkOptionalFields fields names = Ok tt ↔
  ∀ name, name ∈ names →
          obj_has fields name = true → typeof_string (obj_get fields name) = true.
Proof.
  induction names as [|n names IH]; simpl.
  - split; [intros _ name Hin; inversion Hin | done].
  - destruct (obj_has fields n) eqn:Hh, (typeof_string (obj_get fields n)) eqn:Hn; simpl;
      try (rewrite IH; split;
           [ intros H name Hin; apply elem_of_cons in Hin as [->|Hin]; [congruence | auto]
           | intros H name Hin; apply H; by apply elem_of_cons; right ]).
    split; [done|]. intros H.
    specialize (H n (proj2 (elem_of_cons _ _ _) (or_introl eq_refl)) Hh). congruence.
Qed.

Lemma checkMandatoryFields_kind fields names e :
  checkMandatoryFields fields names = Throw e → kind e = JwkValidationError.
Proof.
  induction names as [|n names IH]; simpl; [done|].
  destruct (negb _); [|done]. by intros [= <-].
Qed.

Lemma checkOptionalFields_kind fields names e :
  checkOptionalFields fields names = Throw e → kind e = JwkValidationError.
Proof.
  induction names as [|n names IH]; simpl; [done|].
  destruct (_ && _); [|done]. by intros [= <-].
Qed.

Lemma unit_result_cases (r : result unit) : r = Ok tt ∨ ∃ e, r = Throw e.
Proof. destruct r as [[]|e]; eauto. Qed.

Lemma assertIsJwk_Ok j jwk :
  assertIsJwk j = Ok jwk ↔ j = JObject jwk ∧ wellTypedJwk jwk.
Proof.
  unfold assertIsJwk, wellTypedJwk.
  destruct j as [| b | m ex | s | items | fields];
    try (simpl; split; [by repeat case_match | by intros [? _]]).
  cbn [falsy isJsonObject negb properties].
  destruct (unit_result_cases (checkMandatoryFields fields mandatoryJwkFieldNames))
    as [Hm | [e Hm]]; rewrite Hm; cbn [bind].
  - destruct (unit_result_cases (checkOptionalFields fields optionalJwkFieldNames))
      as [Ho | [e Ho]]; rewrite Ho; cbn [bind].
    + apply checkMandatoryFields_ok with (name := "kty") in Hm;
        [| apply elem_of_cons; by left].
      rewrite checkOptionalFields_ok in Ho.
      split; [intros [= <-]; auto | intros [[= <-] _]; done].
    + split; [done|]. intros [[= <-] [_ H]].
      apply checkOptionalFields_ok in H. congruence.
  - split; [done|]. intros [[= <-] [H _]].
    assert (checkMandatoryFields fields mandatoryJwkFieldNames = Ok tt); [|congruence].
    apply checkMandatoryFields_ok. intros name Hin.
    apply list_elem_of_singleton in Hin as ->. done.
Qed.

Lemma assertIsJwk_kind j e :
  assertIsJwk j = Throw e → kind e = JwkValidationError.
Proof.
  unfold assertIsJwk.
  destruct (falsy j); [by intros [= <-]|].
  destruct (negb (isJsonObject j)); [by intros [= <-]|]. cbv zeta.
  destruct (checkMandatoryFields _ _) as [[]|e1] eqn:Hm; cbn [bind].
  - destruct (checkOptionalFields _ _) as [[]|e2] eqn:Ho; cbn [bind]; [done|].
    intros [= <-]. eapply checkOptionalFields_kind, Ho.
  - intros [= <-]. eapply checkMandatoryFields_kind, Hm.
Qed.

Lemma fmap_JObject_inj (l1 l2 : list Jwk) :
  JObject <$> l1 = JObject <$> l2 → l1 = l2.
Proof.
  revert l2. induction l1 as [|a l1 IH]; intros [|b l2]; simpl; try done.
  intros [= <- Heq]. f_equal. auto.
Qed.

Lemma assertAllJwk_Ok items jwks :
  assertAllJwk items = Ok jwks ↔ items = JObject <$> jwks ∧ Forall wellTypedJwk jwks.
Proof.
  revert jwks. induction items as [|j items IH]; intros jwks; simpl.
  - split.
    + intros [= <-]. by split.
    + intros [H _]. by destruct jwks.
  - destruct (assertIsJwk j) as [jwk|e] eqn:Hj; cbn [bind].
    + apply assertIsJwk_Ok in Hj as [-> Hwt].
      destruct (assertAllJwk items) as [js|e]; cbn [bind].
      * destruct (proj1 (IH js) eq_refl) as [-> Hall]. split.
        -- intros [= <-]. split; [done | by constructor].
        -- intros [Heq _]. destruct jwks as [|j0 jwks]; [done|].
           simpl in Heq. injection Heq as <- Heq.
           by rewrite (fmap_JObject_inj _ _ Heq).
      * split; [done|]. intros [Heq Hall].
        destruct jwks as [|j0 jwks]; [done|].
        simpl in Heq. injection Heq as <- Heq.
        assert (Throw e = Ok jwks) as Habs; [|done].
        apply IH. split; [done|]. by inversion Hall.
    + split; [done|]. intros [Heq Hall].
      destruct jwks as [|j0 jwks]; [done|].
      simpl in Heq. injection Heq as -> Heq.
      assert (assertIsJwk (JObject j0) = Ok j0); [|congruence].
      apply assertIsJwk_Ok. split; [done|]. by inversion Hall.
Qed.

Lemma assertAllJwk_kind items e :
  assertAllJwk items = Throw e → kind e = JwkValidationError.
Proof.
  induction items as [|j items IH]; simpl; [done|].
  destruct (assertIsJwk j) as [jwk|e1] eqn:Hj; simpl.
  - destruct (assertAllJwk items) as [js|e2]; simpl; [done|].
    intros [= <-]. by apply IH.
  - intros [= <-]. eapply assertIsJwk_kind, Hj.
Qed.

Lemma obj_get_unknown (fields : JsonObject) name v field :
  name ≠ field → obj_get ((name, v) :: fields) field = obj_get fields field.
Proof.
  intros Hne. simpl. destruct (String.eqb name field) eqn:He; [|done].
  apply String.eqb_eq in He. done.
Qed.

End Validator.

Lemma isJwk_true j :
  isJwk j = true ↔ ∃ fields, j = JObject fields ∧ wellTypedJwk fields.
Proof.
  unfold isJwk. split.
  - destruct (assertIsJwk j) as [jwk|e] eqn:Hj; [|done].
    intros _. apply assertIsJwk_Ok in Hj. eauto.
  - intros [fields H]. apply assertIsJwk_Ok in H. by rewrite H.
Qed.

Lemma assertIsJwks_Ok j jwks :
  assertIsJwks j = Ok jwks ↔
  ∃ fields, j = JObject fields ∧
            obj_get fields "keys" = Some (JArray (JObject <$> keys jwks)) ∧
            Forall wellTypedJwk (keys jwks).
Proof.
  unfold assertIsJwks.
  destruct j as [| b | m ex | s | items | fields];
    try (simpl; split; [by repeat case_match | by intros (? & ? & _)]).
  cbn [falsy isJsonObject negb properties]. unfold obj_has.
  destruct (obj_get fields "keys") as [[| b | m ex | s | items | fs]|] eqn:Hk;
    cbn [negb]; try (split; [done | by intros (? & [= <-] & ? & _); congruence]).
  destruct (assertAllJwk items) as [js|e] eqn:Hjs; cbn [bind].
  - apply assertAllJwk_Ok in Hjs as [-> Hall]. split.
    + intros [= <-]. exists fields. by simpl.
    + intros (? & [= <-] & Heq & _). destruct jwks as [ks]. simpl in Heq.
      rewrite Hk in Heq. injection Heq as Heq.
      by rewrite (fmap_JObject_inj _ _ Heq).
  - split; [done|]. intros (? & [= <-] & Heq & Hall).
    rewrite Hk in Heq. injection Heq as ->.
    assert (assertAllJwk (JObject <$> keys jwks) = Ok (keys jwks)); [|congruence].
    by apply assertAllJwk_Ok.
Qed.

Lemma assertIsJwks_kind j e :
  assertIsJwks j = Throw e → kind e = JwksValidationError ∨ kind e = JwkValidationError.
Proof.
  unfold assertIsJwks.
  destruct (falsy j); [intros [= <-]; by left|].
  destruct (negb (isJsonObject j)); [intros [= <-]; by left|]. cbv zeta.
  destruct (negb (obj_has _ _)); [intros [= <-]; by left|].
  destruct (obj_get _ _) as [[| b | m ex | s | items | fs]|];
    try (intros [= <-]; by left).
  destruct (assertAllJwk items) as [js|e1] eqn:Hjs; cbn [bind]; [done|].
  intros [= <-]. right. eapply assertAllJwk_kind, Hjs.
Qed.

Lemma wellTypedJwk_extra_field fields name v :
  name ∉ (mandatoryJwkFieldNames ++ optionalJwkFieldNames)%list →
  wellTypedJwk ((name, v) :: fields) ↔ wellTypedJwk fields.
Proof.
  intros Hnot. unfold wellTypedJwk, obj_has.
  assert (∀ field, field ∈ (mandatoryJwkFieldNames ++ optionalJwkFieldNames)%list →
                   obj_get ((name, v) :: fields) field = obj_get fields field) as Hget.
  { intros field Hin. apply obj_get_unknown. intros ->. done. }
  rewrite (Hget "kty"); [|apply elem_of_cons; by left].
  split; intros [Hkty Hopt]; (split; [done|]); intros field Hin;
    specialize (Hopt field Hin);
    rewrite (Hget field) in *; try done;
    apply elem_of_app; by right.
Qed.

(** C7, as the code has it. The validator refines parsed JSON by the types
    of the fields only: [isJwk] accepts exactly the objects whose [kty] is a
    string and whose [use], [alg], [kid], [n], [e], [x], [y], [crv], when
    present, are strings; [isJwks] accepts exactly the objects whose [keys]
    is an array of such objects. A rejected JWK fails with
    [JwkValidationError], a rejected key set with [JwksValidationError] or,
    for a malformed member, [JwkValidationError]. A field with any other name
    changes nothing. Which family [kty] names is not looked at here. *)
Theorem validator_refines_by_field_types :
  (∀ j, isJwk j = true ↔ ∃ fields, j = JObject fields ∧ wellTypedJwk fields) ∧
  (∀ j e, assertIsJwk j = Throw e → kind e = JwkValidationError) ∧
  (∀ j, isJwks j = true ↔
        ∃ fields jwks, j = JObject fields ∧
                       obj_get fields "keys" = Some (JArray (JObject <$> jwks)) ∧
                       Forall wellTypedJwk jwks) ∧
  (∀ j e, assertIsJwks j = Throw e →
          kind e = JwksValidationError ∨ kind e = JwkValidationError) ∧
  (∀ fields name v,
      name ∉ (mandatoryJwkFieldNames ++ optionalJwkFieldNames)%list →
      isJwk (JObject ((name, v) :: fields)) = isJwk (JObject fields)).
Proof.
  split; [exact isJwk_true|].
  split; [exact assertIsJwk_kind|].
  split.
  { intros j. unfold isJwks. split.
    - destruct (assertIsJwks j) as [jwks|e] eqn:Hj; [|done].
      intros _. apply assertIsJwks_Ok in Hj as (fields & ? & ? & ?).
      by exists fields, (keys jwks).
    - intros (fields & jwks & ? & ? & ?).
      assert (assertIsJwks j = Ok (mkJwks jwks)) as ->; [|done].
      apply assertIsJwks_Ok. by exists fields. }
  split; [exact assertIsJwks_kind|].
  intros fields name v Hnot.
  apply eq_true_iff_eq. rewrite !isJwk_true.
  split; intros (fs & [= <-] & Hwt); eexists; (split; [done|]);
    by apply (wellTypedJwk_extra_field fields name v Hnot).
Qed.

Lemma validator_refines_by_field_types_witness :
  isJwk (JObject (("x5c", JArray [JString "MIIC"]) :: rsaJwk)) = isJwk (JObject rsaJwk) ∧
  kind (mkError JwkValidationError "JWK kty should be a string" None) = JwkValidationError.
Proof.
  destruct validator_refines_by_field_types as (_ & Hkind & _ & _ & Hextra).
  split.
  - apply Hextra. apply (bool_decide_unpack _). vm_compute. reflexivity.
  - apply (Hkind (JObject [("kid", JString "k1")])). reflexivity.
Defined.

(** C7 as stated fails: a JWK whose [kty] names no supported family is
    accepted by the validator. *)
Lemma validator_accepts_unknown_kty :
  isJwk octJwk = true ∧ ¬ ktyInFamilies (properties octJwk).
Proof.
  split; [reflexivity|].
  intros (kty & Hget & Hin). vm_compute in Hget. injection Hget as <-.
  revert Hin. apply (bool_decide_unpack _). vm_compute. reflexivity.
Qed.

(** ** The penalty box *)

Module SimplePenaltyBoxFacts.
Import SimplePenaltyBox.

Lemma runCallbacks_cons tm due (m : gmap string positive) :
  runCallbacks (tm :: due) m = runCallbacks due (delete (timer_uri tm) m).
Proof. reflexivity. Qed.

Lemma runCallbacks_keeps_absent due (m : gmap string positive) uri :
  m !! uri = None → runCallbacks due m !! uri = None.
Proof.
  revert m. induction due as [|tm due IH]; intros m Hm; [done|].
  rewrite runCallbacks_cons.
  apply IH. destruct (decide (timer_uri tm = uri)) as [->|Hne].
  - apply lookup_delete_eq.
  - by rewrite lookup_delete_ne.
Qed.

Lemma runCallbacks_deletes due (m : gmap string positive) tm :
  In tm due → runCallbacks due m !! timer_uri tm = None.
Proof.
  revert m. induction due as [|tm' due IH]; intros m; [done|].
  rewrite runCallbacks_cons.
  intros [->|Hin]; [|by apply IH].
  apply runCallbacks_keeps_absent, lookup_delete_eq.
Qed.

Lemma runCallbacks_other due (m : gmap string positive) uri :
  (∀ tm, In tm due → timer_uri tm ≠ uri) → runCallbacks due m !! uri = m !! uri.
Proof.
  revert m. induction due as [|tm due IH]; intros m Hdue; [done|].
  rewrite runCallbacks_cons, IH.
  - apply lookup_delete_ne, Hdue. by left.
  - intros tm' Hin. apply Hdue. by right.
Qed.

Lemma wait_Ok uri b : wait uri b = Ok tt ↔ waitingUris b !! uri = None.
Proof.
  unfold wait. case_decide as Hw.
  - split; [done|]. intros Hn. rewrite Hn in Hw. by destruct Hw.
  - split; [|done]. intros _. by apply eq_None_not_Some.
Qed.

Lemma timers_registerFailedAttempt uri b :
  timers (registerFailedAttempt uri b) =
  (timers b ++ [mkTimer (nextTimer b) (clock b + waitSeconds b * 1000) uri])%list.
Proof. reflexivity. Qed.

Lemma waitingUris_registerFailedAttempt uri b :
  waitingUris (registerFailedAttempt uri b) = <[uri := nextTimer b]> (waitingUris b).
Proof. reflexivity. Qed.

Lemma advance_fires ms b tm :
  In tm (timers b) → timer_due tm ≤ clock b + Z.of_N ms →
  waitingUris (advance ms b) !! timer_uri tm = None.
Proof.
  intros Hin Hdue. simpl. apply runCallbacks_deletes.
  apply filter_In. split; [done|]. unfold isDue. by apply Z.leb_le.
Qed.

Lemma advance_keeps ms b tm :
  In tm (timers b) → clock b + Z.of_N ms < timer_due tm →
  In tm (timers (advance ms b)).
Proof.
  intros Hin Hdue. simpl. apply filter_In. split; [done|].
  unfold isDue. apply negb_true_iff, Z.leb_gt. done.
Qed.

Lemma release_not_waiting uri b : waitingUris (release uri b) !! uri = None.
Proof.
  unfold release. destruct (waitingUris b !! uri) eqn:Hw; [|done].
  simpl. apply lookup_delete_eq.
Qed.

(** What does hold after a failed attempt: while no earlier timeout for the
    URI is outstanding, [wait] fails until [waitSeconds] have passed. *)
Lemma wait_fails_within_waitSeconds uri b ms :
  (∀ tm, In tm (timers b) → timer_uri tm ≠ uri) →
  Z.of_N ms < waitSeconds b * 1000 →
  ∃ e, wait uri (advance ms (registerFailedAttempt uri b)) = Throw e ∧
       kind e = WaitPeriodNotYetEndedJwkError.
Proof.
  intros Hnone Hms. unfold wait. case_decide as Hw; [by eexists|].
  exfalso. apply Hw. simpl. rewrite runCallbacks_other.
  - rewrite lookup_insert_eq. by eexists.
  - intros tm [Hin Hdue]%filter_In.
    apply in_app_or in Hin as [Hin|[<-|[]]]; [by apply Hnone|].
    unfold isDue in Hdue. simpl in Hdue. apply Z.leb_le in Hdue. lia.
Qed.

Lemma wait_succeeds_after_success uri b :
  wait uri (registerSuccessfulAttempt uri b) = Ok tt.
Proof. apply wait_Ok, release_not_waiting. Qed.

End SimplePenaltyBoxFacts.

(** C10. [registerFailedAttempt] stores the new timeout over the one already
    stored for the URI and leaves the earlier one scheduled: after a second
    failed attempt [dt1] ms after the first (and before the first timeout is
    due), the first timeout is still in the queue and the map holds the
    second. When the first is due, [dt2] ms later, it deletes the URI: [wait]
    succeeds, for any kid, and if [dt2] is less than the wait period this is
    strictly before the period that the second failure started has ended. *)
Theorem earlier_timeout_ends_later_wait_period
    (b : SimplePenaltyBox.t) (uri kid : string) (dt1 dt2 : N) :
  let ms := SimplePenaltyBox.waitSeconds b * 1000 in
  let b1 := SimplePenaltyBox.registerFailedAttempt uri b in
  let b2 := SimplePenaltyBox.registerFailedAttempt uri (SimplePenaltyBox.advance dt1 b1) in
  let b3 := SimplePenaltyBox.advance dt2 b2 in
  Z.of_N dt1 < ms →
  ms ≤ Z.of_N dt1 + Z.of_N dt2 →
  In (SimplePenaltyBox.mkTimer (SimplePenaltyBox.nextTimer b)
        (SimplePenaltyBox.clock b + ms) uri) (SimplePenaltyBox.timers b2) ∧
  SimplePenaltyBox.waitingUris b2 !! uri = Some (Pos.succ (SimplePenaltyBox.nextTimer b)) ∧
  pb_wait uri kid b3 = (Ok tt, b3) ∧
  (Z.of_N dt2 < ms → SimplePenaltyBox.clock b3 < SimplePenaltyBox.clock b2 + ms).
Proof.
  intros ms b1 b2 b3 Hdt1 Hdt2.
  set (t1 := SimplePenaltyBox.mkTimer (SimplePenaltyBox.nextTimer b)
               (SimplePenaltyBox.clock b + ms) uri).
  assert (In t1 (SimplePenaltyBox.timers (SimplePenaltyBox.advance dt1 b1))) as Hkept.
  { apply SimplePenaltyBoxFacts.advance_keeps.
    - subst b1. rewrite SimplePenaltyBoxFacts.timers_registerFailedAttempt.
      apply in_or_app. right. by left.
    - simpl. lia. }
  assert (In t1 (SimplePenaltyBox.timers b2)) as Hin2.
  { subst b2. rewrite SimplePenaltyBoxFacts.timers_registerFailedAttempt.
    apply in_or_app. by left. }
  split; [done|].
  split.
  { subst b2. rewrite SimplePenaltyBoxFacts.waitingUris_registerFailedAttempt.
    by rewrite lookup_insert_eq. }
  split.
  { simpl. f_equal. apply SimplePenaltyBoxFacts.wait_Ok.
    apply (SimplePenaltyBoxFacts.advance_fires dt2 b2 t1 Hin2).
    simpl. lia. }
  intros Hlt. simpl. lia.
Qed.

(** Ten seconds of waiting; a second failure five seconds after the first;
    five more seconds later the URI is free again. *)
Lemma earlier_timeout_ends_later_wait_period_witness :
  let b := SimplePenaltyBox.new (Some 10) 0 in
  let b2 := SimplePenaltyBox.registerFailedAttempt "https://idp/jwks"
              (SimplePenaltyBox.advance 5000
                 (SimplePenaltyBox.registerFailedAttempt "https://idp/jwks" b)) in
  let b3 := SimplePenaltyBox.advance 5000 b2 in
  pb_wait "https://idp/jwks" "k2" b3 = (Ok tt, b3) ∧
  SimplePenaltyBox.clock b3 < SimplePenaltyBox.clock b2 + 10 * 1000.
Proof.
  intros b b2 b3.
  destruct (earlier_timeout_ends_later_wait_period b "https://idp/jwks" "k2" 5000 5000)
    as (_ & _ & Hwait & Hearly); [simpl; lia | simpl; lia |].
  split; [exact Hwait|]. apply Hearly. simpl; lia.
Defined.

(** C3 at its failing input: with a wait period of 10 s, failed attempts at
    0 s and at 5 s; at 10 s, five seconds after the second failure, [wait]
    does not fail. *)
Lemma wait_succeeds_within_waitSeconds_of_failure :
  let b := SimplePenaltyBox.new (Some 10) 0 in
  let b2 := SimplePenaltyBox.registerFailedAttempt "https://idp/jwks"
              (SimplePenaltyBox.advance 5000
                 (SimplePenaltyBox.registerFailedAttempt "https://idp/jwks" b)) in
  let b3 := SimplePenaltyBox.advance 5000 b2 in
  SimplePenaltyBox.clock b2 = 5000 ∧
  SimplePenaltyBox.clock b3 = 10000 ∧
  SimplePenaltyBox.waitSeconds b3 = 10 ∧
  SimplePenaltyBox.wait "https://idp/jwks" b3 = Ok tt.
Proof. vm_compute. done. Qed.

Open Scope nat_scope.

(** ** Looking a kid up *)

Lemma kidMatches_true kid (jwk : Jwk) :
  kidMatches kid jwk = true ↔ obj_get jwk "kid" = Some (JString kid).
Proof.
  unfold kidMatches.
  destruct (obj_get jwk "kid") as [[| b | m ex | s | items | fs]|]; try (split; done).
  rewrite String.eqb_eq. split; [by intros -> | by intros [= ->]].
Qed.

Lemma array_find_Some {A} (f : A → bool) l x :
  array_find f l = Some x ↔
  ∃ before after, l = (before ++ x :: after)%list ∧ f x = true ∧
                  ∀ y, In y before → f y = false.
Proof.
  induction l as [|a l IH]; simpl.
  - split; [done|]. intros (before & after & Heq & _). by destruct before.
  - destruct (f a) eqn:Ha.
    + split.
      * intros [= <-]. exists [], l. by split.
      * intros ([|b before] & after & Heq & Hx & Hbefore).
        -- by injection Heq as ->.
        -- injection Heq as <- _. rewrite Hbefore in Ha; [done | by left].
    + rewrite IH. split.
      * intros (before & after & -> & Hx & Hbefore). exists (a :: before), after.
        split; [done|]. split; [done|]. intros y [<-|Hin]; auto.
      * intros ([|b before] & after & Heq & Hx & Hbefore).
        -- injection Heq as ->. congruence.
        -- injection Heq as <- ->. exists before, after.
           split; [done|]. split; [done|]. intros y Hin. apply Hbefore. by right.
Qed.

Lemma array_find_None {A} (f : A → bool) l :
  array_find f l = None ↔ ∀ y, In y l → f y = false.
Proof.
  induction l as [|a l IH]; simpl; [by split|].
  destruct (f a) eqn:Ha.
  - split; [done|]. intros H. rewrite H in Ha; [done | by left].
  - rewrite IH. split.
    + intros H y [<-|Hin]; auto.
    + intros H y Hin. apply H. by right.
Qed.

Lemma findJwkInJwks_Some jwks kid jwk :
  findJwkInJwks jwks kid = Some jwk →
  In jwk (keys jwks) ∧ obj_get jwk "kid" = Some (JString kid).
Proof.
  intros (before & after & Heq & Hx & _)%array_find_Some.
  split; [|by apply kidMatches_true].
  rewrite Heq. apply in_or_app. right. by left.
Qed.

Section CacheFacts.
Context {PB : Type} `{!PenaltyBox PB}.
Implicit Types (w : World PB) (c : SimpleJwksCache PB).

Lemma getCachedJwk_Ok uri jwt c jwk :
  getCachedJwk uri jwt c = Ok jwk →
  ∃ kid jwks, headerKid jwt = Some kid ∧ jwksCache c !! uri = Some jwks ∧
              findJwkInJwks jwks kid = Some jwk.
Proof.
  unfold getCachedJwk.
  destruct (headerKid jwt) as [kid|]; [|done].
  destruct (jwksCache c !! uri) as [jwks|]; [|done].
  destruct (findJwkInJwks jwks kid) as [found|] eqn:Hf; [|done].
  intros [= <-]. eauto.
Qed.

End CacheFacts.

(** C4, as the code has it. [getCachedJwk] reads the cached key sets and
    nothing else; it checks the JWT first and the cache second: without a
    string kid in the header it fails with [JwtWithoutValidKidError], whether
    or not the URI is cached; with one, it fails with
    [JwksNotAvailableInCacheError] if the URI is absent, with
    [KidNotFoundInJwksError] if no cached JWK of the URI has that kid, and
    otherwise returns the first JWK that has it. *)
Theorem getCachedJwk_checks_kid_then_cache
    {PB : Type} `{!PenaltyBox PB} (c : SimpleJwksCache PB) (uri : string)
    (jwt : DecomposedJwt) :
  (∀ c' : SimpleJwksCache PB,
      jwksCache c' = jwksCache c → getCachedJwk uri jwt c' = getCachedJwk uri jwt c) ∧
  (headerKid jwt = None →
   ∃ e, getCachedJwk uri jwt c = Throw e ∧ kind e = JwtWithoutValidKidError) ∧
  (∀ kid, headerKid jwt = Some kid → jwksCache c !! uri = None →
   ∃ e, getCachedJwk uri jwt c = Throw e ∧ kind e = JwksNotAvailableInCacheError) ∧
  (∀ kid jwks, headerKid jwt = Some kid → jwksCache c !! uri = Some jwks →
   (∀ jwk, In jwk (keys jwks) → obj_get jwk "kid" ≠ Some (JString kid)) →
   ∃ e, getCachedJwk uri jwt c = Throw e ∧ kind e = KidNotFoundInJwksError) ∧
  (∀ kid before jwk after, headerKid jwt = Some kid →
   jwksCache c !! uri = Some (mkJwks (before ++ jwk :: after)) →
   obj_get jwk "kid" = Some (JString kid) →
   (∀ other, In other before → obj_get other "kid" ≠ Some (JString kid)) →
   getCachedJwk uri jwt c = Ok jwk).
Proof.
  unfold getCachedJwk. split; [|split; [|split; [|split]]].
  - intros c' ->. done.
  - intros ->. by eexists.
  - intros kid -> ->. by eexists.
  - intros kid jwks -> -> Hnone.
    assert (findJwkInJwks jwks kid = None) as ->; [|by eexists].
    apply array_find_None. intros jwk Hin.
    apply not_true_is_false. rewrite kidMatches_true. by apply Hnone.
  - intros kid before jwk after -> -> Hkid Hbefore.
    assert (findJwkInJwks (mkJwks (before ++ jwk :: after)) kid = Some jwk) as ->; [|done].
    apply array_find_Some. exists before, after.
    split; [done|]. split; [by apply kidMatches_true|].
    intros other Hin. apply not_true_is_false. rewrite kidMatches_true. by apply Hbefore.
Qed.

Lemma getCachedJwk_checks_kid_then_cache_witness :
  getCachedJwk "https://idp/jwks" jwtK2 cacheK1K2 = Ok k2First ∧
  ∃ e, getCachedJwk "https://idp/jwks" jwtK2 emptyCache = Throw e ∧
       kind e = JwksNotAvailableInCacheError.
Proof.
  destruct (getCachedJwk_checks_kid_then_cache cacheK1K2 "https://idp/jwks" jwtK2)
    as (_ & _ & _ & _ & Hfirst).
  destruct (getCachedJwk_checks_kid_then_cache emptyCache "https://idp/jwks" jwtK2)
    as (_ & _ & Habsent & _).
  split.
  - apply (Hfirst "k2" [rsaJwk] k2First [k2Second]); try reflexivity.
    intros other [<-|[]]. vm_compute. discriminate.
  - apply (Habsent "k2"); reflexivity.
Defined.

(** C4 as stated fails: for a URI absent from the cache and a JWT without a
    kid, the error is not [JwksNotAvailableInCacheError]. *)
Lemma getCachedJwk_absent_uri_without_kid :
  jwksCache emptyCache !! "https://idp/jwks" = None ∧
  headerKid jwtWithoutKid = None ∧
  ∃ e, getCachedJwk "https://idp/jwks" jwtWithoutKid emptyCache = Throw e ∧
       kind e = JwtWithoutValidKidError ∧
       kind e ≠ JwksNotAvailableInCacheError.
Proof.
  split; [reflexivity|]. split; [reflexivity|].
  eexists. split; [reflexivity|]. split; [reflexivity | discriminate].
Qed.

(** ** One call of [getJwk] *)

Lemma snoc_lookup {A} (l : list A) x : (l ++ [x])%list !! length l = Some x.
Proof. by apply list_lookup_middle. Qed.

Lemma snoc_insert {A} (l : list A) x y :
  <[length l := y]> (l ++ [x])%list = (l ++ [y])%list.
Proof. rewrite insert_app_r_alt; [|done]. by rewrite Nat.sub_diag. Qed.

Lemma runEnabled_cons {PB : Type} `{!PenaltyBox PB} a rest (w : World PB) :
  runEnabled (a :: rest) w = runEnabled rest (default w (exec a w)).
Proof. reflexivity. Qed.

#[local] Arguments runEnabled : simpl never.

Ltac world_simpl H :=
  unfold set_tasks, set_cache, set_promises, emit, set_penaltyBox, set_jwksCache,
    set_fetchingJwks in H;
  cbn in H.

Ltac step H := rewrite runEnabled_cons in H; world_simpl H;
  rewrite ?snoc_lookup in H; world_simpl H; rewrite ?snoc_insert in H.

(** C1. A caller of [getJwk] whose JWT has the string kid [kid], running on
    its own from any state [w]; [fetched] is what the fetcher answers if it is
    asked. If the cached key set of the URI has a JWK with that kid, the call
    returns the first such JWK and asks nothing of the penalty box or of the
    fetcher. Otherwise it first calls [penaltyBox.wait(uri, kid)]; if that
    fails the call fails with the same error and nothing is fetched; if not,
    it calls [getJwks], which fetches (or joins the fetch in flight), and the
    kid is looked up in the fetched key set: when absent,
    [registerFailedAttempt(uri, kid)] is called and the call fails with
    [KidNotFoundInJwksError]; when present, [registerSuccessfulAttempt(uri,
    kid)] is called and that JWK is returned. A call that joins the fetch in
    flight, promise [p], does the same with the outcome of [p], whether [p]
    was settled before the call or is settled after it with what the fetcher
    answered, [joined]: an error of the fetch is thrown as it is, and
    otherwise the kid is looked up in the key set of [p] and the failed or
    successful attempt is registered; such a call makes no promise, calls no
    fetcher and leaves the cached key sets alone. *)
Theorem getJwk_protocol
    {PB : Type} `{!PenaltyBox PB} (w : World PB) (uri kid : string)
    (jwt : DecomposedJwt) (fetched : result Bytes) :
  headerKid jwt = Some kid →
  let w' := getJwk_alone uri jwt fetched w in
  match cachedJwk uri kid (cache w) with
  | Some jwk =>
      newTask w w' = Some (CallGetJwk uri jwt, Done (Ok jwk)) ∧
      trace w' = trace w ∧ cache w' = cache w ∧ promises w' = promises w
  | None =>
      match pb_wait uri kid (penaltyBox (cache w)) with
      | (Throw e, pb) =>
          newTask w w' = Some (CallGetJwk uri jwt, Done (Throw e)) ∧
          trace w' = (trace w ++ [EvWait uri kid])%list ∧
          promises w' = promises w
      | (Ok _, pb) =>
          (∀ p, fetchingJwks (cache w) !! uri = Some p → outcome w p = None →
                newTask w w' = Some (CallGetJwk uri jwt, AwaitGetJwks kid (Joined p)) ∧
                trace w' = (trace w ++ [EvWait uri kid])%list) ∧
          (∀ p u settled joined,
             fetchingJwks (cache w) !! uri = Some p →
             promises w !! p = Some (u, settled) →
             let r := match settled with
                      | Some r => r
                      | None => bind joined (jwksParser (cache w))
                      end in
             let w'' := runEnabled [ActSettle p joined; ActResume (length (tasks w))] w' in
             promises w'' = <[p := (u, Some r)]> (promises w) ∧
             jwksCache (cache w'') = jwksCache (cache w) ∧
             fetchingJwks (cache w'') = fetchingJwks (cache w) ∧
             match r with
             | Throw e =>
                 newTask w w'' = Some (CallGetJwk uri jwt, Done (Throw e)) ∧
                 trace w'' = (trace w ++ [EvWait uri kid])%list ∧
                 penaltyBox (cache w'') = pb
             | Ok jwks =>
                 match findJwkInJwks jwks kid with
                 | None =>
                     (∃ e, newTask w w'' = Some (CallGetJwk uri jwt, Done (Throw e)) ∧
                           kind e = KidNotFoundInJwksError) ∧
                     trace w'' = (trace w ++ [EvWait uri kid;
                                              EvRegisterFailedAttempt uri kid])%list ∧
                     penaltyBox (cache w'') = pb_registerFailedAttempt uri kid pb
                 | Some jwk =>
                     newTask w w'' = Some (CallGetJwk uri jwt, Done (Ok jwk)) ∧
                     trace w'' = (trace w ++ [EvWait uri kid;
                                              EvRegisterSuccessfulAttempt uri kid])%list ∧
                     penaltyBox (cache w'') = pb_registerSuccessfulAttempt uri kid pb
                 end
             end) ∧
          (fetchingJwks (cache w) !! uri = None →
          match bind fetched (jwksParser (cache w)) with
          | Throw e =>
              newTask w w' = Some (CallGetJwk uri jwt, Done (Throw e)) ∧
              trace w' = (trace w ++ [EvWait uri kid; EvFetch uri])%list
          | Ok jwks =>
              jwksCache (cache w') !! uri = Some jwks ∧
              match findJwkInJwks jwks kid with
              | None =>
                  (∃ e, newTask w w' = Some (CallGetJwk uri jwt, Done (Throw e)) ∧
                        kind e = KidNotFoundInJwksError) ∧
                  trace w' = (trace w ++ [EvWait uri kid; EvFetch uri;
                                          EvRegisterFailedAttempt uri kid])%list ∧
                  penaltyBox (cache w') = pb_registerFailedAttempt uri kid pb
              | Some jwk =>
                  newTask w w' = Some (CallGetJwk uri jwt, Done (Ok jwk)) ∧
                  trace w' = (trace w ++ [EvWait uri kid; EvFetch uri;
                                          EvRegisterSuccessfulAttempt uri kid])%list ∧
                  penaltyBox (cache w') = pb_registerSuccessfulAttempt uri kid pb
              end
          end)
      end
  end.
Proof.
  intros Hkid w'. unfold cachedJwk, newTask.
  assert (w' = getJwk_alone uri jwt fetched w) as Hw' by reflexivity.
  clearbody w'. unfold getJwk_alone in Hw'.
  destruct w as [[pb parser jc fj] ps ts tr].
  cbn [cache jwksCache tasks promises fetchingJwks penaltyBox jwksParser] in *.
  assert (ps !! length ps = None) as Hps by (by apply lookup_ge_None).
  rewrite runEnabled_cons in Hw'. unfold exec at 1, getJwk_call in Hw'.
  cbn [cache jwksCache tasks promises fetchingJwks penaltyBox jwksParser] in Hw'.
  rewrite Hkid in Hw'.
  destruct (match jc !! uri with Some cachedJwks => findJwkInJwks cachedJwks kid | None => None end)
    as [jwk|] eqn:Hc.
  - world_simpl Hw'. step Hw'. step Hw'. rewrite Hps in Hw'. do 2 step Hw'.
    unfold runEnabled in Hw'. subst w'. cbn. by rewrite snoc_lookup.
  - destruct (pb_wait uri kid pb) as [[[]|e] pb'] eqn:Hwait.
    2:{ world_simpl Hw'. step Hw'. step Hw'. rewrite Hps in Hw'. do 2 step Hw'.
        unfold runEnabled in Hw'. subst w'. cbn. by rewrite snoc_lookup. }
    world_simpl Hw'. step Hw'.
    split; [|split].
    { intros p Hfj Hpending.
      unfold getJwks_call in Hw'. world_simpl Hw'. rewrite Hfj in Hw'. world_simpl Hw'.
      rewrite ?snoc_insert in Hw'.
      step Hw'. rewrite Hps in Hw'. step Hw'.
      unfold outcome in Hpending, Hw'. cbn in Hpending, Hw'.
      rewrite Hpending in Hw'. world_simpl Hw'.
      step Hw'. unfold outcome in Hw'. cbn in Hw'. rewrite Hpending in Hw'. world_simpl Hw'.
      unfold runEnabled in Hw'. subst w'. cbn. by rewrite snoc_lookup. }
    { intros p u settled joined Hfj Hp.
      remember (runEnabled [ActSettle p joined; ActResume (length ts)] w') as w'' eqn:Hw''.
      assert (p < length ps) as Hlt by (by eapply lookup_lt_Some).
      unfold getJwks_call in Hw'. world_simpl Hw'. rewrite Hfj in Hw'. world_simpl Hw'.
      rewrite ?snoc_insert in Hw'.
      step Hw'. rewrite Hps in Hw'. step Hw'.
      unfold outcome in Hw'. cbn in Hw'. rewrite Hp in Hw'.
      destruct settled as [r0|].
      - (* the promise was settled before the call *)
        world_simpl Hw'. unfold getJwk_finish in Hw'.
        rewrite list_insert_id by done.
        destruct r0 as [jwks|e0]; [destruct (findJwkInJwks jwks kid) as [jwk|]|];
          world_simpl Hw'; rewrite ?snoc_insert in Hw'; step Hw';
          unfold runEnabled in Hw'; subst w';
          step Hw''; rewrite Hp in Hw''; step Hw'';
          unfold runEnabled in Hw''; subst w''; cbn;
          rewrite snoc_lookup, <- ?app_assoc; eauto 10.
      - (* it is settled after the call *)
        world_simpl Hw'. step Hw'. unfold outcome in Hw'. cbn in Hw'. rewrite Hp in Hw'.
        world_simpl Hw'. unfold runEnabled in Hw'. subst w'.
        step Hw''. rewrite Hp in Hw''. world_simpl Hw''.
        step Hw''. unfold outcome in Hw''. cbn in Hw''.
        rewrite list_lookup_insert_eq in Hw'' by done. world_simpl Hw''.
        unfold getJwk_finish in Hw''.
        destruct (bind joined parser) as [jwks|e0]; [destruct (findJwkInJwks jwks kid) as [jwk|]|];
          world_simpl Hw''; rewrite ?snoc_insert in Hw'';
          unfold runEnabled in Hw''; subst w''; cbn;
          rewrite snoc_lookup, <- ?app_assoc; eauto 10. }
    intros Hfj.
    unfold getJwks_call in Hw'. world_simpl Hw'. rewrite Hfj in Hw'. world_simpl Hw'.
    rewrite ?snoc_insert in Hw'.
    step Hw'. step Hw'.
    unfold outcome in Hw'. world_simpl Hw'.
    rewrite snoc_lookup in Hw'. world_simpl Hw'.
    unfold getJwks_resume in Hw'.
    destruct (bind fetched parser) as [jwks|e] eqn:Hfetched.
    + world_simpl Hw'. rewrite ?snoc_insert in Hw'. step Hw'.
      unfold getJwk_finish in Hw'.
      split.
      { destruct (findJwkInJwks jwks kid); world_simpl Hw';
          unfold runEnabled in Hw'; subst w'; cbn; apply lookup_insert_eq. }
      destruct (findJwkInJwks jwks kid) as [jwk|]; world_simpl Hw';
        rewrite ?snoc_insert in Hw'; unfold runEnabled in Hw'; subst w'; cbn;
        rewrite snoc_lookup, <- !app_assoc; eauto.
    + world_simpl Hw'. rewrite ?snoc_insert in Hw'. step Hw'.
      unfold getJwk_finish in Hw'. world_simpl Hw'. rewrite ?snoc_insert in Hw'.
      unfold runEnabled in Hw'. subst w'. cbn.
      by rewrite snoc_lookup, <- !app_assoc.
Qed.

Lemma getJwk_protocol_witness :
  let w' := getJwk_alone "https://idp/jwks" jwtK2 (Ok []) freshWorld in
  (newTask freshWorld w' = Some (CallGetJwk "https://idp/jwks" jwtK2, Done (Ok k2First)) ∧
   trace w' = [EvWait "https://idp/jwks" "k2"; EvFetch "https://idp/jwks";
               EvRegisterSuccessfulAttempt "https://idp/jwks" "k2"]) ∧
  let joiner :=
    runEnabled [ActSettle 0 (Ok []); ActResume 2]
      (getJwk_alone "https://idp/jwks" jwtK2 (Throw connectionReset) twoCallers) in
  newTask twoCallers joiner = Some (CallGetJwk "https://idp/jwks" jwtK2, Done (Ok k2First)) ∧
  trace joiner = [EvFetch "https://idp/jwks"; EvWait "https://idp/jwks" "k2";
                  EvRegisterSuccessfulAttempt "https://idp/jwks" "k2"].
Proof.
  split.
  - pose proof (getJwk_protocol freshWorld "https://idp/jwks" "k2" jwtK2 (Ok []) eq_refl) as H.
    cbv zeta in H.
    change (cachedJwk "https://idp/jwks" "k2" (cache freshWorld)) with (@None Jwk) in H.
    change (pb_wait "https://idp/jwks" "k2" (penaltyBox (cache freshWorld)))
      with (Ok tt, SimplePenaltyBox.new None 0) in H.
    cbv beta iota in H. destruct H as (_ & _ & H).
    pose proof (H eq_refl) as Hfetch. vm_compute in Hfetch.
    destruct Hfetch as (_ & Htask & Htrace & _).
    vm_compute. split; [exact Htask | exact Htrace].
  - pose proof (getJwk_protocol twoCallers "https://idp/jwks" "k2" jwtK2
                  (Throw connectionReset) eq_refl) as H.
    cbv zeta in H.
    change (cachedJwk "https://idp/jwks" "k2" (cache twoCallers)) with (@None Jwk) in H.
    change (pb_wait "https://idp/jwks" "k2" (penaltyBox (cache twoCallers)))
      with (Ok tt, SimplePenaltyBox.new None 0) in H.
    cbv beta iota in H. destruct H as (_ & H & _).
    pose proof (H 0 "https://idp/jwks" None (Ok []) eq_refl eq_refl) as Hjoin.
    vm_compute in Hjoin.
    destruct Hjoin as (_ & _ & _ & Htask & Htrace & _).
    vm_compute. split; [exact Htask | exact Htrace].
Defined.

(** ** The event loop, abstractly *)

Section Abstraction.
Context {PB : Type} `{!PenaltyBox PB}.
Implicit Types (w : World PB).

Lemma getJwk_finish_locate uri kid r w :
  (getJwk_finish uri kid r w).1 = Done (locate kid r).
Proof.
  unfold getJwk_finish, locate. destruct r as [jwks|e]; [|done].
  by destruct (findJwkInJwks jwks kid).
Qed.

Lemma getJwk_finish_core uri kid r w :
  ∃ evs, forallb (λ e, negb (isFetch e)) evs = true ∧
         core (getJwk_finish uri kid r w).2 =
         mkCore (promises w) (fetchingJwks (cache w)) (tasks w) (trace w ++ evs).
Proof.
  unfold getJwk_finish. destruct r as [jwks|e].
  - destruct (findJwkInJwks jwks kid); eexists [_]; (split; [|reflexivity]); done.
  - exists []. split; [done|]. unfold core. simpl. by rewrite app_nil_r.
Qed.

Lemma exec_coreStep a w w' : exec a w = Some w' → coreStep (core w) (core w').
Proof.
  destruct a as [uri jwks | uri | uri jwt | p fetched | i | pb]; simpl.
  - intros [= <-]. apply cs_idle.
  - unfold getJwks_call.
    destruct (fetchingJwks (cache w) !! uri) as [p|] eqn:Hf; intros [= <-].
    + unfold core; simpl. rewrite <- (app_nil_r (trace w)) at 2.
      apply cs_call; try done. by intros ? [= <-].
    + unfold core; simpl. by apply cs_call_fetch.
  - unfold getJwk_call.
    destruct (headerKid jwt) as [kid|] eqn:Hkid.
    + destruct (match jwksCache (cache w) !! uri with
                | Some cachedJwks => findJwkInJwks cachedJwks kid
                | None => None
                end) as [jwk|] eqn:Hc.
      * intros [= <-]. unfold core; simpl. rewrite <- (app_nil_r (trace w)) at 2.
        apply cs_call; try done.
        destruct (jwksCache (cache w) !! uri) as [cachedJwks|]; [|done].
        apply findJwkInJwks_Some in Hc as [_ Hc]. simpl. eauto.
      * destruct (pb_wait uri kid (penaltyBox (cache w))) as [[[]|e] pb];
          intros [= <-]; unfold core; simpl; by apply cs_call.
    + intros [= <-]. unfold core; simpl. rewrite <- (app_nil_r (trace w)) at 2.
      by apply cs_call.
  - destruct (promises w !! p) as [[uri [r|]]|] eqn:Hp; try done.
    intros [= <-]. unfold core; simpl. by apply cs_settle.
  - destruct (tasks w !! i) as [[call st]|] eqn:Hi; [|done]. simpl.
    destruct call as [uri|uri jwt], st as [[p|p|r]|kid|kid [p|p|r]|r]; simpl; try done.
    + unfold outcome. destruct (promises w !! p) as [[u [r|]]|] eqn:Hp; try done. simpl.
      destruct r as [jwks|e]; intros [= <-]; unfold core; simpl;
        by eapply (cs_resume_originator _ _ _ _ _ (CallGetJwks uri) (InGetJwks (Originator p))).
    + unfold getJwks_call.
      destruct (fetchingJwks (cache w) !! uri) as [p|] eqn:Hf; intros [= <-];
        unfold core; simpl.
      * by apply (cs_resume_join _ _ _ _ _ (CallGetJwk uri jwt)).
      * by apply (cs_resume_fetch _ _ _ _ _ (CallGetJwk uri jwt)).
    + unfold outcome. destruct (promises w !! p) as [[u [r|]]|] eqn:Hp; try done. simpl.
      destruct r as [jwks|e]; intros [= <-]; unfold core; simpl;
        by eapply (cs_resume_originator _ _ _ _ _ (CallGetJwk uri jwt)
                     (AwaitGetJwks kid (Originator p))).
    + unfold outcome. destruct (promises w !! p) as [[u [r|]]|] eqn:Hp; try done. simpl.
      destruct (getJwk_finish_core uri kid r w) as (evs & Hevs & Hcore).
      pose proof (getJwk_finish_locate uri kid r w) as Hst.
      destruct (getJwk_finish uri kid r w) as [st w1]. simpl in *. subst st.
      intros [= <-]. unfold core in *; simpl in *.
      injection Hcore as -> -> -> ->.
      eapply cs_resume_finish; eauto.
    + destruct (getJwk_finish_core uri kid r w) as (evs & Hevs & Hcore).
      pose proof (getJwk_finish_locate uri kid r w) as Hst.
      destruct (getJwk_finish uri kid r w) as [st w1]. simpl in *. subst st.
      intros [= <-]. unfold core in *; simpl in *.
      injection Hcore as -> -> -> ->.
      eapply cs_resume_finish; eauto.
  - intros [= <-]. apply cs_idle.
Qed.

End Abstraction.

(** ** Single flight *)

Lemma originator_returned st p r : originator st = Some p → originator (returned st r) = None.
Proof. by destruct st as [[]| |? []|]. Qed.

Lemma taskOk_returned call st p r :
  originator st = Some p → taskOk (call, st) → taskOk (call, returned st r).
Proof. by destruct call, st as [[]| |? []|]. Qed.

Lemma taskOk_locate uri jwt kid c r :
  taskOk (CallGetJwk uri jwt, AwaitGetJwks kid c) →
  taskOk (CallGetJwk uri jwt, Done (locate kid r)).
Proof.
  simpl. intros Hkid. unfold locate. destruct r as [jwks|e]; [|done].
  destruct (findJwkInJwks jwks kid) as [jwk|] eqn:Hf; [|done].
  apply findJwkInJwks_Some in Hf as [_ Hf]. eauto.
Qed.

Lemma Inv_step k k' : coreStep k k' → Inv k → Inv k'.
Proof.
  intros Hstep [Hpend Hfetch Horig Huniq Htasks].
  inversion Hstep as
    [ ps fj ts tr
    | ps fj ts tr call st evs Hnot Haw Hok Hevs
    | ps fj ts tr uri Hnone
    | ps fj ts tr p uri r Hp
    | ps fj ts tr i call kid p Hi Hf
    | ps fj ts tr i call kid Hi Hnone
    | ps fj ts tr i call st p uri r Hi Ho Hp
    | ps fj ts tr i uri jwt kid c r evs Hi Hr Hevs ];
    subst; simpl in *.
  - by constructor.
  - constructor; simpl; try done.
    + intros i c s p [[_ Hold]|[_ [= <- <-]]]%lookup_snoc_Some Hor; [eauto | congruence].
    + intros i j ci si cj sj p [[_ Hi]|[_ [= <- <-]]]%lookup_snoc_Some
        [[_ Hj]|[_ [= <- <-]]]%lookup_snoc_Some; try congruence. eauto.
    + intros i t [[_ Hold]|[_ <-]]%lookup_snoc_Some; eauto.
  - constructor; simpl.
    + intros p u [[_ Hold]|[-> [= <-]]]%lookup_snoc_Some.
      * apply Hpend in Hold. rewrite lookup_insert_ne; [done | congruence].
      * apply lookup_insert_eq.
    + intros u p [[<- <-]|[Hne Hold]]%lookup_insert_Some.
      * exists None. apply snoc_lookup.
      * apply Hfetch in Hold as [st Hst]. exists st. by apply lookup_app_l_Some.
    + intros i c s p [[_ Hold]|[_ [= <- <-]]]%lookup_snoc_Some Hor.
      * pose proof (Horig _ _ _ _ Hold Hor) as Hf.
        rewrite lookup_insert_ne; [done | congruence].
      * simpl in *. injection Hor as <-. apply lookup_insert_eq.
    + assert (∀ i c s, ts !! i = Some (c, s) → originator s ≠ Some (length ps)) as Hfresh.
      { intros i c s Hi Ho. apply (Horig _ _ _ _ Hi), Hfetch in Ho as [st Hst].
        apply lookup_lt_Some in Hst. lia. }
      intros i j ci si cj sj p [[_ Hi]|[-> [= <- <-]]]%lookup_snoc_Some
        [[_ Hj]|[-> [= <- <-]]]%lookup_snoc_Some Hoi Hoj; simpl in *;
        try done; try (by eapply Huniq); simplify_eq; exfalso; by eapply Hfresh.
    + intros i t [[_ Hold]|[_ <-]]%lookup_snoc_Some; eauto. done.
  - constructor; simpl; try done.
    + intros q u [[-> [[= ] ?]]|[Hne Hq]]%list_lookup_insert_Some. eauto.
    + intros u q Hf. destruct (Hfetch _ _ Hf) as [st Hst].
      destruct (decide (p = q)) as [<-|Hne].
      * rewrite Hp in Hst. injection Hst as <- <-. exists (Some r).
        apply list_lookup_insert_eq. by eapply lookup_lt_Some.
      * exists st. by rewrite list_lookup_insert_ne.
  - constructor; simpl; try done.
    + intros j c s q [[-> [[= <- <-] ?]]|[Hne Hj]]%list_lookup_insert_Some Hor; [done | eauto].
    + intros j1 j2 c1 s1 c2 s2 q
        [[-> [[= <- <-] ?]]|[Hne1 Hj1]]%list_lookup_insert_Some
        [[-> [[= <- <-] ?]]|[Hne2 Hj2]]%list_lookup_insert_Some; try done. eauto.
    + intros j t [[-> [<- ?]]|[Hne Hj]]%list_lookup_insert_Some; [|eauto].
      apply Htasks in Hi. by destruct call.
  - assert (∀ j c s, ts !! j = Some (c, s) → originator s ≠ Some (length ps)) as Hfresh.
    { intros j c s Hj Ho. apply (Horig _ _ _ _ Hj), Hfetch in Ho as [st Hst].
      apply lookup_lt_Some in Hst. lia. }
    constructor; simpl.
    + intros p u [[_ Hold]|[-> [= <-]]]%lookup_snoc_Some.
      * apply Hpend in Hold. rewrite lookup_insert_ne; [done | congruence].
      * apply lookup_insert_eq.
    + intros u p [[<- <-]|[Hne Hold]]%lookup_insert_Some.
      * exists None. apply snoc_lookup.
      * apply Hfetch in Hold as [st Hst]. exists st. by apply lookup_app_l_Some.
    + intros j c s q [[-> [[= <- <-] ?]]|[Hne Hj]]%list_lookup_insert_Some Hor.
      * simpl in Hor. injection Hor as <-. apply lookup_insert_eq.
      * pose proof (Horig _ _ _ _ Hj Hor) as Hf.
        rewrite lookup_insert_ne; [done | congruence].
    + intros j1 j2 c1 s1 c2 s2 q
        [[-> [[= <- <-] ?]]|[Hne1 Hj1]]%list_lookup_insert_Some
        [[-> [[= <- <-] ?]]|[Hne2 Hj2]]%list_lookup_insert_Some Ho1 Ho2; simpl in *;
        try done; try (by eapply Huniq); simplify_eq; exfalso; by eapply Hfresh.
    + intros j t [[-> [<- ?]]|[Hne Hj]]%list_lookup_insert_Some; [|eauto].
      apply Htasks in Hi. by destruct call.
  - pose proof (Horig _ _ _ _ Hi Ho) as Hf.
    constructor; simpl; try done.
    + intros q u Hq. pose proof (Hpend _ _ Hq) as Hfq.
      destruct (decide (call_uri call = u)) as [<-|Hne].
      * rewrite Hf in Hfq. injection Hfq as <-. congruence.
      * by rewrite lookup_delete_ne.
    + intros u q [Hne Hq]%lookup_delete_Some. eauto.
    + intros j c s q [[-> [[= <- <-] ?]]|[Hne Hj]]%list_lookup_insert_Some Hor.
      * by rewrite (originator_returned _ _ _ Ho) in Hor.
      * pose proof (Horig _ _ _ _ Hj Hor) as Hfj.
        destruct (decide (call_uri call = call_uri c)) as [Heq|Hneq].
        -- rewrite <- Heq, Hf in Hfj. injection Hfj as <-.
           exfalso. apply Hne. by eapply Huniq.
        -- by rewrite lookup_delete_ne.
    + intros j1 j2 c1 s1 c2 s2 q
        [[-> [[= <- <-] ?]]|[Hne1 Hj1]]%list_lookup_insert_Some
        [[-> [[= <- <-] ?]]|[Hne2 Hj2]]%list_lookup_insert_Some Ho1 Ho2;
        rewrite ?(originator_returned _ _ _ Ho) in *; try done. eauto.
    + intros j t [[-> [<- ?]]|[Hne Hj]]%list_lookup_insert_Some; [|eauto].
      eapply taskOk_returned; eauto.
  - constructor; simpl; try done.
    + intros j c0 s q [[-> [[= <- <-] ?]]|[Hne Hj]]%list_lookup_insert_Some Hor; [done | eauto].
    + intros j1 j2 c1 s1 c2 s2 q
        [[-> [[= <- <-] ?]]|[Hne1 Hj1]]%list_lookup_insert_Some
        [[-> [[= <- <-] ?]]|[Hne2 Hj2]]%list_lookup_insert_Some; try done. eauto.
    + intros j t [[-> [<- ?]]|[Hne Hj]]%list_lookup_insert_Some; [|eauto].
      eapply taskOk_locate; eauto.
Qed.

Section Runs.
Context {PB : Type} `{!PenaltyBox PB}.
Implicit Types (w : World PB).

Lemma run_invariant (P : World PB → Prop) :
  (∀ a w w', P w → exec a w = Some w' → P w') →
  ∀ acts w w', P w → run acts w = Some w' → P w'.
Proof.
  intros Hstep acts. induction acts as [|a acts IH]; intros w w' HP; simpl.
  - by intros [= <-].
  - destruct (exec a w) as [w1|] eqn:Ha; [|done]. simpl. eauto.
Qed.

Lemma run_app acts1 acts2 w :
  run (acts1 ++ acts2) w = run acts1 w ≫= run acts2.
Proof.
  revert w. induction acts1 as [|a acts1 IH]; intros w; simpl; [done|].
  destruct (exec a w); simpl; [apply IH | done].
Qed.

Lemma Inv_new (pb : PB) parser : Inv (core (newWorld pb parser)).
Proof. by constructor. Qed.

Lemma Inv_exec a w w' : Inv (core w) → exec a w = Some w' → Inv (core w').
Proof. intros HI Ha. eapply Inv_step; [by eapply exec_coreStep | done]. Qed.

Lemma Inv_run acts w w' : Inv (core w) → run acts w = Some w' → Inv (core w').
Proof. apply (run_invariant (λ w0 : World PB, Inv (core w0))). intros. by eapply Inv_exec. Qed.

Lemma reachable_Inv w : reachable w → Inv (core w).
Proof. intros (pb & parser & acts & Hrun). eapply Inv_run; [apply Inv_new | done]. Qed.

Lemma reachable_run acts w w' : reachable w → run acts w = Some w' → reachable w'.
Proof.
  intros (pb & parser & acts0 & Hrun0) Hrun. exists pb, parser, (acts0 ++ acts)%list.
  rewrite run_app, Hrun0. done.
Qed.

(** At most one fetch per URI is in flight. *)
Lemma one_outstanding w uri p q :
  reachable w →
  promises w !! p = Some (uri, None) → promises w !! q = Some (uri, None) → p = q.
Proof.
  intros [Hpend _ _ _ _]%reachable_Inv Hp Hq.
  apply Hpend in Hp, Hq. simpl in *. congruence.
Qed.

Lemma outstanding_In w uri p :
  In p (outstanding uri w) ↔ promises w !! p = Some (uri, None).
Proof.
  unfold outstanding. rewrite filter_In, in_seq. split.
  - intros [_ Hp]. destruct (promises w !! p) as [[u [r|]]|]; try done.
    by apply bool_decide_eq_true_1 in Hp as ->.
  - intros Hp. split; [apply lookup_lt_Some in Hp; lia|].
    rewrite Hp. by apply bool_decide_eq_true_2.
Qed.

Lemma outstanding_at_most_one w uri : reachable w → length (outstanding uri w) ≤ 1.
Proof.
  intros Hreach.
  assert (List.NoDup (outstanding uri w)) as Hnodup.
  { apply List.NoDup_filter, List.seq_NoDup. }
  destruct (outstanding uri w) as [|p [|q rest]] eqn:Ho; simpl; [lia | lia |].
  assert (p = q) as ->.
  { apply (one_outstanding w uri); [done | |]; apply outstanding_In; rewrite Ho; simpl; auto. }
  inversion Hnodup as [|? ? Hnotin _]. exfalso. apply Hnotin. by left.
Qed.

End Runs.

(** ** Callers that arrive while a fetch is in flight *)

Lemma fetchCount_app uri tr evs :
  fetchCount uri (tr ++ evs) = fetchCount uri tr + fetchCount uri evs.
Proof. unfold fetchCount. by rewrite List.filter_app, length_app. Qed.

Lemma fetchCount_other uri evs :
  forallb (λ e, negb (isFetch e)) evs = true → fetchCount uri evs = 0.
Proof.
  unfold fetchCount. induction evs as [|e evs IH]; simpl; [done|].
  intros [He Hevs]%andb_true_iff. rewrite bool_decide_eq_false_2; [by apply IH|].
  intros ->. done.
Qed.

Lemma fetchCount_fetch uri u :
  fetchCount uri [EvFetch u] = if decide (u = uri) then 1 else 0.
Proof.
  unfold fetchCount. simpl. case_decide as Hu.
  - subst. by rewrite bool_decide_eq_true_2.
  - rewrite bool_decide_eq_false_2; [done | congruence].
Qed.

Lemma Window_step uri t0 c0 k k' :
  coreStep k k' → Inv k → noCompletion uri k k' → Window uri t0 c0 k → Window uri t0 c0 k'.
Proof.
  intros Hstep [Hpend Hfetch Horig Huniq Htasks] Hnc [Hwp Hwc Hcount Hlen].
  unfold noCompletion in Hnc.
  inversion Hstep as
    [ ps fj ts tr
    | ps fj ts tr call st evs Hnot Haw Hok Hevs
    | ps fj ts tr u Hnone
    | ps fj ts tr p u r Hp
    | ps fj ts tr i call kid p Hi Hf
    | ps fj ts tr i call kid Hi Hnone'
    | ps fj ts tr i call st p u r Hi Ho Hp
    | ps fj ts tr i u jwt kid c r evs Hi Hr Hevs ];
    subst; simpl in *.
  - by constructor.
  - constructor; simpl; try done.
    + intros i c s p Hge [[_ Hold]|[_ [= <- <-]]]%lookup_snoc_Some Hu Hawait; [eauto|].
      rewrite <- Hu. by apply Haw.
    + by rewrite fetchCount_app, (fetchCount_other _ _ Hevs), Nat.add_0_r.
    + rewrite length_app. lia.
  - destruct (decide (u = uri)) as [->|Hne].
    + constructor; simpl.
      * intros p. rewrite lookup_insert_eq. intros [= <-]. apply snoc_lookup.
      * intros i c s p Hge [[_ Hold]|[_ [= <- <-]]]%lookup_snoc_Some Hu Hawait.
        -- pose proof (Hwc _ _ _ _ Hge Hold Hu Hawait). congruence.
        -- simpl in Hawait. injection Hawait as <-. apply lookup_insert_eq.
      * rewrite fetchCount_app, fetchCount_fetch, Hcount, Hnone, lookup_insert_eq.
        rewrite decide_True; [lia | done].
      * rewrite length_app. lia.
    + constructor; simpl.
      * intros p. rewrite lookup_insert_ne; [|done]. intros Hp.
        by apply lookup_app_l_Some, Hwp.
      * intros i c s p Hge [[_ Hold]|[_ [= <- <-]]]%lookup_snoc_Some Hu Hawait; [|done].
        rewrite lookup_insert_ne; [|done]. eauto.
      * rewrite fetchCount_app, fetchCount_fetch, Hcount, lookup_insert_ne; [|done].
        rewrite decide_False; [lia | done].
      * rewrite length_app. lia.
  - assert (u ≠ uri) as Hne.
    { intros ->. pose proof (Hnc _ Hp) as Hp'.
      rewrite list_lookup_insert_eq in Hp'; [done | by eapply lookup_lt_Some]. }
    constructor; simpl; try done.
    intros q Hq. pose proof (Hwp _ Hq) as Hpq.
    rewrite list_lookup_insert_ne; [done|]. intros <-. congruence.
  - constructor; simpl; try done.
    + intros j c s q Hge [[-> [[= <- <-] ?]]|[Hne Hj]]%list_lookup_insert_Some Hu Hawait;
        [|eauto].
      simpl in Hawait. injection Hawait as <-. by rewrite <- Hu.
    + by rewrite length_insert.
  - destruct (decide (call_uri call = uri)) as [Hu|Hne].
    + rewrite Hu in *. constructor; simpl.
      * intros p. rewrite lookup_insert_eq. intros [= <-]. apply snoc_lookup.
      * intros j c s q Hge [[-> [[= <- <-] ?]]|[Hne Hj]]%list_lookup_insert_Some Hcu Hawait.
        -- simpl in Hawait. injection Hawait as <-. apply lookup_insert_eq.
        -- pose proof (Hwc _ _ _ _ Hge Hj Hcu Hawait). congruence.
      * rewrite fetchCount_app, fetchCount_fetch, Hcount, Hnone', lookup_insert_eq.
        rewrite decide_True; [lia | done].
      * by rewrite length_insert.
    + constructor; simpl.
      * intros p. rewrite lookup_insert_ne; [|done]. intros Hp.
        by apply lookup_app_l_Some, Hwp.
      * intros j c s q Hge [[-> [[= <- <-] ?]]|[Hnej Hj]]%list_lookup_insert_Some Hcu Hawait;
          [done|].
        rewrite lookup_insert_ne; [|done]. eauto.
      * rewrite fetchCount_app, fetchCount_fetch, Hcount, lookup_insert_ne; [|done].
        rewrite decide_False; [lia | done].
      * by rewrite length_insert.
  - assert (call_uri call ≠ uri) as Hne.
    { intros Hu. pose proof (Horig _ _ _ _ Hi Ho) as Hf. rewrite Hu in Hf.
      apply Hwp in Hf. congruence. }
    constructor; simpl.
    + intros q. rewrite lookup_delete_ne; [|done]. apply Hwp.
    + intros j c s q Hge [[-> [[= <- <-] ?]]|[Hnej Hj]]%list_lookup_insert_Some Hcu Hawait;
        [done|].
      rewrite lookup_delete_ne; [|done]. eauto.
    + by rewrite lookup_delete_ne.
    + by rewrite length_insert.
  - constructor; simpl; try done.
    + intros j c0' s q Hge [[-> [[= <- <-] ?]]|[Hnej Hj]]%list_lookup_insert_Some Hcu Hawait;
        [done | eauto].
    + by rewrite fetchCount_app, (fetchCount_other _ _ Hevs), Nat.add_0_r.
    + by rewrite length_insert.
Qed.

Lemma delivered_not_awaited call st r : delivered (call, st) r → awaited st = None.
Proof. by destruct call, st as [[]| |? []|]. Qed.

Lemma hangsOn_step p i call k k' :
  coreStep k k' → Inv k → hangsOn p i call k → hangsOn p i call k'.
Proof.
  intros Hstep [Hpend Hfetch Horig Huniq Htasks] (st & Hst & Hcase).
  unfold hangsOn.
  inversion Hstep as
    [ ps fj ts tr
    | ps fj ts tr call' st' evs Hnot Haw Hok Hevs
    | ps fj ts tr u Hnone
    | ps fj ts tr q u r Hq
    | ps fj ts tr j call' kid q Hj Hf
    | ps fj ts tr j call' kid Hj Hnone'
    | ps fj ts tr j call' st' q u r Hj Ho Hq
    | ps fj ts tr j u jwt kid c r evs Hj Hr Hevs ];
    subst; simpl in *.
  - eauto.
  - exists st. split; [by apply lookup_app_l_Some | done].
  - exists st. split; [by apply lookup_app_l_Some|].
    destruct Hcase as [?|(u' & r & Hp & Hd)]; [by left|].
    right. exists u', r. split; [by apply lookup_app_l_Some | done].
  - exists st. split; [done|].
    destruct Hcase as [?|(u' & r' & Hp & Hd)]; [by left|].
    right. exists u', r'. split; [|done].
    rewrite list_lookup_insert_ne; [done|]. intros <-. congruence.
  - destruct (decide (j = i)) as [->|Hne].
    + rewrite Hj in Hst. injection Hst as -> <-.
      destruct Hcase as [?|(u' & r' & Hp & Hd)]; [done|]. by destruct call.
    + exists st. by rewrite list_lookup_insert_ne.
  - destruct (decide (j = i)) as [->|Hne].
    + rewrite Hj in Hst. injection Hst as -> <-.
      destruct Hcase as [?|(u' & r' & Hp & Hd)]; [done|]. by destruct call.
    + exists st. rewrite list_lookup_insert_ne; [|done]. split; [done|].
      destruct Hcase as [?|(u' & r' & Hp & Hd)]; [by left|].
      right. exists u', r'. split; [by apply lookup_app_l_Some | done].
  - destruct (decide (j = i)) as [->|Hne].
    + rewrite Hj in Hst. injection Hst as -> ->.
      exists (returned st r). split.
      { apply list_lookup_insert_eq. by eapply lookup_lt_Some. }
      right. exists u, r.
      assert (awaited st = Some q) as Hawq by (by destruct st as [[]| |? []|]).
      destruct Hcase as [Haw|(u' & r' & Hp & Hd)].
      * rewrite Hawq in Haw. injection Haw as <-. split; [done|].
        pose proof (Htasks _ _ Hj) as Hok.
        by destruct call, st as [[]| |? []|].
      * apply delivered_not_awaited in Hd. congruence.
    + exists st. by rewrite list_lookup_insert_ne.
  - destruct (decide (j = i)) as [->|Hne].
    + rewrite Hj in Hst. injection Hst as <- <-.
      exists (Done (locate kid r)). split.
      { apply list_lookup_insert_eq. by eapply lookup_lt_Some. }
      pose proof (Htasks _ _ Hj) as Hok. simpl in Hok.
      right. destruct Hr as [->|(q & u' & -> & Hq)].
      * destruct Hcase as [?|(u' & r' & Hp & Hd)]; [done|].
        simpl in Hd. subst r'. exists u', r. split; [done|]. simpl. eauto.
      * destruct Hcase as [Haw|(u'' & r' & Hp & Hd)]; [|done].
        simpl in Haw. injection Haw as <-. exists u', r. split; [done|]. simpl. eauto.
    + exists st. by rewrite list_lookup_insert_ne.
Qed.

Section Windows.
Context {PB : Type} `{!PenaltyBox PB}.
Implicit Types (w : World PB).

Lemma getJwk_finish_promises uri kid r w :
  promises (getJwk_finish uri kid r w).2 = promises w.
Proof.
  unfold getJwk_finish. destruct r as [jwks|e]; [|done].
  by destruct (findJwkInJwks jwks kid).
Qed.

Lemma getJwks_call_promises uri w :
  ∃ extra, promises (getJwks_call uri w).2 = (promises w ++ extra)%list.
Proof.
  unfold getJwks_call. destruct (fetchingJwks (cache w) !! uri).
  - exists []. by rewrite app_nil_r.
  - by eexists [_].
Qed.

Lemma exec_promises_grow a w w' :
  exec a w = Some w' → (∀ p fr, a ≠ ActSettle p fr) →
  ∃ extra, promises w' = (promises w ++ extra)%list.
Proof.
  assert (∃ extra, promises w = (promises w ++ extra)%list) as Hsame.
  { exists []. by rewrite app_nil_r. }
  destruct a as [uri jwks | uri | uri jwt | p fetched | i | pb]; simpl; intros Hex Hns.
  - by injection Hex as <-.
  - destruct (getJwks_call_promises uri w) as [extra He].
    destruct (getJwks_call uri w) as [c w1]. injection Hex as <-. by exists extra.
  - unfold getJwk_call in Hex.
    destruct (headerKid jwt) as [kid|]; [|by injection Hex as <-].
    destruct (match jwksCache (cache w) !! uri with
              | Some cachedJwks => findJwkInJwks cachedJwks kid
              | None => None
              end); [by injection Hex as <-|].
    destruct (pb_wait uri kid (penaltyBox (cache w))) as [[[]|e] pb];
      by injection Hex as <-.
  - by destruct (Hns p fetched).
  - destruct (tasks w !! i) as [[call st]|]; [|done]. simpl in Hex.
    destruct call as [uri|uri jwt], st as [[p|p|r]|kid|kid [p|p|r]|r]; simpl in Hex; try done.
    + destruct (outcome w p) as [[jwks|e]|]; simpl in Hex; [| |done]; by injection Hex as <-.
    + destruct (getJwks_call_promises uri w) as [extra He].
      destruct (getJwks_call uri w) as [c w1]. injection Hex as <-. by exists extra.
    + destruct (outcome w p) as [[jwks|e]|]; simpl in Hex; [| |done]; by injection Hex as <-.
    + destruct (outcome w p) as [r|]; simpl in Hex; [|done].
      pose proof (getJwk_finish_promises uri kid r w) as Hp.
      destruct (getJwk_finish uri kid r w) as [st w1]. injection Hex as <-.
      simpl in *. rewrite Hp. done.
    + pose proof (getJwk_finish_promises uri kid r w) as Hp.
      destruct (getJwk_finish uri kid r w) as [st w1]. injection Hex as <-.
      simpl in *. rewrite Hp. done.
  - by injection Hex as <-.
Qed.

Lemma exec_noCompletion uri a w w' :
  completes uri a w = false → exec a w = Some w' → noCompletion uri (core w) (core w').
Proof.
  intros Hc Hex q Hq. simpl in *.
  assert ((∃ p fr, a = ActSettle p fr) ∨ ∀ p fr, a ≠ ActSettle p fr) as [(p & fr & ->)|Hns].
  { destruct a; eauto. }
  - simpl in *. destruct (promises w !! p) as [[u [r|]]|] eqn:Hp; try done.
    injection Hex as <-. simpl. rewrite list_lookup_insert_ne; [done|].
    intros <-. rewrite Hp in Hq. injection Hq as ->.
    by rewrite bool_decide_eq_true_2 in Hc.
  - destruct (exec_promises_grow a w w' Hex Hns) as [extra ->].
    by apply lookup_app_l_Some.
Qed.

Lemma Window_run uri t0 c0 acts w w' :
  Inv (core w) → Window uri t0 c0 (core w) →
  runBeforeCompletion uri acts w = Some w' →
  Inv (core w') ∧ Window uri t0 c0 (core w').
Proof.
  revert w. induction acts as [|a acts IH]; intros w HI HW; simpl.
  - by intros [= <-].
  - destruct (completes uri a w) eqn:Hc; [done|].
    destruct (exec a w) as [w1|] eqn:Ha; [|done]. simpl.
    apply IH; [by eapply Inv_exec|].
    eapply Window_step; eauto using exec_coreStep, exec_noCompletion.
Qed.

Lemma Window_start uri w :
  fetchingJwks (cache w) !! uri = None →
  Window uri (length (tasks w)) (fetchCount uri (trace w)) (core w).
Proof.
  intros Hnone. constructor; simpl; try done.
  - by rewrite Hnone.
  - intros i call st p Hge Hi. apply lookup_lt_Some in Hi.
    exfalso. eapply Nat.lt_irrefl, Nat.lt_le_trans; eauto.
  - by rewrite Hnone, Nat.add_0_r.
Qed.

Lemma hangsOn_run p i call acts w w' :
  Inv (core w) → hangsOn p i call (core w) → run acts w = Some w' →
  hangsOn p i call (core w').
Proof.
  intros HI Hh Hrun.
  cut (Inv (core w') ∧ hangsOn p i call (core w')); [by intros [_ ?]|].
  revert Hrun.
  apply (run_invariant (λ w0 : World PB, Inv (core w0) ∧ hangsOn p i call (core w0)));
    [|done].
  intros a w1 w2 [HI1 Hh1] Ha. split; [by eapply Inv_exec|].
  eapply hangsOn_step; eauto using exec_coreStep.
Qed.

End Windows.

(** ** The callers are served *)

Lemma coreStep_settled k k' p u r :
  coreStep k k' →
  c_promises k !! p = Some (u, Some r) → c_promises k' !! p = Some (u, Some r).
Proof.
  intros Hstep Hp.
  inversion Hstep as
    [ ps fj ts tr
    | ps fj ts tr call st evs Hnot Haw Hok Hevs
    | ps fj ts tr uri Hnone
    | ps fj ts tr q uri r0 Hq
    | ps fj ts tr i call kid q Hi Hf
    | ps fj ts tr i call kid Hi Hnone
    | ps fj ts tr i call st q uri r0 Hi Ho Hq
    | ps fj ts tr i uri jwt kid c r0 evs Hi Hr Hevs ];
    subst; simpl in *; try done.
  - by apply lookup_app_l_Some.
  - rewrite list_lookup_insert_ne; [done|]. intros <-. congruence.
  - by apply lookup_app_l_Some.
Qed.

Section Delivery.
Context {PB : Type} `{!PenaltyBox PB}.
Implicit Types (w : World PB).

Lemma exec_jwksParser a w w' :
  exec a w = Some w' → jwksParser (cache w') = jwksParser (cache w).
Proof.
  destruct a as [uri jwks | uri | uri jwt | p fetched | i | pb]; simpl.
  - by intros [= <-].
  - unfold getJwks_call. destruct (fetchingJwks (cache w) !! uri); by intros [= <-].
  - unfold getJwk_call. destruct (headerKid jwt) as [kid|]; [|by intros [= <-]].
    destruct (match jwksCache (cache w) !! uri with
              | Some cachedJwks => findJwkInJwks cachedJwks kid
              | None => None
              end); [by intros [= <-]|].
    destruct (pb_wait uri kid (penaltyBox (cache w))) as [[[]|e] pb]; by intros [= <-].
  - destruct (promises w !! p) as [[uri [r|]]|]; [done| |done]. by intros [= <-].
  - destruct (tasks w !! i) as [[call st]|]; [|done]. simpl.
    destruct call as [uri|uri jwt], st as [[q|q|r]|kid|kid [q|q|r]|r]; simpl; try done.
    + destruct (outcome w q) as [[jwks|e]|]; simpl; [| |done]; by intros [= <-].
    + unfold getJwks_call. destruct (fetchingJwks (cache w) !! uri); by intros [= <-].
    + destruct (outcome w q) as [[jwks|e]|]; simpl; [| |done]; by intros [= <-].
    + destruct (outcome w q) as [r|]; simpl; [|done]. unfold getJwk_finish.
      destruct r as [jwks|e]; [destruct (findJwkInJwks jwks kid)|]; by intros [= <-].
    + unfold getJwk_finish.
      destruct r as [jwks|e]; [destruct (findJwkInJwks jwks kid)|]; by intros [= <-].
  - by intros [= <-].
Qed.

Lemma run_jwksParser acts w w' :
  run acts w = Some w' → jwksParser (cache w') = jwksParser (cache w).
Proof.
  intros Hrun.
  apply (run_invariant (λ w0 : World PB, jwksParser (cache w0) = jwksParser (cache w)))
    with acts w; [|done|done].
  intros a w1 w2 H1 Ha. by rewrite (exec_jwksParser a w1 w2 Ha).
Qed.

Lemma runBeforeCompletion_run uri acts w w' :
  runBeforeCompletion uri acts w = Some w' → run acts w = Some w'.
Proof.
  revert w. induction acts as [|a acts IH]; intros w; simpl; [done|].
  destruct (completes uri a w); [done|].
  destruct (exec a w) as [w1|]; simpl; [apply IH | done].
Qed.

Lemma run_settled acts w w' p r :
  run acts w = Some w' → outcome w p = Some r → outcome w' p = Some r.
Proof.
  intros Hrun Hp.
  apply (run_invariant (λ w0 : World PB, outcome w0 p = Some r)) with acts w; [|done|done].
  intros a w1 w2 H1 Ha. unfold outcome in *.
  destruct (promises w1 !! p) as [[u [r1|]]|] eqn:Hp1; [|done..]. injection H1 as ->.
  pose proof (coreStep_settled (core w1) (core w2) p u r (exec_coreStep a w1 w2 Ha) Hp1) as Hp2.
  simpl in Hp2. by rewrite Hp2.
Qed.

(** A caller that waits on a settled promise, or whose [getJwks] has
    returned, can run to its end, and ends with the outcome in hand. *)
Lemma continuation_delivers w i call st p r :
  taskOk (call, st) →
  tasks w !! i = Some (call, st) →
  awaited st = Some p ∨ delivered (call, st) r →
  outcome w p = Some r →
  ∃ st', tasks (runEnabled [ActResume i; ActResume i] w) !! i = Some (call, st') ∧
         received (runEnabled [ActResume i; ActResume i] w) (call, st') r.
Proof.
  intros Hok Hi Hcase Hr.
  assert (i < length (tasks w)) as Hlt by (by eapply lookup_lt_Some).
  remember (runEnabled [ActResume i; ActResume i] w) as w' eqn:Hw'.
  destruct w as [c ps ts tr]. simpl in *.
  destruct call as [uri|uri jwt], st as [[q|q|r0]|kid|kid [q|q|r0]|r0]; simpl in *; try done;
    try (destruct Hcase as [[= ->]|Hd]; [|try done]);
    try (destruct Hcase as [[=]|Hd]); try done.
  - (* [getJwks], the caller that made the promise *)
    step Hw'. rewrite Hi in Hw'. world_simpl Hw'. rewrite Hr in Hw'. world_simpl Hw'.
    unfold getJwks_resume in Hw'.
    destruct r as [jwks|e]; world_simpl Hw'; step Hw';
      rewrite list_lookup_insert_eq in Hw' by done; world_simpl Hw';
      unfold runEnabled in Hw'; subst w'; simpl;
      rewrite list_lookup_insert_eq by done; by eexists.
  - (* [getJwks], a caller that was handed the promise *)
    step Hw'. rewrite Hi in Hw'. world_simpl Hw'.
    step Hw'. rewrite Hi in Hw'. world_simpl Hw'.
    unfold runEnabled in Hw'. subst w'. simpl. rewrite Hi. by eexists.
  - (* [getJwks] has returned *)
    subst r0. step Hw'. rewrite Hi in Hw'. world_simpl Hw'.
    step Hw'. rewrite Hi in Hw'. world_simpl Hw'.
    unfold runEnabled in Hw'. subst w'. simpl. rewrite Hi. by eexists.
  - (* [getJwk], which made the promise *)
    step Hw'. rewrite Hi in Hw'. world_simpl Hw'. rewrite Hr in Hw'. world_simpl Hw'.
    unfold getJwks_resume in Hw'.
    destruct r as [jwks|e]; world_simpl Hw'; step Hw';
      rewrite list_lookup_insert_eq in Hw' by done; world_simpl Hw';
      unfold getJwk_finish in Hw';
      [destruct (findJwkInJwks jwks kid) as [jwk|] eqn:Hfind|]; world_simpl Hw';
      rewrite list_insert_insert_eq in Hw';
      unfold runEnabled in Hw'; subst w'; simpl;
      rewrite list_lookup_insert_eq by done;
      (eexists; split; [done|]); exists kid; (split; [done|]); simpl; by rewrite ?Hfind.
  - (* [getJwk], which joined the fetch *)
    step Hw'. rewrite Hi in Hw'. world_simpl Hw'. rewrite Hr in Hw'. world_simpl Hw'.
    unfold getJwk_finish in Hw'.
    destruct r as [jwks|e]; [destruct (findJwkInJwks jwks kid) as [jwk|] eqn:Hfind|];
      world_simpl Hw'; step Hw';
      rewrite list_lookup_insert_eq in Hw' by done; world_simpl Hw';
      unfold runEnabled in Hw'; subst w'; simpl;
      rewrite list_lookup_insert_eq by done;
      (eexists; split; [done|]); exists kid; (split; [done|]); simpl; by rewrite ?Hfind.
  - (* [getJwk], whose [getJwks] has returned *)
    subst r0. step Hw'. rewrite Hi in Hw'. world_simpl Hw'.
    unfold getJwk_finish in Hw'.
    destruct r as [jwks|e]; [destruct (findJwkInJwks jwks kid) as [jwk|] eqn:Hfind|];
      world_simpl Hw'; step Hw';
      rewrite list_lookup_insert_eq in Hw' by done; world_simpl Hw';
      unfold runEnabled in Hw'; subst w'; simpl;
      rewrite list_lookup_insert_eq by done;
      (eexists; split; [done|]); exists kid; (split; [done|]); simpl; by rewrite ?Hfind.
  - (* [getJwk] has answered *)
    step Hw'. rewrite Hi in Hw'. world_simpl Hw'.
    step Hw'. rewrite Hi in Hw'. world_simpl Hw'.
    unfold runEnabled in Hw'. subst w'. simpl. rewrite Hi. by eexists.
Qed.

End Delivery.

Section Served.
Context {PB : Type} `{!PenaltyBox PB}.
Implicit Types (w : World PB).

Lemma served_after_run w i call st p acts w' r :
  Inv (core w) →
  tasks w !! i = Some (call, st) → awaited st = Some p →
  run acts w = Some w' → outcome w' p = Some r →
  ∃ st', tasks (runEnabled [ActResume i; ActResume i] w') !! i = Some (call, st') ∧
         received (runEnabled [ActResume i; ActResume i] w') (call, st') r.
Proof.
  intros HI Hi Haw Hrun Hr.
  destruct (hangsOn_run p i call acts w w' HI) as (st1 & Hst1 & Hcase); [|done|].
  { exists st. split; [done | by left]. }
  pose proof (Inv_run acts w w' HI Hrun) as [_ _ _ _ Htasks]. simpl in *.
  apply (continuation_delivers w' i call st1 p r); [by eapply Htasks | done | | done].
  destruct Hcase as [?|(u & r' & Hp & Hd)]; [by left|]. right.
  unfold outcome in Hr. rewrite Hp in Hr. by injection Hr as <-.
Qed.

End Served.

(** C2. In every state the cache can reach, each URI has at most one
    promise that is not settled: at most one fetch is outstanding. From a reachable state with no fetch in
    flight for [uri], and along any schedule of calls, continuations and
    completions of other fetches, up to the completion of a fetch for [uri]:
    the fetcher is called at most once for [uri]; every caller that arrived
    in that time and waits for a key set of [uri] waits on one and the same
    promise, the one in [fetchingJwks], made by exactly one call of the
    fetcher. And whatever runs afterwards, a caller that waits on a promise
    either still waits on it or was given that promise's outcome: [getJwks]
    returned it, or [getJwk] answered with the kid looked up in it. Every
    caller is served: once the promise a caller waits on is settled, and
    whatever else has run, the caller's continuations are enabled, and
    running them leaves the caller with the outcome of the promise in hand.
    So when the one fetch for [uri] ends with [fetched], every caller that
    arrived while it was in flight receives what the parser makes of
    [fetched], or the error of the fetch. *)
Theorem single_flight_fetch {PB : Type} `{!PenaltyBox PB} (w : World PB) (uri : string) :
  reachable w →
  length (outstanding uri w) ≤ 1 ∧
  (∀ p q, promises w !! p = Some (uri, None) → promises w !! q = Some (uri, None) → p = q) ∧
  (fetchingJwks (cache w) !! uri = None →
   ∀ acts w', runBeforeCompletion uri acts w = Some w' →
     fetchCount uri (trace w') ≤ fetchCount uri (trace w) + 1 ∧
     ∀ i call st p,
       length (tasks w) ≤ i → tasks w' !! i = Some (call, st) →
       call_uri call = uri → awaited st = Some p →
       fetchingJwks (cache w') !! uri = Some p ∧
       promises w' !! p = Some (uri, None) ∧
       fetchCount uri (trace w') = fetchCount uri (trace w) + 1) ∧
  (∀ i call st p acts w',
     tasks w !! i = Some (call, st) → awaited st = Some p → run acts w = Some w' →
     ∃ st', tasks w' !! i = Some (call, st') ∧
            (awaited st' = Some p ∨
             ∃ r, outcome w' p = Some r ∧ delivered (call, st') r)) ∧
  (∀ i call st p acts w' r,
     tasks w !! i = Some (call, st) → awaited st = Some p → run acts w = Some w' →
     outcome w' p = Some r →
     ∃ st', tasks (runEnabled [ActResume i; ActResume i] w') !! i = Some (call, st') ∧
            received (runEnabled [ActResume i; ActResume i] w') (call, st') r) ∧
  (fetchingJwks (cache w) !! uri = None →
   ∀ acts w1 p fetched more w2,
     runBeforeCompletion uri acts w = Some w1 →
     fetchingJwks (cache w1) !! uri = Some p →
     run (ActSettle p fetched :: more) w1 = Some w2 →
     ∀ i call st,
       length (tasks w) ≤ i → tasks w1 !! i = Some (call, st) →
       call_uri call = uri → is_Some (awaited st) →
       ∃ st', tasks (runEnabled [ActResume i; ActResume i] w2) !! i = Some (call, st') ∧
              received (runEnabled [ActResume i; ActResume i] w2) (call, st')
                (bind fetched (jwksParser (cache w)))).
Proof.
  intros Hreach. pose proof (reachable_Inv w Hreach) as HI.
  split; [|split; [|split; [|split; [|split]]]].
  - by apply outstanding_at_most_one.
  - intros p q. by apply one_outstanding.
  - intros Hnone acts w' Hrun.
    destruct (Window_run uri _ _ acts w w' HI (Window_start uri w Hnone) Hrun)
      as [HI' [Hwp Hwc Hcount Hlen]]. simpl in *.
    split.
    + rewrite Hcount. destruct (fetchingJwks (cache w') !! uri); lia.
    + intros i call st p Hge Hi Hu Haw.
      pose proof (Hwc _ _ _ _ Hge Hi Hu Haw) as Hf.
      split; [done|]. split; [by apply Hwp|]. by rewrite Hcount, Hf.
  - intros i call st p acts w' Hi Haw Hrun.
    destruct (hangsOn_run p i call acts w w' HI) as (st' & Hst' & Hcase); [|done|].
    { exists st. split; [done | by left]. }
    exists st'. split; [done|].
    destruct Hcase as [?|(u & r & Hp & Hd)]; [by left|].
    right. exists r. split; [|done]. unfold outcome. simpl in Hp. by rewrite Hp.
  - intros i call st p acts w' r Hi Haw Hrun Hr.
    by apply (served_after_run w i call st p acts w' r).
  - intros Hnone acts w1 p fetched more w2 Hwin Hf Hrun i call st Hge Hi Hu [p' Haw].
    destruct (Window_run uri _ _ acts w w1 HI (Window_start uri w Hnone) Hwin)
      as [HI1 [Hwp Hwc Hcount Hlen]]. simpl in *.
    pose proof (Hwc _ _ _ _ Hge Hi Hu Haw) as Hf'. rewrite Hf in Hf'. injection Hf' as <-.
    pose proof (Hwp p Hf) as Hp.
    pose proof (run_jwksParser acts w w1 (runBeforeCompletion_run uri acts w w1 Hwin)) as Hparser.
    apply (served_after_run w1 i call st p (ActSettle p fetched :: more) w2); [done..|].
    simpl in Hrun. rewrite Hp in Hrun. simpl in Hrun.
    apply (run_settled more _ w2 p _ Hrun).
    unfold outcome. simpl. rewrite list_lookup_insert_eq by (by eapply lookup_lt_Some).
    by rewrite Hparser.
Qed.

(** C8, as the code has it. A JWK that [getCachedJwk] returns, or that a call
    of [getJwk] has returned in any state the cache can reach, has a string
    kid, the one in the header of the JWT; the kid may be any string, the
    empty one too. *)
Theorem resolved_jwk_has_header_kid {PB : Type} `{!PenaltyBox PB} :
  (∀ (c : SimpleJwksCache PB) uri jwt jwk,
      getCachedJwk uri jwt c = Ok jwk →
      ∃ kid, headerKid jwt = Some kid ∧ obj_get jwk "kid" = Some (JString kid)) ∧
  (∀ (w : World PB) i uri jwt jwk,
      reachable w → tasks w !! i = Some (CallGetJwk uri jwt, Done (Ok jwk)) →
      ∃ kid, headerKid jwt = Some kid ∧ obj_get jwk "kid" = Some (JString kid)).
Proof.
  split.
  - intros c uri jwt jwk (kid & jwks & Hkid & _ & Hf)%getCachedJwk_Ok.
    apply findJwkInJwks_Some in Hf as [_ Hf]. eauto.
  - intros w i uri jwt jwk [_ _ _ _ Htasks]%reachable_Inv Hi.
    apply (Htasks i _ Hi).
Qed.

Lemma resolved_jwk_has_header_kid_witness :
  ∃ kid, headerKid jwtK2 = Some kid ∧ obj_get k2First "kid" = Some (JString kid).
Proof.
  apply (proj1 resolved_jwk_has_header_kid cacheK1K2 "https://idp/jwks" jwtK2 k2First).
  reflexivity.
Defined.

(** C8 as stated fails: a JWT whose header kid is the empty string is
    resolved, by [getCachedJwk] and by [getJwk], to a JWK whose kid is the
    empty string. *)
Lemma empty_kid_is_resolved :
  headerKid jwtEmptyKid = Some EmptyString ∧
  obj_get emptyKidJwk "kid" = Some (JString EmptyString) ∧
  getCachedJwk "https://idp/jwks" jwtEmptyKid cacheEmptyKid = Ok emptyKidJwk ∧
  let w := mkWorld cacheEmptyKid [] [] [] in
  tasks (getJwk_alone "https://idp/jwks" jwtEmptyKid (Ok []) w) =
  [(CallGetJwk "https://idp/jwks" jwtEmptyKid, Done (Ok emptyKidJwk))].
Proof. repeat split; vm_compute; reflexivity. Qed.

(** C9. [getJwks] does the same whatever the penalty box holds, leaves it as
    it is and asks nothing of it, at the call and when its fetch has ended.
    So where [penaltyBox.wait] fails, [getJwk] fails with that error and
    does not call the fetcher, while [getJwks] in the same state does call
    it. *)
Theorem getJwks_ignores_penaltyBox {PB : Type} `{!PenaltyBox PB}
    (w : World PB) (uri : string) :
  (∀ pb, getJwks_call uri (set_cache (set_penaltyBox pb (cache w)) w) =
         ((getJwks_call uri w).1,
          set_cache (set_penaltyBox pb (cache (getJwks_call uri w).2))
            (getJwks_call uri w).2)) ∧
  (∀ pb r, getJwks_resume uri r (set_cache (set_penaltyBox pb (cache w)) w) =
           ((getJwks_resume uri r w).1,
            set_cache (set_penaltyBox pb (cache (getJwks_resume uri r w).2))
              (getJwks_resume uri r w).2)) ∧
  penaltyBox (cache (getJwks_call uri w).2) = penaltyBox (cache w) ∧
  (∀ r, penaltyBox (cache (getJwks_resume uri r w).2) = penaltyBox (cache w) ∧
        trace (getJwks_resume uri r w).2 = trace w) ∧
  (fetchingJwks (cache w) !! uri = None →
   trace (getJwks_call uri w).2 = (trace w ++ [EvFetch uri])%list) ∧
  (∀ p, fetchingJwks (cache w) !! uri = Some p → (getJwks_call uri w).2 = w) ∧
  (∀ jwt kid e pb,
      headerKid jwt = Some kid → cachedJwk uri kid (cache w) = None →
      pb_wait uri kid (penaltyBox (cache w)) = (Throw e, pb) →
      (getJwk_call uri jwt w).1 = Done (Throw e) ∧
      trace (getJwk_call uri jwt w).2 = (trace w ++ [EvWait uri kid])%list ∧
      promises (getJwk_call uri jwt w).2 = promises w).
Proof.
  destruct w as [[pb0 parser jc fj] ps ts tr].
  split; [|split; [|split; [|split; [|split; [|split]]]]].
  - intros pb. unfold getJwks_call. simpl. by destruct (fj !! uri).
  - intros pb r. unfold getJwks_resume. simpl. by destruct r.
  - unfold getJwks_call. simpl. by destruct (fj !! uri).
  - intros r. unfold getJwks_resume. simpl. by destruct r.
  - unfold getJwks_call. simpl. by intros ->.
  - intros p. unfold getJwks_call. simpl. by intros ->.
  - intros jwt kid e pb Hkid Hc Hwait.
    unfold getJwk_call, cachedJwk in *. simpl in *. by rewrite Hkid, Hc, Hwait.
Qed.

Lemma getJwks_ignores_penaltyBox_witness :
  (∃ e, (getJwk_call "https://idp/jwks" jwtK2 backedOff).1 = Done (Throw e) ∧
        kind e = WaitPeriodNotYetEndedJwkError) ∧
  trace (getJwk_call "https://idp/jwks" jwtK2 backedOff).2 =
    [EvWait "https://idp/jwks" "k2"] ∧
  trace (getJwks_call "https://idp/jwks" backedOff).2 = [EvFetch "https://idp/jwks"].
Proof.
  destruct (getJwks_ignores_penaltyBox backedOff "https://idp/jwks")
    as (_ & _ & _ & _ & Hfetch & _ & Hwait).
  edestruct (Hwait jwtK2 "k2") as (Hst & Htr & _); [reflexivity..|].
  split; [|split].
  - eexists. split; [exact Hst | reflexivity].
  - exact Htr.
  - apply Hfetch. reflexivity.
Defined.

Section FailedFetch.
Context {PB : Type} `{!PenaltyBox PB}.
Implicit Types (w : World PB).

Lemma getJwks_call_jwksCache uri w :
  jwksCache (cache (getJwks_call uri w).2) = jwksCache (cache w).
Proof. unfold getJwks_call. by destruct (fetchingJwks (cache w) !! uri). Qed.

Lemma originator_cases call st p :
  taskOk (call, st) → originator st = Some p →
  (∃ uri, call = CallGetJwks uri ∧ st = InGetJwks (Originator p)) ∨
  (∃ uri jwt kid, call = CallGetJwk uri jwt ∧ st = AwaitGetJwks kid (Originator p)).
Proof.
  destruct call as [uri|uri jwt], st as [[q|q|r]|kid|kid [q|q|r]|r]; simpl; try done.
  - intros _ [= <-]. left. eauto.
  - intros _ [= <-]. right. eauto.
Qed.

End FailedFetch.

(** C5. In a state the cache can reach, let task [i] be the caller of
    [getJwks] that made promise [p], in flight for [uri], and let the fetch
    or the parse of what was fetched fail with [e]. Once the promise is
    rejected and the caller's continuation has run: [fetchingJwks] has no
    entry for [uri], the cached key sets are what they were, the caller's
    [getJwks] has thrown [e], no other task has changed, and the outcome of
    [p], which is what the callers that joined it are given, is [e]. Calling
    [getJwks] does not change the cached key sets either. *)
Theorem failed_fetch_leaves_cache {PB : Type} `{!PenaltyBox PB}
    (w : World PB) (i p : nat) (call : Call) (st : Status) (uri : string)
    (fetched : result Bytes) (e : Error) :
  reachable w →
  tasks w !! i = Some (call, st) → originator st = Some p →
  promises w !! p = Some (uri, None) →
  bind fetched (jwksParser (cache w)) = Throw e →
  ∃ w', run [ActSettle p fetched; ActResume i] w = Some w' ∧
        fetchingJwks (cache w') !! uri = None ∧
        jwksCache (cache w') = jwksCache (cache w) ∧
        tasks w' = <[i := (call, returned st (Throw e))]> (tasks w) ∧
        outcome w' p = Some (Throw e) ∧
        jwksCallResult w' (Joined p) = Some (Throw e) ∧
        ∀ u, jwksCache (cache (getJwks_call u w).2) = jwksCache (cache w).
Proof.
  intros Hreach Hi Ho Hp Hfail.
  destruct (reachable_Inv w Hreach) as [Hpend Hfetch Horig Huniq Htasks]. simpl in *.
  pose proof (Horig _ _ _ _ Hi Ho) as Hf.
  destruct (Hfetch _ _ Hf) as [s Hs]. rewrite Hp in Hs. injection Hs as -> <-.
  assert (p < length (promises w)) as Hlt by (by eapply lookup_lt_Some).
  destruct w as [[pb parser jc fj] ps ts tr]. simpl in *.
  rewrite Hp. simpl. rewrite Hi. simpl.
  destruct (originator_cases call st p (Htasks _ _ Hi) Ho)
    as [(u & -> & ->)|(u & jwt & kid & -> & ->)]; simpl in *;
    unfold outcome; simpl; rewrite list_lookup_insert_eq by done; simpl;
    rewrite Hfail; simpl; eexists; (split; [reflexivity|]); simpl;
    rewrite lookup_delete_eq, list_lookup_insert_eq by done;
    repeat split; try done; intros u0; apply getJwks_call_jwksCache.
Qed.

Lemma reachable_freshWorld : reachable freshWorld.
Proof. by exists (SimplePenaltyBox.new None 0), servedParser, []. Qed.

Lemma reachable_twoCallers : reachable twoCallers.
Proof.
  exists (SimplePenaltyBox.new None 0), servedParser,
    [ActGetJwks "https://idp/jwks"; ActGetJwks "https://idp/jwks"].
  vm_compute. reflexivity.
Qed.

Lemma failed_fetch_leaves_cache_witness :
  ∃ w', run [ActSettle 0 (Throw connectionReset); ActResume 0] twoCallers = Some w' ∧
        fetchingJwks (cache w') !! "https://idp/jwks" = None ∧
        jwksCache (cache w') = jwksCache (cache twoCallers) ∧
        jwksCallResult w' (Joined 0) = Some (Throw connectionReset).
Proof.
  destruct (failed_fetch_leaves_cache twoCallers 0 0 (CallGetJwks "https://idp/jwks")
              (InGetJwks (Originator 0)) "https://idp/jwks"
              (Throw connectionReset) connectionReset)
    as (w' & Hrun & Hf & Hc & _ & _ & Hj & _);
    [exact reachable_twoCallers | reflexivity..|].
  exists w'. done.
Defined.

Lemma single_flight_fetch_witness :
  (fetchCount "https://idp/jwks" (trace threeCallers) = 1 ∧
   fetchingJwks (cache threeCallers) !! "https://idp/jwks" = Some 0 ∧
   promises threeCallers !! 0 = Some ("https://idp/jwks", None)) ∧
  let settled := runEnabled [ActSettle 0 (Ok [])] threeCallers in
  ∃ st', tasks (runEnabled [ActResume 1; ActResume 1] settled) !! 1
         = Some (CallGetJwk "https://idp/jwks" jwtK2, st') ∧
         received (runEnabled [ActResume 1; ActResume 1] settled)
           (CallGetJwk "https://idp/jwks" jwtK2, st') (Ok (mkJwks [rsaJwk; k2First])).
Proof.
  destruct (single_flight_fetch freshWorld "https://idp/jwks" reachable_freshWorld)
    as (_ & _ & Hwindow & _ & _ & Hserved).
  split.
  - destruct (Hwindow eq_refl
                [ActGetJwks "https://idp/jwks"; ActGetJwk "https://idp/jwks" jwtK2;
                 ActResume 1; ActGetJwks "https://idp/jwks"] threeCallers)
      as [_ Hcallers]; [vm_compute; reflexivity|].
    destruct (Hcallers 1 (CallGetJwk "https://idp/jwks" jwtK2)
                (AwaitGetJwks "k2" (Joined 0)) 0)
      as (Hf & Hp & Hcount); [simpl; lia | reflexivity..|].
    split; [exact Hcount|]. split; [exact Hf | exact Hp].
  - intros settled.
    apply (Hserved eq_refl
             [ActGetJwks "https://idp/jwks"; ActGetJwk "https://idp/jwks" jwtK2;
              ActResume 1; ActGetJwks "https://idp/jwks"] threeCallers 0 (Ok []) [] settled
             ltac:(vm_compute; reflexivity) eq_refl ltac:(vm_compute; reflexivity)
             1 (CallGetJwk "https://idp/jwks" jwtK2) (AwaitGetJwks "k2" (Joined 0))).
    + simpl; lia.
    + reflexivity.
    + reflexivity.
    + by eexists.
Defined.

(** ** The ALB verifier *)

Module AlbJwtVerifierFacts.
Import AlbJwtVerifier.

Lemma assertStringArrayContainsString_fresh ctor name actual expected err :
  assertStringArrayContainsString ctor name actual expected = Throw err →
  kind err = ctor ∧ rawJwt err = None.
Proof.
  unfold assertStringArrayContainsString.
  destruct actual as [j|]; [|by intros [= <-]].
  destruct (falsy j); [by intros [= <-]|].
  destruct j as [| b | m ex | s | items | fs]; try (by intros [= <-]).
  destruct (existsb _ _); [done|]. by intros [= <-].
Qed.

Lemma validateAlbJwtFields_fresh fa hdr options err :
  validateAlbJwtFields fa hdr options = Throw err →
  rawJwt err = None ∧ (kind err = fa ∨ kind err = ParameterValidationError).
Proof.
  unfold validateAlbJwtFields.
  destruct (albArn options) as [| |arns]; cbn [bind].
  - intros [= <-]. auto.
  - destruct (clientId options) as [| |ids]; [by intros [= <-]; auto | done |].
    intros [-> ?]%assertStringArrayContainsString_fresh. auto.
  - destruct (assertStringArrayContainsString fa "ALB ARN" _ arns) as [[]|e0] eqn:Harn;
      cbn [bind].
    + destruct (clientId options) as [| |ids]; [by intros [= <-]; auto | done |].
      intros [-> ?]%assertStringArrayContainsString_fresh. auto.
    + intros [= <-].
      apply assertStringArrayContainsString_fresh in Harn as [-> ?]. auto.
Qed.

Lemma validateAlbJwtFields_signer fa hdr options arns signer :
  albArn options = OneOf arns →
  obj_get hdr "signer" = Some (JString signer) →
  ¬ In signer arns →
  ∃ err, validateAlbJwtFields fa hdr options = Throw err ∧
         kind err = fa ∧ rawJwt err = None.
Proof.
  intros Harn Hsigner Hnot. unfold validateAlbJwtFields.
  rewrite Harn, Hsigner. unfold assertStringArrayContainsString.
  destruct (falsy (JString signer)); [by eexists|].
  assert (existsb (String.eqb signer) arns = false) as ->; [|by eexists].
  apply not_true_is_false. intros (s & Hin & ->%String.eqb_eq)%existsb_exists. done.
Qed.

Lemma rawJwt_rethrow props jwt err :
  rawJwt err = None →
  kind (rethrow props jwt err) = kind err ∧
  message (rethrow props jwt err) = message err ∧
  (rawJwt (rethrow props jwt err) = Some jwt ↔
   includeRawJwtInErrors props = true ∧ isJwtInvalidClaimError (kind err) = true) ∧
  (rawJwt (rethrow props jwt err) = None ↔
   ¬ (includeRawJwtInErrors props = true ∧ isJwtInvalidClaimError (kind err) = true)).
Proof.
  intros Hraw. unfold rethrow.
  destruct (includeRawJwtInErrors props), (isJwtInvalidClaimError (kind err));
    simpl; rewrite ?Hraw; destruct jwt; simpl; intuition congruence.
Qed.

End AlbJwtVerifierFacts.

(** C6. [verify] and [verifySync] run the ALB checks on the header only
    once the base verification, hence the signature check, has passed: an
    error of the base verification is thrown as it is, and when it is the
    signature that failed the error is a [JwtInvalidSignatureError] without
    raw JWT. An error [err] of the ALB checks is thrown with the same class
    and message, and with the decomposed JWT as its [rawJwt] exactly when
    [includeRawJwtInErrors] is set and [err] is a [JwtInvalidClaimError];
    otherwise it has none. A signer that is not among the configured ARNs
    fails with an error of the class that the helper throws when it is
    given none, whatever that class is; with the helper's own default the
    error is a [FailedAssertionError], which is no [JwtInvalidClaimError],
    and it has no [rawJwt], [includeRawJwtInErrors] or not. *)
Theorem alb_checks_follow_signature
    (failedAssertion : ErrorKind) (base : AlbJwtVerifier.Collaborators)
    (jwt : DecomposedJwt) (props : AlbJwtVerifier.VerifyProperties) :
  let verified := AlbJwtVerifier.verify failedAssertion base jwt props in
  AlbJwtVerifier.verifySync failedAssertion base jwt props = verified ∧
  (∀ e, AlbJwtVerifier.verifyDecomposedJwt base jwt props = Throw e → verified = Throw e) ∧
  (AlbJwtVerifier.signatureFails base →
   ∃ e, verified = Throw e ∧ kind e = JwtInvalidSignatureError ∧ rawJwt e = None) ∧
  (AlbJwtVerifier.verifyDecomposedJwt base jwt props = Ok tt →
   ∀ err, AlbJwtVerifier.validateAlbJwtFields failedAssertion (header jwt) props = Throw err →
   ∃ e, verified = Throw e ∧ kind e = kind err ∧ message e = message err ∧
        (rawJwt e = Some jwt ↔
         AlbJwtVerifier.includeRawJwtInErrors props = true ∧
         AlbJwtVerifier.isJwtInvalidClaimError (kind err) = true) ∧
        (rawJwt e = None ↔
         ¬ (AlbJwtVerifier.includeRawJwtInErrors props = true ∧
            AlbJwtVerifier.isJwtInvalidClaimError (kind err) = true))) ∧
  (AlbJwtVerifier.verifyDecomposedJwt base jwt props = Ok tt →
   ∀ arns signer,
     AlbJwtVerifier.albArn props = AlbJwtVerifier.OneOf arns →
     obj_get (header jwt) "signer" = Some (JString signer) →
     ¬ In signer arns →
     (∃ e, verified = Throw e ∧ kind e = failedAssertion ∧
           (rawJwt e = Some jwt ↔
            AlbJwtVerifier.includeRawJwtInErrors props = true ∧
            AlbJwtVerifier.isJwtInvalidClaimError failedAssertion = true)) ∧
     (∃ e, AlbJwtVerifier.verify AlbJwtVerifier.defaultAssertionError base jwt props = Throw e ∧
           AlbJwtVerifier.verifySync AlbJwtVerifier.defaultAssertionError base jwt props
             = Throw e ∧
           kind e = FailedAssertionError ∧
           AlbJwtVerifier.isJwtInvalidClaimError (kind e) = false ∧
           rawJwt e = None)).
Proof.
  intros verified. subst verified. unfold AlbJwtVerifier.verify, AlbJwtVerifier.verifySync.
  split; [reflexivity|]. split; [|split; [|split]].
  - intros e ->. done.
  - intros (jwk & Hjwk & Hsig). unfold AlbJwtVerifier.verifyDecomposedJwt.
    rewrite Hjwk. cbn [bind]. rewrite Hsig. cbn. by eexists.
  - intros -> err Herr. cbn [bind]. rewrite Herr.
    destruct (AlbJwtVerifierFacts.validateAlbJwtFields_fresh _ _ _ _ Herr) as [Hraw _].
    destruct (AlbJwtVerifierFacts.rawJwt_rethrow props jwt err Hraw) as (? & ? & ? & ?).
    by eexists.
  - intros -> arns signer Harn Hsigner Hnot. cbn [bind]. split.
    + destruct (AlbJwtVerifierFacts.validateAlbJwtFields_signer
                  failedAssertion _ _ _ _ Harn Hsigner Hnot)
        as (err & -> & Hkind & Hraw).
      destruct (AlbJwtVerifierFacts.rawJwt_rethrow props jwt err Hraw) as (Hk & _ & Hiff & _).
      eexists. split; [reflexivity|]. split; [by rewrite Hk, Hkind|].
      by rewrite Hiff, Hkind.
    + destruct (AlbJwtVerifierFacts.validateAlbJwtFields_signer
                  AlbJwtVerifier.defaultAssertionError _ _ _ _ Harn Hsigner Hnot)
        as (err & -> & Hkind & Hraw).
      destruct (AlbJwtVerifierFacts.rawJwt_rethrow props jwt err Hraw) as (Hk & _ & _ & Hnone).
      eexists. split; [reflexivity|]. split; [reflexivity|].
      rewrite Hk, Hkind. split; [reflexivity|]. split; [reflexivity|].
      apply Hnone. rewrite Hkind. simpl. intros [_ ?]. done.
Qed.

Lemma alb_checks_follow_signature_witness :
  (∃ e, AlbJwtVerifier.verify AlbJwtVerifier.defaultAssertionError goodSignature
          albToken albProps = Throw e ∧
        kind e = FailedAssertionError ∧ rawJwt e = None) ∧
  (∃ e, AlbJwtVerifier.verify AlbJwtVerifier.defaultAssertionError badSignature
          albToken albProps = Throw e ∧
        kind e = JwtInvalidSignatureError ∧ rawJwt e = None).
Proof.
  split.
  - destruct (alb_checks_follow_signature AlbJwtVerifier.defaultAssertionError
                goodSignature albToken albProps) as (_ & _ & _ & _ & Hsigner).
    edestruct Hsigner as [_ (e & He & _ & Hkind & _ & Hraw)]; [reflexivity.. | |].
    { intros [Heq|[]]. discriminate Heq. }
    exists e. split; [exact He|]. split; [exact Hkind | exact Hraw].
  - destruct (alb_checks_follow_signature AlbJwtVerifier.defaultAssertionError
                badSignature albToken albProps) as (_ & _ & Hsig & _).
    apply Hsig. eexists. split; reflexivity.
Defined.

(** * More properties of the code *)
(** ** Signature JWKs *)

Section SignatureJwk.
Context (a : Assertions) (Hsound : assertionsSound a).

Lemma assertStringEquals_Ok name actual expected ctor :
  expected ≠ EmptyString →
  assertStringEquals a name actual expected ctor = Ok tt ↔ actual = Some (JString expected).
Proof.
  intros Hne. destruct Hsound as [Heq _]. specialize (Heq name actual expected ctor Hne).
  destruct (assertStringEquals a name actual expected ctor) as [[]|e].
  - by split.
  - destruct Heq as [_ Hn]. by split.
Qed.

Lemma assertStringEquals_Throw name actual expected ctor e :
  expected ≠ EmptyString →
  assertStringEquals a name actual expected ctor = Throw e → kind e = ctor.
Proof.
  intros Hne He. destruct Hsound as [Heq _]. specialize (Heq name actual expected ctor Hne).
  rewrite He in Heq. by destruct Heq.
Qed.

Lemma useCheck_cases (jwk : Jwk) :
  let check := if truthy (obj_get jwk "use")
               then assertStringEquals a "JWK use" (obj_get jwk "use") "sig" JwkInvalidUseError
               else Ok tt in
  (check = Ok tt ∧ useIsSig jwk) ∨
  (∃ e, check = Throw e ∧ kind e = JwkInvalidUseError ∧ ¬ useIsSig jwk).
Proof.
  unfold useIsSig. simpl.
  destruct (truthy (obj_get jwk "use")) eqn:Ht; [|left; auto].
  destruct (assertStringEquals a "JWK use" (obj_get jwk "use") "sig" JwkInvalidUseError)
    as [[]|e] eqn:He.
  - left. split; [done|]. right. by apply assertStringEquals_Ok in He.
  - right. exists e. split; [done|]. split.
    + by eapply assertStringEquals_Throw; [|exact He].
    + intros [?|Hsig]; [done|].
      assert (assertStringEquals a "JWK use" (obj_get jwk "use") "sig" JwkInvalidUseError
              = Ok tt) as Hok by (by apply assertStringEquals_Ok).
      congruence.
Qed.

Lemma missingField_cases (jwk : Jwk) field msg :
  let check := if negb (truthy (obj_get jwk field))
               then throw JwkValidationError msg else Ok tt in
  (check = Ok tt ∧ truthy (obj_get jwk field) = true) ∨
  (∃ e, check = Throw e ∧ kind e = JwkValidationError ∧ truthy (obj_get jwk field) = false).
Proof.
  simpl. destruct (truthy (obj_get jwk field)); simpl; [by left|].
  right. by eexists.
Qed.

Ltac family_cases :=
  repeat match goal with
  | |- context [if truthy (obj_get ?jwk "use") then _ else _] =>
      destruct (useCheck_cases jwk) as [[-> ?]|(? & -> & ? & ?)]; cbn [bind]
  | |- context [if negb (truthy (obj_get ?jwk ?f)) then throw _ ?msg else _] =>
      destruct (missingField_cases jwk f msg) as [[-> ?]|(? & -> & ? & ?)]; cbn [bind]
  end.

Lemma assertIsEsSignatureJwk_spec jwk :
  obj_get jwk "kty" = Some (JString "EC") →
  match assertIsEsSignatureJwk a jwk with
  | Ok _ => useIsSig jwk ∧ truthy (obj_get jwk "crv") = true ∧
            truthy (obj_get jwk "x") = true ∧ truthy (obj_get jwk "y") = true
  | Throw e =>
      (¬ useIsSig jwk ∧ kind e = JwkInvalidUseError) ∨
      (useIsSig jwk ∧ kind e = JwkValidationError ∧
       (truthy (obj_get jwk "crv") = false ∨ truthy (obj_get jwk "x") = false ∨
        truthy (obj_get jwk "y") = false))
  end.
Proof.
  intros Hkty. unfold assertIsEsSignatureJwk.
  assert (assertStringEquals a "JWK kty" (obj_get jwk "kty") "EC" JwkInvalidKtyError = Ok tt)
    as -> by (by apply assertStringEquals_Ok).
  family_cases; cbn [bind]; family_cases; intuition.
Qed.

Lemma assertIsRsaSignatureJwk_spec jwk :
  obj_get jwk "kty" = Some (JString "RSA") →
  match assertIsRsaSignatureJwk a jwk with
  | Ok _ => useIsSig jwk ∧ truthy (obj_get jwk "n") = true ∧
            truthy (obj_get jwk "e") = true
  | Throw e =>
      (¬ useIsSig jwk ∧ kind e = JwkInvalidUseError) ∨
      (useIsSig jwk ∧ kind e = JwkValidationError ∧
       (truthy (obj_get jwk "n") = false ∨ truthy (obj_get jwk "e") = false))
  end.
Proof.
  intros Hkty. unfold assertIsRsaSignatureJwk.
  assert (assertStringEquals a "JWK kty" (obj_get jwk "kty") "RSA" JwkInvalidKtyError = Ok tt)
    as -> by (by apply assertStringEquals_Ok).
  family_cases; cbn [bind]; family_cases; intuition.
Qed.

Lemma assertIsEdDSASignatureJwk_spec jwk :
  obj_get jwk "kty" = Some (JString "OKP") →
  match assertIsEdDSASignatureJwk a jwk with
  | Ok _ => useIsSig jwk ∧ truthy (obj_get jwk "crv") = true ∧
            truthy (obj_get jwk "x") = true
  | Throw e =>
      (¬ useIsSig jwk ∧ kind e = JwkInvalidUseError) ∨
      (useIsSig jwk ∧ kind e = JwkValidationError ∧
       (truthy (obj_get jwk "crv") = false ∨ truthy (obj_get jwk "x") = false))
  end.
Proof.
  intros Hkty. unfold assertIsEdDSASignatureJwk.
  assert (assertStringEquals a "JWK kty" (obj_get jwk "kty") "OKP" JwkInvalidKtyError = Ok tt)
    as -> by (by apply assertStringEquals_Ok).
  family_cases; cbn [bind]; family_cases; intuition.
Qed.

End SignatureJwk.

Lemma specAssertions_sound : assertionsSound specAssertions.
Proof.
  split; simpl.
  - intros name actual expected ctor Hne. unfold specAssertStringEquals.
    destruct actual as [j|]; [|by split].
    destruct (falsy j) eqn:Hfalsy.
    { split; [done|]. intros [= ->]. simpl in Hfalsy.
      by apply String.eqb_eq in Hfalsy. }
    destruct j as [| b | m ex | s | items | fs]; try (by split).
    destruct (String.eqb s expected) eqn:He.
    + apply String.eqb_eq in He. by subst.
    + apply String.eqb_neq in He. split; [done|]. congruence.
  - intros name actual expected ctor Hne.
    unfold AlbJwtVerifier.assertStringArrayContainsString.
    destruct actual as [j|]; [|split; [done | by intros (? & ? & _)]].
    destruct (falsy j) eqn:Hfalsy.
    { split; [done|]. intros (s & [= ->] & Hin). simpl in Hfalsy.
      apply String.eqb_eq in Hfalsy. subst s.
      rewrite Forall_forall in Hne. apply (Hne EmptyString); [by apply list_elem_of_In | done]. }
    destruct j as [| b | m ex | s | items | fs];
      try (split; [done | by intros (? & ? & _)]).
    destruct (existsb (String.eqb s) expected) eqn:He.
    + apply existsb_exists in He as (s' & Hin & ->%String.eqb_eq). eauto.
    + split; [done|]. intros (s' & [= <-] & Hin).
      assert (existsb (String.eqb s) expected = true); [|congruence].
      apply existsb_exists. exists s. split; [done | apply String.eqb_refl].
Qed.

Lemma in_families kty :
  In kty ["EC"; "RSA"; "OKP"] ↔ kty = "EC" ∨ kty = "RSA" ∨ kty = "OKP".
Proof. simpl. intuition. Qed.

Lemma ktyInFamilies_cases (jwk : Jwk) :
  ktyInFamilies jwk ↔
  obj_get jwk "kty" = Some (JString "EC") ∨ obj_get jwk "kty" = Some (JString "RSA") ∨
  obj_get jwk "kty" = Some (JString "OKP").
Proof.
  unfold ktyInFamilies. split.
  - intros (kty & -> & Hin). rewrite !elem_of_cons in Hin.
    destruct Hin as [-> | [-> | [-> | Hin]]]; auto. by apply elem_of_nil in Hin.
  - intros [H|[H|H]]; eexists; (split; [exact H|]); rewrite !elem_of_cons; auto.
Qed.

Lemma containsKty_cases (a : Assertions) (jwk : Jwk) :
  assertionsSound a →
  let check := assertStringArrayContainsString a "JWK kty" (obj_get jwk "kty")
                 ["EC"; "RSA"; "OKP"] JwkInvalidKtyError in
  (check = Ok tt ∧ ktyInFamilies jwk) ∨
  (∃ e, check = Throw e ∧ kind e = JwkInvalidKtyError ∧ ¬ ktyInFamilies jwk).
Proof.
  intros [_ Hc]. simpl.
  specialize (Hc "JWK kty" (obj_get jwk "kty") ["EC"; "RSA"; "OKP"] JwkInvalidKtyError).
  assert (Forall (λ s : string, s ≠ EmptyString) ["EC"; "RSA"; "OKP"]) as Hne.
  { repeat constructor; discriminate. }
  specialize (Hc Hne).
  destruct (assertStringArrayContainsString a _ _ _ _) as [[]|e].
  - left. split; [done|]. destruct Hc as (s & Hs & Hin).
    apply ktyInFamilies_cases. rewrite Hs. apply in_families in Hin.
    destruct Hin as [-> | [-> | ->]]; auto.
  - right. exists e. destruct Hc as [Hk Hn]. split; [done|]. split; [done|].
    intros (kty & Hs & Hin). apply Hn. exists kty. split; [done|].
    apply list_elem_of_In in Hin. simpl in *. tauto.
Qed.

(** X1. A signature JWK is accepted exactly when [kty] is EC, RSA or OKP, [use]
    is left out, empty or ["sig"], and the fields of its family are there and
    not empty: [crv], [x], [y] for EC; [n], [e] for RSA; [crv], [x] for OKP.
    The value of [crv] is not looked at. On a key that [assertIsJwk]
    accepted, a field is "there and not empty" when it is a non-empty
    string. *)
Theorem assertIsSignatureJwk_accepts (a : Assertions) (jwk : Jwk) :
  assertionsSound a →
  (assertIsSignatureJwk a jwk = Ok tt ↔ signatureJwkShape jwk) ∧
  (wellTypedJwk jwk →
   ∀ field, field ∈ optionalJwkFieldNames →
     (truthy (obj_get jwk field) = true ↔
      ∃ s, obj_get jwk field = Some (JString s) ∧ s ≠ EmptyString)).
Proof.
  intros Hsound. split.
  - unfold assertIsSignatureJwk, signatureJwkShape.
    destruct (containsKty_cases a jwk Hsound) as [[-> Hfam]|(e & -> & _ & Hnot)]; cbn [bind].
    + apply ktyInFamilies_cases in Hfam as [Hk|[Hk|Hk]]; unfold propertyIs; rewrite Hk; simpl.
      * pose proof (assertIsEsSignatureJwk_spec a Hsound jwk Hk) as Hs.
        destruct (assertIsEsSignatureJwk a jwk) as [[]|e].
        -- split; [intros _|done]. split; [tauto|]. left. tauto.
        -- split; [done|]. intros [Hu Hshape]. intuition congruence.
      * pose proof (assertIsRsaSignatureJwk_spec a Hsound jwk Hk) as Hs.
        destruct (assertIsRsaSignatureJwk a jwk) as [[]|e].
        -- split; [intros _|done]. split; [tauto|]. right; left. tauto.
        -- split; [done|]. intros [Hu Hshape]. intuition congruence.
      * pose proof (assertIsEdDSASignatureJwk_spec a Hsound jwk Hk) as Hs.
        destruct (assertIsEdDSASignatureJwk a jwk) as [[]|e].
        -- split; [intros _|done]. split; [tauto|]. right; right. tauto.
        -- split; [done|]. intros [Hu Hshape]. intuition congruence.
    + split; [done|]. intros [_ Hshape]. exfalso. apply Hnot, ktyInFamilies_cases. tauto.
  - intros [_ Hopt] field Hin. specialize (Hopt field Hin). unfold obj_has, truthy in *.
    destruct (obj_get jwk field) as [[| b | m ex | s | items | fs]|]; simpl in *;
      try (specialize (Hopt eq_refl); discriminate Hopt);
      try (split; [done | by intros (? & ? & _)]).
    split.
    + intros Hs. exists s. split; [done|]. intros ->. done.
    + intros (s' & [= <-] & Hne). apply negb_true_iff, String.eqb_neq. done.
Qed.

Lemma assertIsSignatureJwk_accepts_witness :
  assertIsSignatureJwk specAssertions rsaJwk = Ok tt ∧
  assertIsSignatureJwk specAssertions secp256k1Jwk = Ok tt.
Proof.
  split.
  - apply (assertIsSignatureJwk_accepts specAssertions rsaJwk specAssertions_sound).
    split; [by right|]. right; left. repeat split.
  - apply (assertIsSignatureJwk_accepts specAssertions secp256k1Jwk specAssertions_sound).
    split; [by left|]. left. repeat split.
Defined.

(** X2. A signature JWK that is rejected: with [JwkInvalidKtyError] when [kty]
    is not EC, RSA or OKP, whatever else is wrong; otherwise with
    [JwkInvalidUseError] when [use] is neither empty nor ["sig"]; otherwise
    with [JwkValidationError], a field of the family being left out or
    empty. *)
Theorem assertIsSignatureJwk_rejects (a : Assertions) (jwk : Jwk) (e : Error) :
  assertionsSound a →
  assertIsSignatureJwk a jwk = Throw e →
  (¬ ktyInFamilies jwk ∧ kind e = JwkInvalidKtyError) ∨
  (ktyInFamilies jwk ∧ ¬ useIsSig jwk ∧ kind e = JwkInvalidUseError) ∨
  (ktyInFamilies jwk ∧ useIsSig jwk ∧ kind e = JwkValidationError).
Proof.
  intros Hsound. unfold assertIsSignatureJwk.
  destruct (containsKty_cases a jwk Hsound) as [[-> Hfam]|(e' & -> & Hk & Hnot)]; cbn [bind].
  - pose proof Hfam as Hfam'.
    apply ktyInFamilies_cases in Hfam as [Hk|[Hk|Hk]]; unfold propertyIs; rewrite Hk; simpl.
    + pose proof (assertIsEsSignatureJwk_spec a Hsound jwk Hk) as Hs.
      intros He. rewrite He in Hs. tauto.
    + pose proof (assertIsRsaSignatureJwk_spec a Hsound jwk Hk) as Hs.
      intros He. rewrite He in Hs. tauto.
    + pose proof (assertIsEdDSASignatureJwk_spec a Hsound jwk Hk) as Hs.
      intros He. rewrite He in Hs. tauto.
  - intros [= <-]. auto.
Qed.

Lemma assertIsSignatureJwk_rejects_witness :
  ∃ e, assertIsSignatureJwk specAssertions encryptionJwk = Throw e ∧
       kind e = JwkInvalidUseError.
Proof.
  eexists. split; [reflexivity|].
  destruct (assertIsSignatureJwk_rejects specAssertions encryptionJwk _
              specAssertions_sound eq_refl) as [[Hn _]|[(_ & _ & Hk)|(_ & Hu & _)]].
  - exfalso. apply Hn. exists "RSA". split; [reflexivity|].
    apply (bool_decide_unpack _). vm_compute. reflexivity.
  - exact Hk.
  - exfalso. destruct Hu as [Hu|Hu]; vm_compute in Hu; discriminate Hu.
Defined.

(** ** Parsing and fetching a key set *)

Lemma assertAllJwk_Throw items e :
  assertAllJwk items = Throw e → ∃ item, In item items ∧ isJwk item = false.
Proof.
  induction items as [|j items IH]; simpl; [done|].
  unfold isJwk in *. destruct (assertIsJwk j) as [jwk|e1] eqn:Hj; cbn [bind].
  - destruct (assertAllJwk items) as [js|e2]; cbn [bind]; [done|].
    intros [= <-]. destruct (IH eq_refl) as (item & Hin & Hbad). eauto.
  - intros _. exists j. rewrite Hj. auto.
Qed.

Lemma assertAllJwk_bad_member items item :
  In item items → isJwk item = false →
  ∃ e, assertAllJwk items = Throw e ∧ kind e = JwkValidationError.
Proof.
  intros Hin Hbad.
  destruct (assertAllJwk items) as [js|e] eqn:Hall.
  - apply assertAllJwk_Ok in Hall as [-> Hwt]. exfalso.
    apply in_map_iff in Hin as (jwk & <- & Hin).
    assert (isJwk (JObject jwk) = true); [|congruence].
    apply isJwk_true. exists jwk. split; [done|].
    rewrite List.Forall_forall in Hwt. auto.
  - exists e. split; [done|]. by eapply assertAllJwk_kind.
Qed.

(** X3. [parseJwks] returns the key set exactly when the bytes decode to an
    object whose [keys] is an array of well-typed JWK objects, and then the
    keys it returns are those objects, in the order of the document, each
    with a string [kid] or none. It fails with [JwkValidationError] exactly
    when [keys] is an array with a malformed member, and with
    [JwksValidationError] in every other case, bytes that do not decode
    included. *)
Theorem parseJwks_outcomes (decode : Bytes → string + Json) (jwksBin : Bytes) :
  (∀ jwks, parseJwks decode jwksBin = Ok jwks ↔
           ∃ fields, decode jwksBin = inr (JObject fields) ∧
                     obj_get fields "keys" = Some (JArray (JObject <$> keys jwks)) ∧
                     Forall wellTypedJwk (keys jwks)) ∧
  (∀ jwks jwk, parseJwks decode jwksBin = Ok jwks → In jwk (keys jwks) →
               obj_get jwk "kid" = None ∨ ∃ kid, obj_get jwk "kid" = Some (JString kid)) ∧
  (∀ e, parseJwks decode jwksBin = Throw e →
        (kind e = JwkValidationError ∨ kind e = JwksValidationError) ∧
        (kind e = JwkValidationError ↔
         ∃ fields items item,
           decode jwksBin = inr (JObject fields) ∧
           obj_get fields "keys" = Some (JArray items) ∧
           In item items ∧ isJwk item = false)).
Proof.
  unfold parseJwks. split; [|split].
  - intros jwks. destruct (decode jwksBin) as [err|j].
    + split; [done | by intros (? & ? & _)].
    + rewrite assertIsJwks_Ok. split.
      * intros (fields & -> & ?). by exists fields.
      * intros (fields & [= ->] & ?). by exists fields.
  - intros jwks jwk Hok Hin. destruct (decode jwksBin) as [err|j]; [done|].
    apply assertIsJwks_Ok in Hok as (_ & _ & _ & Hwt).
    rewrite List.Forall_forall in Hwt. destruct (Hwt jwk Hin) as [_ Hopt].
    assert ("kid" ∈ optionalJwkFieldNames) as Hkid.
    { apply (bool_decide_unpack _). vm_compute. reflexivity. }
    specialize (Hopt "kid" Hkid). unfold obj_has, typeof_string in Hopt.
    destruct (obj_get jwk "kid") as [[| b | m ex | s | items | fs]|];
      try (specialize (Hopt eq_refl); discriminate Hopt); eauto.
  - intros e. destruct (decode jwksBin) as [err|j].
    + intros [= <-]. split; [by right|]. split; [done | by intros (? & ? & ? & ? & _)].
    + unfold assertIsJwks.
      destruct (falsy j) eqn:Hfalsy.
      { intros [= <-]. split; [by right|]. split; [done|].
        intros (? & ? & ? & [= ->] & _). done. }
      destruct j as [| b | m ex | s | items | fields];
        try (simpl; intros [= <-]; split; [by right|]; split; [done|];
             by intros (? & ? & ? & [=] & _)).
      cbn [isJsonObject negb properties]. unfold obj_has.
      destruct (obj_get fields "keys") as [[| b | m ex | s | items | fs]|] eqn:Hkeys;
        cbn [negb];
        try (intros [= <-]; split; [by right|]; split; [done|];
             intros (? & ? & ? & [= <-] & Hk & _); congruence).
      destruct (assertAllJwk items) as [js|e1] eqn:Hall; cbn [bind]; [done|].
      intros [= <-]. pose proof (assertAllJwk_kind _ _ Hall) as Hkind.
      split; [by left|]. split; [|done]. intros _.
      destruct (assertAllJwk_Throw _ _ Hall) as (item & Hin & Hbad).
      by exists fields, items, item.
Qed.

(** X4. [fetchJwk] fails with [JwtWithoutValidKidError] whenever the header has
    no kid or a falsy one, the empty string included, whatever the fetch
    would give. Otherwise an error of the fetch or of the parse is thrown as
    it is; a kid that the fetched key set lacks fails with
    [KidNotFoundInJwksError]; and a JWK that is returned is well typed, is
    the first of the fetched set with the kid of the header, and that kid is
    a non-empty string. *)
Theorem fetchJwk_outcomes (decode : Bytes → string + Json) (render : Json → string)
    (fetched : result Bytes) (jwt : DecomposedJwt) :
  (truthy (obj_get (header jwt) "kid") = false →
   ∃ e, fetchJwk decode render fetched jwt = Throw e ∧ kind e = JwtWithoutValidKidError) ∧
  (truthy (obj_get (header jwt) "kid") = true →
   (∀ e, fetchJwks decode fetched = Throw e → fetchJwk decode render fetched jwt = Throw e) ∧
   (∀ jwks, fetchJwks decode fetched = Ok jwks →
      (∀ jwk, In jwk (keys jwks) → obj_get jwk "kid" ≠ obj_get (header jwt) "kid") →
      ∃ e, fetchJwk decode render fetched jwt = Throw e ∧
           kind e = KidNotFoundInJwksError)) ∧
  (∀ jwk, fetchJwk decode render fetched jwt = Ok jwk →
     ∃ kid jwks, obj_get (header jwt) "kid" = Some (JString kid) ∧ kid ≠ EmptyString ∧
                 fetchJwks decode fetched = Ok jwks ∧
                 findJwkInJwks jwks kid = Some jwk ∧
                 obj_get jwk "kid" = Some (JString kid) ∧ wellTypedJwk jwk).
Proof.
  unfold fetchJwk, truthy. split; [|split].
  - destruct (obj_get (header jwt) "kid") as [kid|]; [|by eexists].
    intros ->%negb_false_iff. by eexists.
  - destruct (obj_get (header jwt) "kid") as [kid|]; [|done].
    intros ->%negb_true_iff. split.
    + by intros e ->.
    + intros jwks -> Hnone. cbn [bind].
      assert (findJwkByHeaderKid jwks kid = None) as ->; [|by eexists].
      destruct kid as [| b | m ex | s | items | fs]; try done. simpl.
      apply array_find_None. intros jwk Hin. apply not_true_is_false.
      rewrite kidMatches_true. by apply Hnone.
  - intros jwk. destruct (obj_get (header jwt) "kid") as [kid|]; [|done].
    destruct (falsy kid) eqn:Hfalsy; [done|].
    destruct (fetchJwks decode fetched) as [jwks|e] eqn:Hfetch; cbn [bind]; [|done].
    destruct (findJwkByHeaderKid jwks kid) as [found|] eqn:Hfind; [|done].
    intros [= <-].
    destruct kid as [| b | m ex | s | items | fs]; try done. simpl in *.
    exists s, jwks. split; [done|].
    split; [intros ->; done|]. split; [done|]. split; [done|].
    destruct (findJwkInJwks_Some _ _ _ Hfind) as [Hin Hkid]. split; [done|].
    unfold fetchJwks in Hfetch. destruct fetched as [bin|e]; [|done]. simpl in Hfetch.
    unfold parseJwks in Hfetch. destruct (decode bin) as [err|j]; [done|].
    apply assertIsJwks_Ok in Hfetch as (_ & _ & _ & Hwt).
    rewrite List.Forall_forall in Hwt. auto.
Qed.

Lemma parseJwks_outcomes_witness :
  Forall wellTypedJwk [rsaJwk; k2First] ∧
  ∃ e, parseJwks (fun _ => inl "Unexpected token") [] = Throw e ∧
       kind e = JwksValidationError.
Proof.
  split.
  - destruct (parseJwks_outcomes (fun _ => inr servedJwks) []) as (Hok & _ & _).
    destruct (proj1 (Hok (mkJwks [rsaJwk; k2First])) eq_refl) as (_ & _ & _ & Hwt).
    exact Hwt.
  - eexists. split; [reflexivity|].
    destruct (parseJwks_outcomes (fun _ => inl "Unexpected token") []) as (_ & _ & Herr).
    destruct (Herr _ eq_refl) as [[Hk|Hk] _]; [discriminate Hk | exact Hk].
Defined.

Lemma fetchJwk_outcomes_witness :
  (∃ e, fetchJwk (fun _ => inr (JObject [("keys", JArray [JObject emptyKidJwk])]))
          (fun _ => "?") (Ok []) jwtEmptyKid = Throw e ∧
        kind e = JwtWithoutValidKidError) ∧
  obj_get k2First "kid" = Some (JString "k2").
Proof.
  split.
  - apply fetchJwk_outcomes. reflexivity.
  - destruct (fetchJwk_outcomes (fun _ => inr servedJwks) (fun _ => "?") (Ok []) jwtK2)
      as (_ & _ & Hok).
    destruct (Hok k2First eq_refl) as (kid & jwks & Hkid & _ & _ & _ & Hjwk & _).
    injection Hkid as <-. exact Hjwk.
Defined.

(** ** The penalty box over time *)

Close Scope nat_scope.

Module SimplePenaltyBoxHistory.
Import SimplePenaltyBox SimplePenaltyBoxFacts.

Lemma runCallbacks_Some due (m : gmap string positive) uri i :
  runCallbacks due m !! uri = Some i ↔
  m !! uri = Some i ∧ ∀ tm, In tm due → timer_uri tm ≠ uri.
Proof.
  revert m. induction due as [|tm due IH]; intros m.
  - simpl. split; [by intros ? | by intros [? _]].
  - rewrite runCallbacks_cons, IH, lookup_delete_Some. split.
    + intros [[Hne Hm] Hdue]. split; [done|]. intros tm' [<-|Hin]; auto.
    + intros [Hm Hdue]. split; [split; [|done]|].
      * apply Hdue. by left.
      * intros tm' Hin. apply Hdue. by right.
Qed.

Lemma waitingUris_advance ms b uri i :
  waitingUris (advance ms b) !! uri = Some i ↔
  waitingUris b !! uri = Some i ∧
  ∀ tm, In tm (timers b) → timer_uri tm = uri → clock b + Z.of_N ms < timer_due tm.
Proof.
  simpl. rewrite runCallbacks_Some. split; intros [Hm Hdue]; (split; [done|]).
  - intros tm Hin Huri. destruct (Z.ltb_spec (clock b + Z.of_N ms) (timer_due tm)); [done|].
    exfalso. apply (Hdue tm); [|done]. apply filter_In. split; [done|].
    unfold isDue. by apply Z.leb_le.
  - intros tm [Hin Hd]%filter_In Huri. specialize (Hdue tm Hin Huri).
    unfold isDue in Hd. apply Z.leb_le in Hd. lia.
Qed.

Lemma NoDup_map_inj {A B} (f : A → B) (l : list A) x y :
  List.NoDup (map f l) → In x l → In y l → f x = f y → x = y.
Proof.
  induction l as [|a l IH]; simpl; [done|].
  intros Hnd [<-|Hx] [<-|Hy] Hf; try done.
  - inversion Hnd as [|? ? Hnotin _]. exfalso. apply Hnotin. rewrite Hf. by apply in_map.
  - inversion Hnd as [|? ? Hnotin _]. exfalso. apply Hnotin. rewrite <- Hf. by apply in_map.
  - inversion Hnd. auto.
Qed.

Lemma NoDup_map_filter {A B} (f : A → B) (P : A → bool) (l : list A) :
  List.NoDup (map f l) → List.NoDup (map f (List.filter P l)).
Proof.
  induction l as [|a l IH]; simpl; [done|].
  intros Hnd. inversion Hnd as [|? ? Hnotin Hnd']. subst.
  destruct (P a); simpl; [|auto].
  constructor; [|auto]. intros (x & Hfx & [Hx _]%filter_In)%in_map_iff.
  apply Hnotin. rewrite <- Hfx. by apply in_map.
Qed.

Lemma timers_clearTimeout i b tm :
  In tm (timers (clearTimeout i b)) ↔ In tm (timers b) ∧ timer_id tm ≠ i.
Proof.
  simpl. rewrite <- !list_elem_of_In, list_elem_of_filter. tauto.
Qed.

Lemma clearTimeout_as_filter i b :
  timers (clearTimeout i b) =
  List.filter (fun tm => negb (Pos.eqb (timer_id tm) i)) (timers b).
Proof.
  simpl. induction (timers b) as [|tm l IH]; [done|].
  rewrite filter_cons. simpl.
  case_decide as Hi; destruct (Pos.eqb_spec (timer_id tm) i) as [Heq|Hne]; simpl;
    try done; by rewrite IH.
Qed.

Lemma BoxInv_new props now : BoxInv (new props now).
Proof. constructor; simpl; [done | constructor | done | done]. Qed.

Lemma BoxInv_registerFailedAttempt uri b :
  BoxInv b → BoxInv (registerFailedAttempt uri b).
Proof.
  intros [Hh Hd Hs Hall]. constructor; simpl.
  - intros tm [Hin|[<-|[]]]%in_app_or; simpl; [|lia].
    specialize (Hh tm Hin). lia.
  - rewrite map_app. simpl. apply List.NoDup_app; [done | repeat constructor; by intros [] |].
    intros i (tm & Hid & Hin)%in_map_iff [Hnext|[]]. specialize (Hh tm Hin). lia.
  - intros u i [[<- <-]|[Hne Hu]]%lookup_insert_Some.
    + eexists. split; [apply in_or_app; right; by left|]. simpl. repeat split. lia.
    + destruct (Hs u i Hu) as (tm & Hin & ?). exists tm. split; [|done].
      apply in_or_app. by left.
  - intros tm [Hin|[<-|[]]]%in_app_or; simpl; [by apply Hall | lia].
Qed.

Lemma BoxInv_release uri b : BoxInv b → BoxInv (release uri b).
Proof.
  intros [Hh Hd Hs Hall]. unfold release.
  destruct (waitingUris b !! uri) as [i|] eqn:Hw; [|by constructor].
  destruct (Hs uri i Hw) as (tm0 & Hin0 & Hid0 & Huri0 & _).
  constructor.
  - intros tm [Hin _]%timers_clearTimeout. by apply Hh.
  - change (timers (set_waitingUris (delete uri (waitingUris (clearTimeout i b)))
                      (clearTimeout i b))) with (timers (clearTimeout i b)).
    rewrite clearTimeout_as_filter. by apply NoDup_map_filter.
  - intros u j Hu. simpl in Hu. apply lookup_delete_Some in Hu as [Hne Hu].
    destruct (Hs u j Hu) as (tm & Hin & Hid & Huri & Hdue).
    exists tm. split; [|done]. apply timers_clearTimeout. split; [done|].
    intros Heq. apply Hne. rewrite <- Huri0, <- Huri. f_equal.
    apply (NoDup_map_inj timer_id (timers b)); [done..|]. congruence.
  - intros tm [Hin _]%timers_clearTimeout. by apply Hall.
Qed.

Lemma BoxInv_advance ms b : BoxInv b → BoxInv (advance ms b).
Proof.
  intros [Hh Hd Hs Hdue']. constructor.
  - intros tm [Hin _]%filter_In. by apply Hh.
  - by apply NoDup_map_filter.
  - intros u i [Hu Hlater]%waitingUris_advance.
    destruct (Hs u i Hu) as (tm & Hin & Hid & Huri & Hdue).
    exists tm. split; [|repeat split; try done; simpl; lia].
    apply filter_In. split; [done|]. unfold isDue. apply negb_true_iff, Z.leb_gt.
    by apply Hlater.
  - intros tm [Hin _]%filter_In. specialize (Hdue' tm Hin). simpl. lia.
Qed.

Lemma BoxInv_applyOp op b : BoxInv b → BoxInv (applyOp b op).
Proof.
  destruct op; simpl;
    [apply BoxInv_registerFailedAttempt | apply BoxInv_release | apply BoxInv_advance].
Qed.

Lemma BoxInv_runOps ops b : BoxInv b → BoxInv (runOps ops b).
Proof.
  revert b. induction ops as [|op ops IH]; intros b Hb; [done|].
  simpl. apply IH. by apply BoxInv_applyOp.
Qed.

Lemma boxReachable_BoxInv b : boxReachable b → BoxInv b.
Proof. intros (props & now & ops & ->). apply BoxInv_runOps, BoxInv_new. Qed.

Lemma waitSeconds_applyOp op b : waitSeconds (applyOp b op) = waitSeconds b.
Proof.
  destruct op as [uri|uri|ms]; simpl; try done.
  unfold registerSuccessfulAttempt, release. by destruct (waitingUris b !! uri).
Qed.

Lemma waitSeconds_runOps ops b : waitSeconds (runOps ops b) = waitSeconds b.
Proof.
  revert b. induction ops as [|op ops IH]; intros b; [done|].
  simpl. by rewrite IH, waitSeconds_applyOp.
Qed.

Lemma wait_ext uri b1 b2 :
  (∀ i, waitingUris b1 !! uri = Some i ↔ waitingUris b2 !! uri = Some i) →
  wait uri b1 = wait uri b2.
Proof.
  intros Hext. unfold wait.
  destruct (decide (is_Some (waitingUris b1 !! uri))) as [[i Hi]|Hn1];
    destruct (decide (is_Some (waitingUris b2 !! uri))) as [[j Hj]|Hn2]; try done.
  - exfalso. apply Hn2. exists i. by apply Hext.
  - exfalso. apply Hn1. exists j. by apply Hext.
Qed.

Lemma advance_all_fired ms b :
  BoxInv b → waitSeconds b * 1000 ≤ Z.of_N ms → timers (advance ms b) = [].
Proof.
  intros [_ _ _ Hdue] Hms. simpl.
  induction (timers b) as [|tm l IH]; [done|]. simpl.
  assert (isDue (clock b + Z.of_N ms) tm = true) as ->.
  { unfold isDue. apply Z.leb_le. specialize (Hdue tm (or_introl eq_refl)). lia. }
  simpl. apply IH. intros tm' Hin. apply Hdue. by right.
Qed.

End SimplePenaltyBoxHistory.

(** X5. However failed and successful attempts were registered before, once
    [waitSeconds] have passed without a new failed attempt no URI is kept
    waiting: [wait] succeeds for every URI. *)
Theorem backoff_ends_within_waitSeconds (b : SimplePenaltyBox.t) (ms : N) (uri : string) :
  boxReachable b →
  SimplePenaltyBox.waitSeconds b * 1000 ≤ Z.of_N ms →
  SimplePenaltyBox.wait uri (SimplePenaltyBox.advance ms b) = Ok tt ∧
  SimplePenaltyBox.waitingUris (SimplePenaltyBox.advance ms b) = ∅ ∧
  SimplePenaltyBox.timers (SimplePenaltyBox.advance ms b) = [].
Proof.
  intros Hinv%SimplePenaltyBoxHistory.boxReachable_BoxInv Hms.
  assert (∀ u, SimplePenaltyBox.waitingUris (SimplePenaltyBox.advance ms b) !! u = None)
    as Hnone.
  { intros u. apply eq_None_not_Some. intros [i Hi].
    apply SimplePenaltyBoxHistory.waitingUris_advance in Hi as [Hu Hlater].
    destruct (box_stored b Hinv u i Hu) as (tm & Hin & _ & Huri & Hdue).
    specialize (Hlater tm Hin Huri). lia. }
  split; [by apply SimplePenaltyBoxFacts.wait_Ok|].
  split; [by apply map_empty|].
  by apply SimplePenaltyBoxHistory.advance_all_fired.
Qed.

Lemma backoff_ends_within_waitSeconds_witness :
  SimplePenaltyBox.wait "https://idp/jwks"
    (SimplePenaltyBox.advance 10000
       (runOps [OpFailedAttempt "https://idp/jwks"; OpAdvance 5000;
                OpFailedAttempt "https://idp/jwks"; OpFailedAttempt "https://other/jwks"]
          (SimplePenaltyBox.new None 0))) = Ok tt.
Proof.
  apply backoff_ends_within_waitSeconds.
  - by eexists _, _, _.
  - rewrite (SimplePenaltyBoxHistory.waitSeconds_runOps _ _). simpl. lia.
Defined.

(** X6. For a [waitSeconds] whose milliseconds are a delay that the timer
    honours (from 1 to 2^31 - 1): in a box left alone for [waitSeconds], a
    failed attempt keeps its URI waiting for [waitSeconds], not less and not
    more: [ms] milliseconds after it, [wait] succeeds exactly when [ms] is
    at least [waitSeconds * 1000], and fails with
    [WaitPeriodNotYetEndedJwkError] before. *)
Theorem backoff_lasts_waitSeconds (b : SimplePenaltyBox.t) (quiet ms : N) (uri : string) :
  boxReachable b →
  timerDelayHonoured (SimplePenaltyBox.waitSeconds b * 1000) →
  SimplePenaltyBox.waitSeconds b * 1000 ≤ Z.of_N quiet →
  let failed := SimplePenaltyBox.registerFailedAttempt uri (SimplePenaltyBox.advance quiet b) in
  (SimplePenaltyBox.wait uri (SimplePenaltyBox.advance ms failed) = Ok tt ↔
   SimplePenaltyBox.waitSeconds b * 1000 ≤ Z.of_N ms) ∧
  (Z.of_N ms < SimplePenaltyBox.waitSeconds b * 1000 →
   ∃ e, SimplePenaltyBox.wait uri (SimplePenaltyBox.advance ms failed) = Throw e ∧
        kind e = WaitPeriodNotYetEndedJwkError).
Proof.
  intros Hinv%SimplePenaltyBoxHistory.boxReachable_BoxInv _ Hquiet failed.
  pose proof (SimplePenaltyBoxHistory.advance_all_fired quiet b Hinv Hquiet) as Hnone.
  assert (Z.of_N ms < SimplePenaltyBox.waitSeconds b * 1000 →
          ∃ e, SimplePenaltyBox.wait uri (SimplePenaltyBox.advance ms failed) = Throw e ∧
               kind e = WaitPeriodNotYetEndedJwkError) as Hfails.
  { intros Hms. apply SimplePenaltyBoxFacts.wait_fails_within_waitSeconds; [|done].
    intros tm Hin. by rewrite Hnone in Hin. }
  split; [|done]. split.
  - intros Hok. destruct (Z.le_gt_cases (SimplePenaltyBox.waitSeconds b * 1000) (Z.of_N ms))
      as [?|Hlt]; [done|].
    destruct (Hfails ltac:(lia)) as (e & He & _). congruence.
  - intros Hms. apply SimplePenaltyBoxFacts.wait_Ok.
    set (quieted := SimplePenaltyBox.advance quiet b) in *.
    apply (SimplePenaltyBoxFacts.advance_fires ms failed
             (SimplePenaltyBox.mkTimer (SimplePenaltyBox.nextTimer quieted)
                (SimplePenaltyBox.clock quieted +
                 SimplePenaltyBox.waitSeconds quieted * 1000) uri)).
    + subst failed. rewrite SimplePenaltyBoxFacts.timers_registerFailedAttempt.
      apply in_or_app. right. by left.
    + simpl. lia.
Qed.

Lemma backoff_lasts_waitSeconds_witness :
  let failed := SimplePenaltyBox.registerFailedAttempt "https://idp/jwks"
                  (SimplePenaltyBox.advance 10000 (SimplePenaltyBox.new None 0)) in
  SimplePenaltyBox.wait "https://idp/jwks" (SimplePenaltyBox.advance 10000 failed) = Ok tt ∧
  ∃ e, SimplePenaltyBox.wait "https://idp/jwks" (SimplePenaltyBox.advance 9999 failed)
       = Throw e ∧ kind e = WaitPeriodNotYetEndedJwkError.
Proof.
  intros failed.
  destruct (backoff_lasts_waitSeconds (SimplePenaltyBox.new None 0) 10000 10000
              "https://idp/jwks") as [Hiff _];
    [by exists None, 0, [] | unfold timerDelayHonoured; simpl; lia | simpl; lia |].
  destruct (backoff_lasts_waitSeconds (SimplePenaltyBox.new None 0) 10000 9999
              "https://idp/jwks") as [_ Hfails];
    [by exists None, 0, [] | unfold timerDelayHonoured; simpl; lia | simpl; lia |].
  split; [apply Hiff; simpl; lia | apply Hfails; simpl; lia].
Defined.

Module SimplePenaltyBoxRelease.
Import SimplePenaltyBox SimplePenaltyBoxFacts SimplePenaltyBoxHistory.

Lemma filter_all {A} (P : A → bool) (l : list A) :
  (∀ x, In x l → P x = true) → List.filter P l = l.
Proof.
  induction l as [|a l IH]; simpl; [done|]. intros Hall.
  rewrite (Hall a (or_introl eq_refl)), IH; [done|]. intros x Hin. apply Hall. by right.
Qed.

Lemma timers_release_after_failure uri b :
  BoxInv b → timers (release uri (registerFailedAttempt uri b)) = timers b.
Proof.
  intros [Hh _ _ _]. unfold release.
  rewrite waitingUris_registerFailedAttempt, lookup_insert_eq.
  change (timers (set_waitingUris ?m ?b0)) with (timers b0).
  rewrite clearTimeout_as_filter, timers_registerFailedAttempt, List.filter_app. simpl.
  rewrite Pos.eqb_refl. simpl. rewrite app_nil_r.
  apply filter_all. intros tm Hin. apply negb_true_iff, Pos.eqb_neq.
  specialize (Hh tm Hin). lia.
Qed.

Lemma still_free_later uri ms b :
  waitingUris b !! uri = None → wait uri (advance ms b) = Ok tt.
Proof. intros Hfree. apply wait_Ok. simpl. by apply runCallbacks_keeps_absent. Qed.

Lemma timers_of_other uri uri' b tm :
  BoxInv b → uri ≠ uri' → timer_uri tm = uri' →
  (In tm (timers (registerFailedAttempt uri b)) ↔ In tm (timers b)) ∧
  (In tm (timers (release uri b)) ↔ In tm (timers b)).
Proof.
  intros [Hh Hd Hs _] Hne Huri. split.
  - rewrite timers_registerFailedAttempt, in_app_iff. simpl. split; [|tauto].
    intros [?|[<-|[]]]; [done|]. simpl in Huri. congruence.
  - unfold release. destruct (waitingUris b !! uri) as [i|] eqn:Hw; [|done].
    change (timers (set_waitingUris ?m ?b0)) with (timers b0).
    rewrite timers_clearTimeout. split; [tauto|]. intros Hin. split; [done|].
    destruct (Hs uri i Hw) as (tm0 & Hin0 & Hid0 & Huri0 & _). intros Hid.
    apply Hne. rewrite <- Huri0, <- Huri. f_equal.
    apply (NoDup_map_inj timer_id (timers b)); [done..|]. congruence.
Qed.

End SimplePenaltyBoxRelease.

(** X7. A successful attempt right after a failed one takes the failed one
    back: the timeout that the failure scheduled is cleared, the queue is
    what it was before, and the URI is not waiting, now or at any later
    time. In general, after [registerSuccessfulAttempt] the URI stays free
    until the next failed attempt. *)
Theorem success_cancels_failure (b : SimplePenaltyBox.t) (uri : string) (ms : N) :
  boxReachable b →
  let cleared := SimplePenaltyBox.registerSuccessfulAttempt uri
                   (SimplePenaltyBox.registerFailedAttempt uri b) in
  SimplePenaltyBox.timers cleared = SimplePenaltyBox.timers b ∧
  SimplePenaltyBox.waitingUris cleared = delete uri (SimplePenaltyBox.waitingUris b) ∧
  SimplePenaltyBox.wait uri (SimplePenaltyBox.advance ms cleared) = Ok tt ∧
  SimplePenaltyBox.wait uri
    (SimplePenaltyBox.advance ms (SimplePenaltyBox.registerSuccessfulAttempt uri b)) = Ok tt.
Proof.
  intros Hinv%SimplePenaltyBoxHistory.boxReachable_BoxInv cleared. subst cleared.
  unfold SimplePenaltyBox.registerSuccessfulAttempt.
  split; [by apply SimplePenaltyBoxRelease.timers_release_after_failure|].
  split.
  - unfold SimplePenaltyBox.release.
    rewrite SimplePenaltyBoxFacts.waitingUris_registerFailedAttempt, lookup_insert_eq.
    simpl. by rewrite delete_insert_eq.
  - split; apply SimplePenaltyBoxRelease.still_free_later,
             SimplePenaltyBoxFacts.release_not_waiting.
Qed.

Lemma success_cancels_failure_witness :
  let b := runOps [OpFailedAttempt "https://other/jwks"] (SimplePenaltyBox.new (Some 10) 0) in
  SimplePenaltyBox.timers
    (SimplePenaltyBox.registerSuccessfulAttempt "https://idp/jwks"
       (SimplePenaltyBox.registerFailedAttempt "https://idp/jwks" b))
  = SimplePenaltyBox.timers b.
Proof.
  intros b.
  apply (success_cancels_failure b "https://idp/jwks" 0). by eexists _, _, _.
Defined.

(** X8. The penalty box is keyed by URI: registering a failed or a successful
    attempt for one URI changes nothing for another, neither whether it is
    waiting now, nor whether it will be at any later time, nor the timeouts
    that are scheduled for it. *)
Theorem other_uri_unaffected (b : SimplePenaltyBox.t) (uri uri' : string) (ms : N) :
  boxReachable b → uri ≠ uri' →
  SimplePenaltyBox.wait uri' (SimplePenaltyBox.registerFailedAttempt uri b)
    = SimplePenaltyBox.wait uri' b ∧
  SimplePenaltyBox.wait uri' (SimplePenaltyBox.registerSuccessfulAttempt uri b)
    = SimplePenaltyBox.wait uri' b ∧
  SimplePenaltyBox.wait uri'
    (SimplePenaltyBox.advance ms (SimplePenaltyBox.registerFailedAttempt uri b))
    = SimplePenaltyBox.wait uri' (SimplePenaltyBox.advance ms b) ∧
  SimplePenaltyBox.wait uri'
    (SimplePenaltyBox.advance ms (SimplePenaltyBox.registerSuccessfulAttempt uri b))
    = SimplePenaltyBox.wait uri' (SimplePenaltyBox.advance ms b) ∧
  (∀ tm, SimplePenaltyBox.timer_uri tm = uri' →
     (In tm (SimplePenaltyBox.timers (SimplePenaltyBox.registerFailedAttempt uri b)) ↔
      In tm (SimplePenaltyBox.timers b)) ∧
     (In tm (SimplePenaltyBox.timers (SimplePenaltyBox.registerSuccessfulAttempt uri b)) ↔
      In tm (SimplePenaltyBox.timers b))) ∧
  SimplePenaltyBox.waitingUris (SimplePenaltyBox.registerFailedAttempt uri b) !! uri'
    = SimplePenaltyBox.waitingUris b !! uri' ∧
  SimplePenaltyBox.waitingUris (SimplePenaltyBox.registerSuccessfulAttempt uri b) !! uri'
    = SimplePenaltyBox.waitingUris b !! uri'.
Proof.
  intros Hinv%SimplePenaltyBoxHistory.boxReachable_BoxInv Hne.
  assert (SimplePenaltyBox.waitingUris (SimplePenaltyBox.registerFailedAttempt uri b) !! uri'
          = SimplePenaltyBox.waitingUris b !! uri') as Hfail.
  { rewrite SimplePenaltyBoxFacts.waitingUris_registerFailedAttempt.
    by apply lookup_insert_ne. }
  assert (SimplePenaltyBox.waitingUris (SimplePenaltyBox.release uri b) !! uri'
          = SimplePenaltyBox.waitingUris b !! uri') as Hrel.
  { unfold SimplePenaltyBox.release.
    destruct (SimplePenaltyBox.waitingUris b !! uri); [|done].
    simpl. by apply lookup_delete_ne. }
  unfold SimplePenaltyBox.registerSuccessfulAttempt.
  split; [|split; [|split; [|split; [|split; [|split]]]]];
    [..| intros tm Huri;
         exact (SimplePenaltyBoxRelease.timers_of_other uri uri' b tm Hinv Hne Huri)
       | exact Hfail | exact Hrel];
    apply SimplePenaltyBoxHistory.wait_ext; intros i;
    rewrite ?SimplePenaltyBoxHistory.waitingUris_advance, ?Hfail, ?Hrel; try done.
  - change (SimplePenaltyBox.clock (SimplePenaltyBox.registerFailedAttempt uri b))
      with (SimplePenaltyBox.clock b).
    split; intros [Hw Hlater]; (split; [done|]); intros tm Hin Huri;
      destruct (SimplePenaltyBoxRelease.timers_of_other uri uri' b tm Hinv Hne Huri)
        as [Hf Hr];
      apply Hlater; try done; tauto.
  - assert (SimplePenaltyBox.clock (SimplePenaltyBox.release uri b) = SimplePenaltyBox.clock b)
      as ->.
    { unfold SimplePenaltyBox.release. by destruct (SimplePenaltyBox.waitingUris b !! uri). }
    split; intros [Hw Hlater]; (split; [done|]); intros tm Hin Huri;
      destruct (SimplePenaltyBoxRelease.timers_of_other uri uri' b tm Hinv Hne Huri)
        as [Hf Hr];
      apply Hlater; try done; tauto.
Qed.

Lemma other_uri_unaffected_witness :
  let b := runOps [OpFailedAttempt "https://other/jwks"; OpAdvance 5000]
             (SimplePenaltyBox.new (Some 10) 0) in
  SimplePenaltyBox.wait "https://other/jwks"
    (SimplePenaltyBox.advance 1000
       (SimplePenaltyBox.registerSuccessfulAttempt "https://idp/jwks" b))
  = SimplePenaltyBox.wait "https://other/jwks" (SimplePenaltyBox.advance 1000 b).
Proof.
  intros b.
  apply (other_uri_unaffected b "https://idp/jwks" "https://other/jwks" 1000).
  - by eexists _, _, _.
  - discriminate.
Defined.

Open Scope nat_scope.

(** ** More of the cache *)

Section CacheExtras.
Context {PB : Type} `{!PenaltyBox PB}.
Implicit Types (w : World PB) (c : SimpleJwksCache PB).

Lemma getJwk_call_hit uri jwt w kid jwk :
  headerKid jwt = Some kid → cachedJwk uri kid (cache w) = Some jwk →
  getJwk_call uri jwt w = (Done (Ok jwk), w).
Proof. unfold getJwk_call, cachedJwk. by intros -> ->. Qed.

Lemma getJwk_call_miss uri jwt w kid :
  headerKid jwt = Some kid → cachedJwk uri kid (cache w) = None →
  getJwk_call uri jwt w =
  (match (pb_wait uri kid (penaltyBox (cache w))).1 with
   | Throw e => Done (Throw e)
   | Ok _ => AwaitWait kid
   end,
   set_cache (set_penaltyBox (pb_wait uri kid (penaltyBox (cache w))).2 (cache w))
     (emit (EvWait uri kid) w)).
Proof.
  unfold getJwk_call, cachedJwk. intros -> ->.
  by destruct (pb_wait uri kid (penaltyBox (cache w))) as [[[]|e] pb].
Qed.

Lemma getCachedJwk_cachedJwk uri jwt c kid :
  headerKid jwt = Some kid →
  ∀ jwk, getCachedJwk uri jwt c = Ok jwk ↔ cachedJwk uri kid c = Some jwk.
Proof.
  intros Hkid jwk. unfold getCachedJwk, cachedJwk. rewrite Hkid.
  destruct (jwksCache c !! uri) as [jwks|]; [|done].
  destruct (findJwkInJwks jwks kid); [|done]. split; by intros [= ->].
Qed.

End CacheExtras.

(** X9. [getCachedJwk] and [getJwk] agree on what is cached: [getCachedJwk]
    returns a JWK exactly when [getJwk] returns that JWK at once, leaving the
    cache, the penalty box and the fetcher alone. Without a string kid both
    fail with the same [JwtWithoutValidKidError]; and where [getCachedJwk]
    fails for want of the URI or of the kid, [getJwk] goes on to ask the
    penalty box. *)
Theorem getJwk_hits_what_getCachedJwk_finds {PB : Type} `{!PenaltyBox PB}
    (w : World PB) (uri : string) (jwt : DecomposedJwt) :
  (∀ jwk, getCachedJwk uri jwt (cache w) = Ok jwk ↔
          getJwk_call uri jwt w = (Done (Ok jwk), w)) ∧
  (headerKid jwt = None →
   ∃ e, getCachedJwk uri jwt (cache w) = Throw e ∧
        getJwk_call uri jwt w = (Done (Throw e), w) ∧
        kind e = JwtWithoutValidKidError) ∧
  (∀ kid e, headerKid jwt = Some kid → getCachedJwk uri jwt (cache w) = Throw e →
     (kind e = JwksNotAvailableInCacheError ∨ kind e = KidNotFoundInJwksError) ∧
     trace (getJwk_call uri jwt w).2 = (trace w ++ [EvWait uri kid])%list ∧
     promises (getJwk_call uri jwt w).2 = promises w).
Proof.
  split; [|split].
  - intros jwk. destruct (headerKid jwt) as [kid|] eqn:Hkid.
    + rewrite (getCachedJwk_cachedJwk uri jwt (cache w) kid Hkid). split.
      * intros Hc. by apply (getJwk_call_hit uri jwt w kid).
      * intros Hcall. destruct (cachedJwk uri kid (cache w)) as [found|] eqn:Hc.
        -- rewrite (getJwk_call_hit uri jwt w kid found Hkid Hc) in Hcall. congruence.
        -- rewrite (getJwk_call_miss uri jwt w kid Hkid Hc) in Hcall.
           destruct (pb_wait uri kid (penaltyBox (cache w))) as [[[]|e] pb]; simpl in Hcall;
             congruence.
    + unfold getCachedJwk, getJwk_call. rewrite Hkid. split; intros ?; congruence.
  - intros Hkid. unfold getCachedJwk, getJwk_call. rewrite Hkid. by eexists.
  - intros kid e Hkid Herr.
    assert (cachedJwk uri kid (cache w) = None) as Hc.
    { destruct (cachedJwk uri kid (cache w)) as [found|] eqn:Hc; [|done].
      apply (getCachedJwk_cachedJwk uri jwt (cache w) kid Hkid) in Hc. congruence. }
    rewrite (getJwk_call_miss uri jwt w kid Hkid Hc). simpl. split; [|done].
    unfold getCachedJwk in Herr. rewrite Hkid in Herr.
    destruct (jwksCache (cache w) !! uri) as [jwks|]; [|injection Herr as <-; by left].
    destruct (findJwkInJwks jwks kid); [done|]. injection Herr as <-. by right.
Qed.

Lemma getJwk_hits_what_getCachedJwk_finds_witness :
  getJwk_call "https://idp/jwks" jwtK2 (mkWorld cacheK1K2 [] [] [])
  = (Done (Ok k2First), mkWorld cacheK1K2 [] [] []).
Proof.
  apply (getJwk_hits_what_getCachedJwk_finds (mkWorld cacheK1K2 [] [] [])).
  reflexivity.
Defined.

(** X10. [addJwks] and [getCachedJwk]: once a key set is added for a URI, that
    URI is never "not available"; [getCachedJwk] finds in it exactly what
    [findJwkInJwks] finds; the key sets of other URIs are as before; adding
    again replaces what was added; and the penalty box and the fetches in
    flight are not touched. *)
Theorem addJwks_then_getCachedJwk {PB : Type} `{!PenaltyBox PB}
    (c : SimpleJwksCache PB) (uri : string) (jwks : Jwks) (jwt : DecomposedJwt)
    (kid : string) :
  headerKid jwt = Some kid →
  (∀ jwk, getCachedJwk uri jwt (addJwks uri jwks c) = Ok jwk ↔
          findJwkInJwks jwks kid = Some jwk) ∧
  (∀ e, getCachedJwk uri jwt (addJwks uri jwks c) = Throw e →
        kind e = KidNotFoundInJwksError ∧ findJwkInJwks jwks kid = None) ∧
  (∀ uri', uri' ≠ uri →
           getCachedJwk uri' jwt (addJwks uri jwks c) = getCachedJwk uri' jwt c) ∧
  (∀ jwks0, addJwks uri jwks (addJwks uri jwks0 c) = addJwks uri jwks c) ∧
  penaltyBox (addJwks uri jwks c) = penaltyBox c ∧
  fetchingJwks (addJwks uri jwks c) = fetchingJwks c.
Proof.
  intros Hkid.
  assert (∀ c' : SimpleJwksCache PB, jwksCache c' !! uri = Some jwks →
    getCachedJwk uri jwt c' =
    match findJwkInJwks jwks kid with
    | Some jwk => Ok jwk
    | None => throw KidNotFoundInJwksError
                ("JWK for kid " +:+ kid +:+ " not found in the JWKS")
    end) as Hget.
  { intros c' Hc'. unfold getCachedJwk. by rewrite Hkid, Hc'. }
  assert (jwksCache (addJwks uri jwks c) !! uri = Some jwks) as Hadded.
  { unfold addJwks. simpl. by rewrite lookup_insert_eq. }
  rewrite (Hget _ Hadded). unfold throw.
  split; [|split; [|split; [|split; [|split]]]].
  - intros jwk. destruct (findJwkInJwks jwks kid); split; congruence.
  - intros e. destruct (findJwkInJwks jwks kid); [done|]. by intros [= <-].
  - intros uri' Hne. unfold getCachedJwk, addJwks. simpl.
    by rewrite lookup_insert_ne.
  - intros jwks0. unfold addJwks, set_jwksCache. simpl. by rewrite insert_insert_eq.
  - done.
  - done.
Qed.

Lemma addJwks_then_getCachedJwk_witness :
  getCachedJwk "https://idp/jwks" jwtK2
    (addJwks "https://idp/jwks" (mkJwks [k2Second]) cacheK1K2) = Ok k2Second.
Proof.
  apply (addJwks_then_getCachedJwk cacheK1K2 "https://idp/jwks" (mkJwks [k2Second])
           jwtK2 "k2" eq_refl).
  reflexivity.
Defined.

Section FetchExtras.
Context {PB : Type} `{!PenaltyBox PB}.
Implicit Types (w : World PB).

Lemma getCachedJwk_of_cached uri jwt (c : SimpleJwksCache PB) jwks :
  jwksCache c !! uri = Some jwks →
  ∀ jwk, getCachedJwk uri jwt c = Ok jwk ↔
         ∃ kid, headerKid jwt = Some kid ∧ findJwkInJwks jwks kid = Some jwk.
Proof.
  intros Hc jwk. unfold getCachedJwk. rewrite Hc.
  destruct (headerKid jwt) as [kid|]; unfold throw.
  - destruct (findJwkInJwks jwks kid) as [found|] eqn:Hfind; split.
    + intros [= ->]. eauto.
    + intros (k & [= <-] & Hk). congruence.
    + done.
    + intros (k & [= <-] & Hk). congruence.
  - split; [done|]. by intros (k & Hk & _).
Qed.

End FetchExtras.

(** X11. The counterpart of a failed fetch. In a state the cache can reach, let
    task [i] be the caller of [getJwks] that made promise [p], in flight for
    [uri], and let what was fetched parse to the key set [jwks]. Once the
    promise is fulfilled and the caller's continuation has run:
    [fetchingJwks] has lost its entry for [uri] and no other; the key set
    cached for [uri] is [jwks], replacing (not extending) what was cached
    for it, and the key sets of other URIs are as before; the caller's
    [getJwks] has returned [jwks] and the callers that joined the promise are
    given the same set; neither the penalty box nor the fetcher was called;
    and from then on [getCachedJwk] finds for [uri] exactly the keys of
    [jwks]. *)
Theorem fulfilled_fetch_replaces_cached_jwks {PB : Type} `{!PenaltyBox PB}
    (w : World PB) (i p : nat) (call : Call) (st : Status) (uri : string)
    (fetched : result Bytes) (jwks : Jwks) :
  reachable w →
  tasks w !! i = Some (call, st) → originator st = Some p →
  promises w !! p = Some (uri, None) →
  bind fetched (jwksParser (cache w)) = Ok jwks →
  ∃ w', run [ActSettle p fetched; ActResume i] w = Some w' ∧
        fetchingJwks (cache w') = delete uri (fetchingJwks (cache w)) ∧
        jwksCache (cache w') = <[uri := jwks]> (jwksCache (cache w)) ∧
        tasks w' = <[i := (call, returned st (Ok jwks))]> (tasks w) ∧
        outcome w' p = Some (Ok jwks) ∧
        jwksCallResult w' (Joined p) = Some (Ok jwks) ∧
        penaltyBox (cache w') = penaltyBox (cache w) ∧
        trace w' = trace w ∧
        ∀ jwt jwk, getCachedJwk uri jwt (cache w') = Ok jwk ↔
                   ∃ kid, headerKid jwt = Some kid ∧ findJwkInJwks jwks kid = Some jwk.
Proof.
  intros Hreach Hi Ho Hp Hfetched.
  destruct (reachable_Inv w Hreach) as [Hpend Hfetch Horig Huniq Htasks]. simpl in *.
  pose proof (Horig _ _ _ _ Hi Ho) as Hf.
  destruct (Hfetch _ _ Hf) as [s Hs]. rewrite Hp in Hs. injection Hs as -> <-.
  assert (p < length (promises w)) as Hlt by (by eapply lookup_lt_Some).
  destruct w as [[pb parser jc fj] ps ts tr]. simpl in *.
  rewrite Hp. simpl. rewrite Hi. simpl.
  destruct (originator_cases call st p (Htasks _ _ Hi) Ho)
    as [(u & -> & ->)|(u & jwt & kid & -> & ->)]; simpl in *;
    unfold outcome; simpl; rewrite list_lookup_insert_eq by done; simpl;
    rewrite Hfetched; simpl; eexists; (split; [reflexivity|]); simpl;
    rewrite list_lookup_insert_eq by done;
    (split; [done|]); (split; [done|]); (split; [done|]); (split; [done|]);
    (split; [done|]); (split; [done|]); (split; [done|]);
    intros jwt0 jwk; apply getCachedJwk_of_cached; simpl; apply lookup_insert_eq.
Qed.

Lemma fulfilled_fetch_replaces_cached_jwks_witness :
  ∃ w', run [ActSettle 0 (Ok []); ActResume 0] twoCallers = Some w' ∧
        jwksCache (cache w') = <["https://idp/jwks" := mkJwks [rsaJwk; k2First]]>
                                 (jwksCache (cache twoCallers)) ∧
        jwksCallResult w' (Joined 0) = Some (Ok (mkJwks [rsaJwk; k2First])).
Proof.
  destruct (fulfilled_fetch_replaces_cached_jwks twoCallers 0 0
              (CallGetJwks "https://idp/jwks") (InGetJwks (Originator 0))
              "https://idp/jwks" (Ok []) (mkJwks [rsaJwk; k2First]))
    as (w' & Hrun & _ & Hc & _ & _ & Hj & _);
    [exact reachable_twoCallers | reflexivity..|].
  exists w'. done.
Defined.

(** X12. A caller of [getJwks] on its own, from any state [w]; [fetched] is what
    the fetcher answers if it is asked. [getJwks] never answers from the
    cached key sets: with no fetch in flight for the URI it calls the
    fetcher, once, whether or not a key set is cached for the URI. If what
    was fetched parses to a key set, the caller gets that set and it
    replaces the cached one; if the fetch or the parse fails, the caller gets
    the error, though a key set may be cached, and the cached key sets stay
    as they were. Either way [fetchingJwks] ends as it began and the penalty
    box is not touched. With a fetch in flight for the URI the caller is
    handed its promise and nothing else happens. *)
Theorem getJwks_goes_to_the_fetcher {PB : Type} `{!PenaltyBox PB}
    (w : World PB) (uri : string) (fetched : result Bytes) :
  let w' := getJwks_alone uri fetched w in
  let r := bind fetched (jwksParser (cache w)) in
  (fetchingJwks (cache w) !! uri = None →
     newTask w w' = Some (CallGetJwks uri, InGetJwks (Returned r)) ∧
     trace w' = (trace w ++ [EvFetch uri])%list ∧
     promises w' = (promises w ++ [(uri, Some r)])%list ∧
     jwksCache (cache w') =
       match r with
       | Ok jwks => <[uri := jwks]> (jwksCache (cache w))
       | Throw _ => jwksCache (cache w)
       end ∧
     fetchingJwks (cache w') = fetchingJwks (cache w) ∧
     penaltyBox (cache w') = penaltyBox (cache w)) ∧
  (∀ p, fetchingJwks (cache w) !! uri = Some p →
     newTask w w' = Some (CallGetJwks uri, InGetJwks (Joined p)) ∧
     trace w' = trace w ∧ promises w' = promises w ∧ cache w' = cache w).
Proof.
  intros w' r. subst r. remember w' as w2 eqn:Hw'. subst w'.
  unfold getJwks_alone in Hw'.
  destruct w as [[pb parser jc fj] ps ts tr]. simpl. split.
  - intros Hf. rewrite runEnabled_cons in Hw'. unfold exec, getJwks_call in Hw'.
    simpl in Hw'. rewrite Hf in Hw'. world_simpl Hw'.
    step Hw'. step Hw'. unfold outcome in Hw'. world_simpl Hw'.
    rewrite snoc_lookup in Hw'. world_simpl Hw'.
    destruct (bind fetched parser) as [jwks|e] eqn:Hb; unfold getJwks_resume in Hw';
      world_simpl Hw'; rewrite ?snoc_insert in Hw';
      rewrite delete_insert_id in Hw' by done; subst w2;
      unfold newTask; simpl; rewrite snoc_lookup; done.
  - intros p Hf. rewrite runEnabled_cons in Hw'. unfold exec, getJwks_call in Hw'.
    simpl in Hw'. rewrite Hf in Hw'. world_simpl Hw'.
    rewrite runEnabled_cons in Hw'.
    world_simpl Hw'.
    rewrite lookup_ge_None_2 in Hw' by done. world_simpl Hw'.
    step Hw'. subst w2.
    unfold newTask; simpl; rewrite snoc_lookup; done.
Qed.

Lemma getJwks_goes_to_the_fetcher_witness :
  trace (getJwks_alone "https://idp/jwks" (Throw connectionReset) (mkWorld cacheK1K2 [] [] []))
  = [EvFetch "https://idp/jwks"] ∧
  jwksCache (cache (getJwks_alone "https://idp/jwks" (Throw connectionReset)
                      (mkWorld cacheK1K2 [] [] [])))
  = jwksCache cacheK1K2.
Proof.
  destruct (getJwks_goes_to_the_fetcher (mkWorld cacheK1K2 [] [] []) "https://idp/jwks"
              (Throw connectionReset)) as [Hfetch _].
  destruct (Hfetch eq_refl) as (_ & Htrace & _ & Hcache & _).
  split; [exact Htrace | exact Hcache].
Defined.

(** ** The caller behind a fetch in flight *)

Lemma owned_step k k' : coreStep k k' → owned k → owned k'.
Proof.
  intros Hstep Hown.
  inversion Hstep as
    [ ps fj ts tr
    | ps fj ts tr call st evs Hnot Haw Hok Hevs
    | ps fj ts tr uri Hnone
    | ps fj ts tr p uri r Hp
    | ps fj ts tr i call kid p Hi Hf
    | ps fj ts tr i call kid Hi Hnone
    | ps fj ts tr i call st p uri r Hi Ho Hp
    | ps fj ts tr i uri jwt kid c r evs Hi Hr Hevs ];
    subst; unfold owned in *; simpl in *.
  - done.
  - intros uri p Hf. destruct (Hown uri p Hf) as (j & cj & sj & Hj & Hoj & Hu).
    exists j, cj, sj. split; [|done]. by apply lookup_app_l_Some.
  - intros uri0 p0 [[<- <-]|[Hne Hf]]%lookup_insert_Some.
    + exists (length ts), (CallGetJwks uri), (InGetJwks (Originator (length ps))).
      split; [apply snoc_lookup|done].
    + destruct (Hown uri0 p0 Hf) as (j & cj & sj & Hj & Hoj & Hu).
      exists j, cj, sj. split; [|done]. by apply lookup_app_l_Some.
  - done.
  - intros uri p0 Hf0. destruct (Hown uri p0 Hf0) as (j & cj & sj & Hj & Hoj & Hu).
    exists j, cj, sj. split; [|done].
    rewrite list_lookup_insert_ne; [done|]. intros <-. rewrite Hi in Hj.
    injection Hj as <- <-. done.
  - intros uri0 p0 [[<- <-]|[Hne Hf]]%lookup_insert_Some.
    + exists i, call, (AwaitGetJwks kid (Originator (length ps))).
      split; [|done]. apply list_lookup_insert_eq. by eapply lookup_lt_Some.
    + destruct (Hown uri0 p0 Hf) as (j & cj & sj & Hj & Hoj & Hu).
      exists j, cj, sj. split; [|done].
      rewrite list_lookup_insert_ne; [done|]. intros <-. rewrite Hi in Hj.
      injection Hj as <- <-. done.
  - intros uri0 p0 [Hne Hf]%lookup_delete_Some.
    destruct (Hown uri0 p0 Hf) as (j & cj & sj & Hj & Hoj & Hu).
    exists j, cj, sj. split; [|done].
    rewrite list_lookup_insert_ne; [done|]. intros <-. rewrite Hi in Hj.
    injection Hj as <- <-. done.
  - intros uri0 p0 Hf. destruct (Hown uri0 p0 Hf) as (j & cj & sj & Hj & Hoj & Hu).
    exists j, cj, sj. split; [|done].
    rewrite list_lookup_insert_ne; [done|]. intros <-. rewrite Hi in Hj.
    injection Hj as <- <-. by destruct Hr as [->|(q & u & -> & _)].
Qed.

Section Owner.
Context {PB : Type} `{!PenaltyBox PB}.
Implicit Types (w : World PB).

Lemma reachable_owned w : reachable w → owned (core w).
Proof.
  intros (pb & parser & acts & Hrun).
  apply (run_invariant (λ w0 : World PB, owned (core w0))) with acts (newWorld pb parser);
    [|done|done].
  intros a w1 w2 Hown Ha. eapply owned_step; [by eapply exec_coreStep | done].
Qed.

End Owner.

(** X13. No entry of [fetchingJwks] is left behind. In every state the cache can
    reach, an entry for [uri] names a promise made for [uri], and exactly one
    caller made that promise and has yet to run its [finally] block. While
    the promise is pending that caller is suspended; once it is settled the
    caller's continuation can run, and running it deletes the entry. *)
Theorem fetch_in_flight_has_its_caller {PB : Type} `{!PenaltyBox PB}
    (w : World PB) (uri : string) (p : nat) :
  reachable w →
  fetchingJwks (cache w) !! uri = Some p →
  ∃ i call st,
    tasks w !! i = Some (call, st) ∧ originator st = Some p ∧ call_uri call = uri ∧
    (∀ j cj sj, tasks w !! j = Some (cj, sj) → originator sj = Some p → j = i) ∧
    (∃ s, promises w !! p = Some (uri, s)) ∧
    (outcome w p = None → exec (ActResume i) w = None) ∧
    (∀ r, outcome w p = Some r →
       ∃ w', exec (ActResume i) w = Some w' ∧
             fetchingJwks (cache w') = delete uri (fetchingJwks (cache w)) ∧
             tasks w' = <[i := (call, returned st r)]> (tasks w)).
Proof.
  intros Hreach Hf.
  destruct (reachable_Inv w Hreach) as [Hpend Hfetch Horig Huniq Htasks].
  destruct (reachable_owned w Hreach uri p Hf) as (i & call & st & Hi & Ho & Hu).
  simpl in *. exists i, call, st.
  split; [done|]. split; [done|]. split; [done|].
  split; [intros j cj sj Hj Hoj; by eapply Huniq|].
  split; [by apply Hfetch|].
  destruct (originator_cases call st p (Htasks _ _ Hi) Ho)
    as [(u & -> & ->)|(u & jwt & kid & -> & ->)]; simpl in Hu; subst u; split.
  - intros Hnone. unfold exec. rewrite Hi. simpl. by rewrite Hnone.
  - intros r Hr. unfold exec. rewrite Hi. simpl. rewrite Hr. simpl.
    destruct r as [jwks|e]; simpl; eexists; done.
  - intros Hnone. unfold exec. rewrite Hi. simpl. by rewrite Hnone.
  - intros r Hr. unfold exec. rewrite Hi. simpl. rewrite Hr. simpl.
    destruct r as [jwks|e]; simpl; eexists; done.
Qed.

Lemma fetch_in_flight_has_its_caller_witness :
  ∃ i call st,
    tasks twoCallers !! i = Some (call, st) ∧ originator st = Some 0 ∧
    call_uri call = "https://idp/jwks".
Proof.
  destruct (fetch_in_flight_has_its_caller twoCallers "https://idp/jwks" 0
              reachable_twoCallers eq_refl)
    as (i & call & st & Hi & Ho & Hu & _).
  exists i, call, st. done.
Defined.

(** ** Where the cached key sets come from *)

Section Provenance.
Context {PB : Type} `{!PenaltyBox PB}.
Context (Good : Jwks → Prop).
Implicit Types (w : World PB).

Lemma goodStatus_idle st :
  heldJwks st = None → (∀ jwk, st ≠ Done (Ok jwk)) → goodStatus Good st.
Proof. intros Hheld Hdone. split; [by rewrite Hheld | intros jwk ->; by destruct (Hdone jwk)]. Qed.

Lemma goodStatus_returned st r :
  originator st ≠ None → (∀ jwks, r = Ok jwks → Good jwks) →
  goodStatus Good (returned st r).
Proof.
  intros Ho Hr. destruct st as [[q|q|r0]|kid|kid [q|q|r0]|r0]; try done; simpl;
    (split; [|done]); intros jwks; destruct r as [j|e]; try done;
    intros [= <-]; by apply Hr.
Qed.

Lemma goodStatus_located kid r :
  (∀ jwks, r = Ok jwks → Good jwks) → goodStatus Good (Done (locate kid r)).
Proof.
  intros Hr. split; [done|]. intros jwk [= Hl]. destruct r as [jwks|e]; [|done].
  simpl in Hl. destruct (findJwkInJwks jwks kid) as [found|] eqn:Hfind; [|done].
  injection Hl as ->. exists jwks. split; [by apply Hr|].
  by apply findJwkInJwks_Some in Hfind as [Hin _].
Qed.

(** One lemma for all actions: what is cached, settled or held after the
    action was so before, or has property [Good]. *)
Lemma allGood_update w w' :
  allGood Good w →
  (∀ uri jwks, jwksCache (cache w') !! uri = Some jwks →
     jwksCache (cache w) !! uri = Some jwks ∨ Good jwks) →
  (∀ p uri jwks, promises w' !! p = Some (uri, Some (Ok jwks)) →
     promises w !! p = Some (uri, Some (Ok jwks)) ∨ Good jwks) →
  (∀ i call st, tasks w' !! i = Some (call, st) →
     tasks w !! i = Some (call, st) ∨ goodStatus Good st) →
  allGood Good w'.
Proof.
  intros [Hc Hp Ht] Hc' Hp' Ht'. split.
  - intros uri jwks [H|H]%Hc'; eauto.
  - intros p uri jwks [H|H]%Hp'; eauto.
  - intros i call st [H|H]%Ht'; eauto.
Qed.

Lemma outcome_good w p jwks :
  allGood Good w → outcome w p = Some (Ok jwks) → Good jwks.
Proof.
  intros [_ Hp _]. unfold outcome.
  destruct (promises w !! p) as [[uri [r|]]|] eqn:Hlook; [|done..].
  intros [= ->]. eauto.
Qed.

Lemma getJwks_call_good uri w :
  let w1 := (getJwks_call uri w).2 in
  jwksCache (cache w1) = jwksCache (cache w) ∧
  jwksParser (cache w1) = jwksParser (cache w) ∧
  tasks w1 = tasks w ∧
  (∀ p u jwks, promises w1 !! p = Some (u, Some (Ok jwks)) →
               promises w !! p = Some (u, Some (Ok jwks))) ∧
  (∀ c, (getJwks_call uri w).1 ≠ Returned c).
Proof.
  unfold getJwks_call. destruct (fetchingJwks (cache w) !! uri) as [q|]; simpl.
  - done.
  - repeat split; try done.
    intros p u jwks [[_ H]|[_ H]]%lookup_snoc_Some; done.
Qed.

Lemma getJwks_resume_good uri r w :
  let w1 := (getJwks_resume uri r w).2 in
  (getJwks_resume uri r w).1 = Returned r ∧
  jwksParser (cache w1) = jwksParser (cache w) ∧
  tasks w1 = tasks w ∧ promises w1 = promises w ∧
  (∀ u jwks, jwksCache (cache w1) !! u = Some jwks →
             jwksCache (cache w) !! u = Some jwks ∨ r = Ok jwks).
Proof.
  unfold getJwks_resume. destruct r as [fetched|e]; simpl.
  - repeat split; try done.
    intros u jwks [[_ <-]|[_ H]]%lookup_insert_Some; auto.
  - repeat split; try done. auto.
Qed.

Lemma getJwk_finish_good uri kid r w :
  let w1 := (getJwk_finish uri kid r w).2 in
  jwksCache (cache w1) = jwksCache (cache w) ∧
  jwksParser (cache w1) = jwksParser (cache w) ∧
  tasks w1 = tasks w ∧ promises w1 = promises w.
Proof.
  unfold getJwk_finish. destruct r as [jwks|e]; [|done].
  by destruct (findJwkInJwks jwks kid).
Qed.

Lemma getJwk_call_good uri jwt w :
  allGood Good w →
  let w1 := (getJwk_call uri jwt w).2 in
  jwksCache (cache w1) = jwksCache (cache w) ∧
  jwksParser (cache w1) = jwksParser (cache w) ∧
  tasks w1 = tasks w ∧ promises w1 = promises w ∧
  goodStatus Good (getJwk_call uri jwt w).1.
Proof.
  intros [Hc _ _]. unfold getJwk_call.
  destruct (headerKid jwt) as [kid|]; [|repeat split; done].
  destruct (jwksCache (cache w) !! uri) as [cached|] eqn:Hcached.
  - destruct (findJwkInJwks cached kid) as [jwk|] eqn:Hfind.
    + repeat split; try done. intros jwk0 [= <-]. exists cached.
      split; [by eapply Hc|]. by apply findJwkInJwks_Some in Hfind as [Hin _].
    + destruct (pb_wait uri kid (penaltyBox (cache w))) as [[[]|e] pb]; repeat split; done.
  - destruct (pb_wait uri kid (penaltyBox (cache w))) as [[[]|e] pb]; repeat split; done.
Qed.

Lemma tasks_snoc_good (ts : list Task) call st i c s :
  goodStatus Good st →
  (ts ++ [(call, st)])%list !! i = Some (c, s) →
  ts !! i = Some (c, s) ∨ goodStatus Good s.
Proof. intros Hst [[_ H]|[_ [= <- <-]]]%lookup_snoc_Some; auto. Qed.

Lemma tasks_insert_good (ts : list Task) call st j i c s :
  goodStatus Good st →
  <[j := (call, st)]> ts !! i = Some (c, s) →
  ts !! i = Some (c, s) ∨ goodStatus Good s.
Proof. intros Hst [(_ & [= <- <-] & _)|[_ H]]%list_lookup_insert_Some; auto. Qed.

Lemma allGood_exec a w w' :
  allGood Good w → goodAction Good (jwksParser (cache w)) a → exec a w = Some w' →
  allGood Good w' ∧ jwksParser (cache w') = jwksParser (cache w).
Proof.
  intros Hgood Ha.
  destruct a as [uri jwks | uri | uri jwt | p fetched | i | pb]; simpl in *.
  - intros [= <-]. split; [|done]. apply (allGood_update w _ Hgood); simpl; auto.
    intros u j [[_ <-]|[_ H]]%lookup_insert_Some; auto.
  - destruct (getJwks_call_good uri w) as (Hc & Hparser & Ht & Hp & Hret).
    destruct (getJwks_call uri w) as [c w1]. simpl in *. intros [= <-]. split; [|done].
    apply (allGood_update w _ Hgood); simpl.
    + intros u j. rewrite Hc. auto.
    + intros q u j Hq. left. by eapply Hp.
    + intros j call st. rewrite Ht. apply tasks_snoc_good.
      destruct c as [q|q|r]; [by apply goodStatus_idle..|]. by destruct (Hret r).
  - destruct (getJwk_call_good uri jwt w Hgood) as (Hc & Hparser & Ht & Hp & Hst).
    destruct (getJwk_call uri jwt w) as [st w1]. simpl in *. intros [= <-]. split; [|done].
    apply (allGood_update w _ Hgood); simpl.
    + intros u j. rewrite Hc. auto.
    + intros q u j. rewrite Hp. auto.
    + intros j call s. rewrite Ht. by apply tasks_snoc_good.
  - destruct (promises w !! p) as [[uri [r|]]|] eqn:Hp; [done| |done].
    intros [= <-]. split; [|done]. apply (allGood_update w _ Hgood); simpl; auto.
    intros q u j [(_ & [= <- Hb] & _)|[_ H]]%list_lookup_insert_Some; auto.
  - destruct (tasks w !! i) as [[call st]|] eqn:Hi; [|done]. simpl.
    destruct call as [uri|uri jwt], st as [[q|q|r]|kid|kid [q|q|r]|r]; simpl; try done.
    + destruct (outcome w q) as [r|] eqn:Hr; [|done]. simpl.
      destruct (getJwks_resume_good uri r w) as (Hret & Hparser & Ht & Hp & Hc).
      destruct (getJwks_resume uri r w) as [c w1]. simpl in *. subst c.
      intros [= <-]. split; [|done]. apply (allGood_update w _ Hgood); simpl.
      * intros u j [H| ->]%Hc; [auto|]. right. by eapply outcome_good.
      * intros p u j. rewrite Hp. auto.
      * intros j call s. rewrite Ht.
        apply (tasks_insert_good _ _ (returned (InGetJwks (Originator q)) r)).
        apply goodStatus_returned; [done|]. intros j0 ->. by eapply outcome_good.
    + destruct (getJwks_call_good uri w) as (Hc & Hparser & Ht & Hp & Hret).
      destruct (getJwks_call uri w) as [c w1]. simpl in *. intros [= <-]. split; [|done].
      apply (allGood_update w _ Hgood); simpl.
      * intros u j. rewrite Hc. auto.
      * intros q u j Hq. left. by eapply Hp.
      * intros j call s. rewrite Ht. apply tasks_insert_good.
        destruct c as [q|q|r]; [by apply goodStatus_idle..|]. by destruct (Hret r).
    + destruct (outcome w q) as [r|] eqn:Hr; [|done]. simpl.
      destruct (getJwks_resume_good uri r w) as (Hret & Hparser & Ht & Hp & Hc).
      destruct (getJwks_resume uri r w) as [c w1]. simpl in *. subst c.
      intros [= <-]. split; [|done]. apply (allGood_update w _ Hgood); simpl.
      * intros u j [H| ->]%Hc; [auto|]. right. by eapply outcome_good.
      * intros p u j. rewrite Hp. auto.
      * intros j call s. rewrite Ht.
        apply (tasks_insert_good _ _ (returned (AwaitGetJwks kid (Originator q)) r)).
        apply goodStatus_returned; [done|]. intros j0 ->. by eapply outcome_good.
    + destruct (outcome w q) as [r|] eqn:Hr; [|done]. simpl.
      destruct (getJwk_finish_good uri kid r w) as (Hc & Hparser & Ht & Hp).
      pose proof (getJwk_finish_locate uri kid r w) as Hst.
      destruct (getJwk_finish uri kid r w) as [st w1]. simpl in *. subst st.
      intros [= <-]. split; [|done]. apply (allGood_update w _ Hgood); simpl.
      * intros u j. rewrite Hc. auto.
      * intros p u j. rewrite Hp. auto.
      * intros j call s. rewrite Ht. apply tasks_insert_good.
        apply goodStatus_located. intros j0 ->. by eapply outcome_good.
    + destruct (getJwk_finish_good uri kid r w) as (Hc & Hparser & Ht & Hp).
      pose proof (getJwk_finish_locate uri kid r w) as Hst.
      destruct (getJwk_finish uri kid r w) as [st w1]. simpl in *. subst st.
      intros [= <-]. split; [|done]. apply (allGood_update w _ Hgood); simpl.
      * intros u j. rewrite Hc. auto.
      * intros p u j. rewrite Hp. auto.
      * intros j call s. rewrite Ht. apply tasks_insert_good.
        apply goodStatus_located. intros j0 ->.
        destruct Hgood as [_ _ Htasks].
        by apply (Htasks i (CallGetJwk uri jwt) (AwaitGetJwks kid (Returned (Ok j0))) Hi).
  - intros [= <-]. split; [|done]. apply (allGood_update w _ Hgood); simpl; auto.
Qed.

Lemma allGood_run acts w w' :
  allGood Good w → Forall (goodAction Good (jwksParser (cache w))) acts →
  run acts w = Some w' → allGood Good w'.
Proof.
  revert w. induction acts as [|a acts IH]; intros w Hgood Hacts; simpl.
  - by intros [= <-].
  - destruct (exec a w) as [w1|] eqn:Ha; [|done]. simpl.
    apply Forall_cons in Hacts as [Hga Hacts].
    destruct (allGood_exec a w w1 Hgood Hga Ha) as [Hgood1 Hparser].
    apply IH; [done|]. by rewrite Hparser.
Qed.

Lemma allGood_new (pb : PB) parser : allGood Good (newWorld pb parser).
Proof. split; simpl; intros *; by rewrite ?lookup_empty, ?lookup_nil. Qed.

End Provenance.

Section ProvenanceRuns.
Context {PB : Type} `{!PenaltyBox PB}.
Implicit Types (w : World PB).

Lemma goodAction_broughtIn parser (acts : list (Action PB)) :
  Forall (goodAction (broughtIn parser acts) parser) acts.
Proof.
  apply Forall_forall. intros a Hin. unfold broughtIn.
  destruct a as [uri jwks | uri | uri jwt | p fetched | i | pb]; simpl; try done.
  - apply Exists_exists. exists (ActAddJwks uri jwks). by split.
  - intros jwks Hb. apply Exists_exists. exists (ActSettle p fetched). by split.
Qed.

Lemma getCachedJwk_In uri jwt (c : SimpleJwksCache PB) jwk :
  getCachedJwk uri jwt c = Ok jwk →
  ∃ jwks, jwksCache c !! uri = Some jwks ∧ In jwk (keys jwks).
Proof.
  unfold getCachedJwk. destruct (headerKid jwt) as [kid|]; [|done].
  destruct (jwksCache c !! uri) as [jwks|]; [|done].
  destruct (findJwkInJwks jwks kid) as [found|] eqn:Hfind; [|done].
  intros [= <-]. exists jwks. split; [done|].
  by apply findJwkInJwks_Some in Hfind as [Hin _].
Qed.

Lemma parseJwks_wellTyped decode bin jwks :
  parseJwks decode bin = Ok jwks → Forall wellTypedJwk (keys jwks).
Proof.
  unfold parseJwks. destruct (decode bin) as [err|j]; [done|].
  by intros (fields & _ & _ & Hwt)%assertIsJwks_Ok.
Qed.

End ProvenanceRuns.

(** X14. The cache makes up no keys. Starting from a new cache and whatever the
    schedule of calls, continuations, fetch completions and penalty-box
    changes: every cached key set was given to [addJwks] or is what the
    parser made of the bytes of a fetch that ended; so is every key set that
    [getJwks] returned; and every JWK returned by [getJwk] or found by
    [getCachedJwk] is a key of such a set. *)
Theorem cached_jwks_were_added_or_fetched {PB : Type} `{!PenaltyBox PB}
    (pb : PB) (parser : Bytes → result Jwks) (acts : list (Action PB)) (w : World PB) :
  run acts (newWorld pb parser) = Some w →
  (∀ uri jwks, jwksCache (cache w) !! uri = Some jwks → broughtIn parser acts jwks) ∧
  (∀ i uri jwks, tasks w !! i = Some (CallGetJwks uri, InGetJwks (Returned (Ok jwks))) →
                 broughtIn parser acts jwks) ∧
  (∀ i call jwk, tasks w !! i = Some (call, Done (Ok jwk)) →
                 ∃ jwks, broughtIn parser acts jwks ∧ In jwk (keys jwks)) ∧
  (∀ uri jwt jwk, getCachedJwk uri jwt (cache w) = Ok jwk →
                  ∃ jwks, broughtIn parser acts jwks ∧ In jwk (keys jwks)).
Proof.
  intros Hrun.
  destruct (allGood_run (broughtIn parser acts) acts (newWorld pb parser) w)
    as [Hc Hp Ht]; [apply allGood_new | apply goodAction_broughtIn | done |].
  split; [done|]. split; [|split].
  - intros i uri jwks Hi. by apply (Ht _ _ _ Hi).
  - intros i call jwk Hi. by apply (Ht _ _ _ Hi).
  - intros uri jwt jwk (jwks & Hcached & Hin)%getCachedJwk_In. eauto.
Qed.

Lemma cached_jwks_were_added_or_fetched_witness :
  broughtIn (PB := SimplePenaltyBox.t) servedParser
    [ActGetJwks "https://idp/jwks"; ActSettle 0 (Ok []); ActResume 0]
    (mkJwks [rsaJwk; k2First]).
Proof.
  destruct (cached_jwks_were_added_or_fetched (SimplePenaltyBox.new None 0) servedParser
              [ActGetJwks "https://idp/jwks"; ActSettle 0 (Ok []); ActResume 0]
              (getJwks_alone "https://idp/jwks" (Ok []) freshWorld) eq_refl)
    as (Hcached & _).
  apply (Hcached "https://idp/jwks"). reflexivity.
Defined.

(** X15. What the cache serves has passed the validator. With [parseJwks] as the
    parser (the default), and as long as the key sets given to [addJwks],
    which does not check them, are well typed: in every state the cache can
    reach, every cached key and every JWK returned by [getJwk] or found by
    [getCachedJwk] has a string [kty] and only strings in its optional
    fields. *)
Theorem cache_serves_validated_keys {PB : Type} `{!PenaltyBox PB}
    (pb : PB) (decode : Bytes → string + Json) (acts : list (Action PB)) (w : World PB) :
  (∀ uri jwks, In (ActAddJwks uri jwks) acts → Forall wellTypedJwk (keys jwks)) →
  run acts (newWorld pb (parseJwks decode)) = Some w →
  (∀ uri jwks, jwksCache (cache w) !! uri = Some jwks → Forall wellTypedJwk (keys jwks)) ∧
  (∀ i call jwk, tasks w !! i = Some (call, Done (Ok jwk)) → wellTypedJwk jwk) ∧
  (∀ uri jwt jwk, getCachedJwk uri jwt (cache w) = Ok jwk → wellTypedJwk jwk).
Proof.
  intros Hadded Hrun.
  destruct (allGood_run (λ jwks, Forall wellTypedJwk (keys jwks)) acts
              (newWorld pb (parseJwks decode)) w) as [Hc Hp Ht]; [apply allGood_new | |done|].
  { apply Forall_forall. intros a Hin.
    destruct a as [uri jwks | uri | uri jwt | p fetched | i | pb0]; simpl; try done.
    - apply (Hadded uri). by apply list_elem_of_In.
    - intros jwks. destruct fetched as [bin|e]; [|done]. simpl.
      apply parseJwks_wellTyped. }
  split; [done|]. split.
  - intros i call jwk Hi. destruct (Ht _ _ _ Hi) as [_ Hdone].
    destruct (Hdone jwk eq_refl) as (jwks & Hwt & Hin).
    rewrite Forall_forall in Hwt. by apply Hwt, list_elem_of_In.
  - intros uri jwt jwk (jwks & Hcached & Hin)%getCachedJwk_In.
    pose proof (Hc _ _ Hcached) as Hwt. rewrite Forall_forall in Hwt. by apply Hwt, list_elem_of_In.
Qed.

Lemma cache_serves_validated_keys_witness :
  wellTypedJwk k2First.
Proof.
  destruct (cache_serves_validated_keys (SimplePenaltyBox.new None 0)
              (fun _ => inr servedJwks)
              [ActGetJwk "https://idp/jwks" jwtK2; ActResume 0; ActSettle 0 (Ok []);
               ActResume 0; ActResume 0]
              (getJwk_alone "https://idp/jwks" jwtK2 (Ok []) freshWorld))
    as (_ & Hreturned & _).
  - intros uri jwks [H|[H|[H|[H|[H|[]]]]]]; discriminate H.
  - reflexivity.
  - apply (Hreturned 0 (CallGetJwk "https://idp/jwks" jwtK2)). reflexivity.
Defined.

(** ** The cache with a [SimplePenaltyBox] *)

Section WithSimplePenaltyBox.
Implicit Types (w : World SimplePenaltyBox.t).


Lemma getJwk_call_passed uri jwt kid w :
  headerKid jwt = Some kid → cachedJwk uri kid (cache w) = None →
  SimplePenaltyBox.wait uri (penaltyBox (cache w)) = Ok tt →
  (getJwk_call uri jwt w).1 = AwaitWait kid.
Proof.
  intros Hkid Hmiss Hwait. rewrite (getJwk_call_miss uri jwt w kid Hkid Hmiss).
  simpl. by rewrite Hwait.
Qed.

End WithSimplePenaltyBox.



(** X17. A cache with a [SimplePenaltyBox], when [getJwk] has fetched a key set
    that has the JWT's kid: the JWK is returned and the URI is out of its
    back-off period, whatever failed attempts were registered before and
    however much time passes: the next [getJwk] for the URI with a kid that
    is not cached gets past the penalty box and on to [getJwks]. *)
Theorem found_kid_ends_backoff (w : World SimplePenaltyBox.t)
    (uri kid : string) (jwks : Jwks) (jwk : Jwk) (ms : N) :
  findJwkInJwks jwks kid = Some jwk →
  let w1 := (getJwk_finish uri kid (Ok jwks) w).2 in
  let w2 := set_cache (set_penaltyBox (SimplePenaltyBox.advance ms (penaltyBox (cache w1)))
                         (cache w1)) w1 in
  (getJwk_finish uri kid (Ok jwks) w).1 = Done (Ok jwk) ∧
  exec (ActPenaltyBox (SimplePenaltyBox.advance ms (penaltyBox (cache w1)))) w1 = Some w2 ∧
  ∀ jwt2 kid2, headerKid jwt2 = Some kid2 → cachedJwk uri kid2 (cache w) = None →
    (getJwk_call uri jwt2 w2).1 = AwaitWait kid2.
Proof.
  intros Hfound w1 w2. subst w1 w2.
  unfold getJwk_finish. rewrite Hfound. simpl.
  split; [done|]. split; [done|].
  intros jwt2 kid2 Hkid2 Hc.
  match goal with |- context [getJwk_call uri jwt2 ?W] => set (w2 := W) end.
  apply (getJwk_call_passed uri jwt2 kid2 w2 Hkid2 Hc). simpl.
  apply SimplePenaltyBoxRelease.still_free_later,
    SimplePenaltyBoxFacts.release_not_waiting.
Qed.

Lemma found_kid_ends_backoff_witness :
  (getJwk_call "https://idp/jwks" jwtEmptyKid
     (set_cache
        (set_penaltyBox
           (SimplePenaltyBox.advance 1
              (penaltyBox (cache (getJwk_finish "https://idp/jwks" "k2"
                                    (Ok (mkJwks [k2First])) backedOff).2)))
           (cache (getJwk_finish "https://idp/jwks" "k2"
                     (Ok (mkJwks [k2First])) backedOff).2))
        (getJwk_finish "https://idp/jwks" "k2" (Ok (mkJwks [k2First])) backedOff).2)).1
  = AwaitWait EmptyString.
Proof.
  destruct (found_kid_ends_backoff backedOff "https://idp/jwks" "k2"
              (mkJwks [k2First]) k2First 1 eq_refl) as (_ & _ & Hnext).
  apply (Hnext jwtEmptyKid EmptyString); reflexivity.
Defined.

(** ** The configuration of the ALB checks *)

(** X18. [validateAlbJwtFields] reads its options in a fixed order. A left-out
    [albArn] is a [ParameterValidationError] for every header; so is a
    left-out [clientId], once the signer check has passed or was switched
    off with [null]; a failed signer check is thrown as it is, whatever
    [clientId] is, left out included. With both set to [null] every header
    passes, and [verify] then returns the payload whenever the base
    verification passes. In [verify] the configuration errors are raised
    only after the base verification has passed, and they never carry the
    raw JWT, [includeRawJwtInErrors] or not. *)
Theorem alb_options_are_read_in_order
    (failedAssertion : ErrorKind) (base : AlbJwtVerifier.Collaborators)
    (jwt : DecomposedJwt) (props : AlbJwtVerifier.VerifyProperties) :
  let validated :=
    AlbJwtVerifier.validateAlbJwtFields failedAssertion (header jwt) props in
  let signerChecked arns :=
    AlbJwtVerifier.assertStringArrayContainsString failedAssertion "ALB ARN"
      (obj_get (header jwt) "signer") arns in
  (AlbJwtVerifier.albArn props = AlbJwtVerifier.Undefined →
   validated = throw ParameterValidationError
                 "albArn must be provided or set to null explicitly") ∧
  (∀ arns e, AlbJwtVerifier.albArn props = AlbJwtVerifier.OneOf arns →
             signerChecked arns = Throw e → validated = Throw e) ∧
  (AlbJwtVerifier.clientId props = AlbJwtVerifier.Undefined →
   AlbJwtVerifier.albArn props = AlbJwtVerifier.Null ∨
   (∃ arns, AlbJwtVerifier.albArn props = AlbJwtVerifier.OneOf arns ∧
            signerChecked arns = Ok tt) →
   validated = throw ParameterValidationError
                 "clientId must be provided or set to null explicitly") ∧
  (AlbJwtVerifier.albArn props = AlbJwtVerifier.Null →
   AlbJwtVerifier.clientId props = AlbJwtVerifier.Null →
   validated = Ok tt ∧
   (AlbJwtVerifier.verifyDecomposedJwt base jwt props = Ok tt →
    AlbJwtVerifier.verify failedAssertion base jwt props = Ok (payload jwt))) ∧
  (∀ e, validated = Throw e → kind e = ParameterValidationError →
        AlbJwtVerifier.verifyDecomposedJwt base jwt props = Ok tt →
        AlbJwtVerifier.verify failedAssertion base jwt props = Throw e ∧
        AlbJwtVerifier.verifySync failedAssertion base jwt props = Throw e ∧
        rawJwt e = None).
Proof.
  intros validated signerChecked. subst validated signerChecked.
  unfold AlbJwtVerifier.validateAlbJwtFields.
  split; [|split; [|split; [|split]]].
  - by intros ->.
  - intros arns e -> ->. done.
  - intros -> [-> |(arns & -> & ->)]; done.
  - intros Harn Hclient.
    unfold AlbJwtVerifier.verify, AlbJwtVerifier.validateAlbJwtFields.
    rewrite Harn, Hclient. split; [done|]. by intros ->.
  - intros e Hv Hkind Hbase.
    assert (AlbJwtVerifier.validateAlbJwtFields failedAssertion (header jwt) props = Throw e)
      as Hv' by exact Hv.
    destruct (AlbJwtVerifierFacts.validateAlbJwtFields_fresh _ _ _ _ Hv') as [Hraw _].
    unfold AlbJwtVerifier.verify, AlbJwtVerifier.verifySync.
    rewrite Hbase, Hv'. cbn [bind]. unfold AlbJwtVerifier.rethrow.
    rewrite Hkind. simpl. rewrite andb_false_r. done.
Qed.

Lemma alb_options_are_read_in_order_witness :
  AlbJwtVerifier.validateAlbJwtFields AlbJwtVerifier.defaultAssertionError (header albToken)
    (AlbJwtVerifier.mkProps AlbJwtVerifier.Undefined (AlbJwtVerifier.OneOf ["client-xyz"]) true)
  = throw ParameterValidationError "albArn must be provided or set to null explicitly".
Proof.
  apply (alb_options_are_read_in_order AlbJwtVerifier.defaultAssertionError goodSignature
           albToken
           (AlbJwtVerifier.mkProps AlbJwtVerifier.Undefined
              (AlbJwtVerifier.OneOf ["client-xyz"]) true)).
  reflexivity.
Defined.
